(** * claude-max-api-proxy: the adapter between the OpenAI chat protocol
      and the Claude CLI, embedded in Rocq.

    The development follows the layout of the sources:
    - [Str]: JavaScript strings (sequences of UTF-16 code units) with the
      string primitives the program calls ([trim], [includes], [join], ...);
    - [Num]: the Number values [JSON.parse] returns (doubles), with the
      rounding of a decimal literal and [Number::toString];
    - [Json]: JSON values with [JSON.stringify] and [JSON.parse];
    - [Js]: the fragment of JavaScript evaluation the adapter relies on
      (undefined, truthiness, ToString, property reads, exceptions);
    - [ToolProtocol]: dist/adapter/tool-protocol.js;
    - [OpenaiToCli]: dist/adapter/openai-to-cli.js;
    - [CliToOpenai]: dist/adapter/cli-to-openai.js;
    - [Subprocess]: dist/subprocess/manager.js;
    - [Routes]: dist/server/routes.js;
    - [Session]: dist/session/manager.js.
    Definitions come first; the lemmas and the theorems about them follow. *)

From Stdlib Require Import ZArith NArith List String Ascii Bool Lia.
From Stdlib Require Import DecimalFacts DecimalPos DecimalN.
From stdpp Require Import gmap.
Import ListNotations.

Set Warnings "-register-all".
Local Open Scope N_scope.
Local Open Scope list_scope.

(* ===================================================================== *)
(** * JavaScript strings *)
(* ===================================================================== *)

(** A JavaScript string is a finite sequence of 16-bit code units.  A code
    unit is an [N]; the literals of the program are ASCII. *)
Abbreviation jstr := (list N).

Module Str.

Definition lit (s : string) : jstr := map N_of_ascii (list_ascii_of_string s).
Global Arguments lit : simpl never.

Definition nl : jstr := [10].
Definition dquote : jstr := [34].

(** The characters matched by [\s] and stripped by [String.prototype.trim]:
    WhiteSpace and LineTerminator of ECMAScript. *)
Definition is_space (c : N) : bool :=
  (c =? 9) || (c =? 10) || (c =? 11) || (c =? 12) || (c =? 13) || (c =? 32)
  || (c =? 160) || (c =? 5760) || ((8192 <=? c) && (c <=? 8202))
  || (c =? 8232) || (c =? 8233) || (c =? 8239) || (c =? 8287)
  || (c =? 12288) || (c =? 65279).

Fixpoint skip_ws (s : jstr) : jstr :=
  match s with
  | c :: t => if is_space c then skip_ws t else s
  | [] => []
  end.

(** [s.trim()] *)
Definition trim (s : jstr) : jstr := rev (skip_ws (rev (skip_ws s))).

(** [s.startsWith(p)] *)
Fixpoint starts_with (p s : jstr) : bool :=
  match p, s with
  | [], _ => true
  | a :: p', b :: s' => (a =? b) && starts_with p' s'
  | _ :: _, [] => false
  end.

(** [s.includes(p)] *)
Fixpoint includes (p s : jstr) : bool :=
  starts_with p s || match s with [] => false | _ :: t => includes p t end.

(** [l.join(sep)] on an array of strings *)
Fixpoint join (sep : jstr) (l : list jstr) : jstr :=
  match l with
  | [] => []
  | [x] => x
  | x :: t => x ++ sep ++ join sep t
  end.

(** The text after the first occurrence of [p] in [s], if any. *)
Fixpoint after_first (p s : jstr) : option jstr :=
  if starts_with p s then Some (drop (length p) s)
  else match s with [] => None | _ :: t => after_first p t end.

Definition eqb (a b : jstr) : bool := bool_decide (a = b).

(** Decimal digits of a natural number, as [Number.prototype.toString]
    prints an integer. *)
Fixpoint uint_chars (u : Decimal.uint) : jstr :=
  match u with
  | Decimal.Nil => []
  | Decimal.D0 u => 48 :: uint_chars u
  | Decimal.D1 u => 49 :: uint_chars u
  | Decimal.D2 u => 50 :: uint_chars u
  | Decimal.D3 u => 51 :: uint_chars u
  | Decimal.D4 u => 52 :: uint_chars u
  | Decimal.D5 u => 53 :: uint_chars u
  | Decimal.D6 u => 54 :: uint_chars u
  | Decimal.D7 u => 55 :: uint_chars u
  | Decimal.D8 u => 56 :: uint_chars u
  | Decimal.D9 u => 57 :: uint_chars u
  end.

Definition of_N (n : N) : jstr := uint_chars (N.to_uint n).

Definition of_Z (z : Z) : jstr :=
  match z with
  | Z0 => [48]
  | Zpos p => of_N (Npos p)
  | Zneg p => 45 :: of_N (Npos p)
  end.

Definition is_digit (c : N) : bool := (48 <=? c) && (c <=? 57).

Definition digit_cons (c : N) (u : Decimal.uint) : Decimal.uint :=
  match c - 48 with
  | 0 => Decimal.D0 u
  | 1 => Decimal.D1 u
  | 2 => Decimal.D2 u
  | 3 => Decimal.D3 u
  | 4 => Decimal.D4 u
  | 5 => Decimal.D5 u
  | 6 => Decimal.D6 u
  | 7 => Decimal.D7 u
  | 8 => Decimal.D8 u
  | _ => Decimal.D9 u
  end.

(** The longest run of decimal digits at the head of [s], and what follows. *)
Fixpoint read_digits (s : jstr) : Decimal.uint * jstr :=
  match s with
  | c :: t =>
      if is_digit c then let '(u, r) := read_digits t in (digit_cons c u, r)
      else (Decimal.Nil, s)
  | [] => (Decimal.Nil, [])
  end.

End Str.

(* ===================================================================== *)
(** * JavaScript numbers *)
(* ===================================================================== *)

Module Num.
Import Str.
Local Open Scope Z_scope.

(** A Number value as [JSON.parse] returns it: a double that is not NaN.
    It is a zero, positive or negative; or [Finite m e], the number
    [m * 2^e] with [m] odd; or an infinity. *)
Inductive number : Type :=
| Zero (negative : bool)
| Finite (m e : Z)
| Infinite (negative : bool).

Definition zero : number := Zero false.

Definition eqb (x y : number) : bool :=
  match x, y with
  | Zero a, Zero b => Bool.eqb a b
  | Finite m e, Finite m' e' => (m =? m') && (e =? e')
  | Infinite a, Infinite b => Bool.eqb a b
  | _, _ => false
  end.

Definition is_finite (x : number) : bool :=
  match x with Infinite _ => false | _ => true end.

Definition is_zero (x : number) : bool :=
  match x with
  | Zero _ => true
  | Finite m _ => m =? 0
  | Infinite _ => false
  end.

Definition negate (x : number) : number :=
  match x with
  | Zero negative => Zero (negb negative)
  | Finite m e => Finite (- m) e
  | Infinite negative => Infinite (negb negative)
  end.

(** ** The Number value of a decimal: round to nearest, ties to even *)

Fixpoint odd_part (p : positive) (e : Z) : Z * Z :=
  match p with
  | xO p' => odd_part p' (e + 1)
  | _ => (Zpos p, e)
  end.

(** [q * 2^k], for [q >= 0] *)
Definition dyadic (q k : Z) : number :=
  match q with
  | Zpos p => let '(m, e) := odd_part p k in Finite m e
  | _ => zero
  end.

(** [floor (log2 (n / d))], for positive [n] and [d] *)
Definition log2_ratio (n d : Z) : Z :=
  let l := Z.log2 n - Z.log2 d in
  if (if 0 <=? l then d * 2 ^ l <=? n else d <=? n * 2 ^ (- l)) then l else l - 1.

(** The double nearest to [n / d], for positive [n] and [d], and the one
    with the even significand when [n / d] is halfway between two.  The
    significand [q] has 53 bits, fewer under 2^-1022 where the exponent [k]
    stays at -1074 (the subnormal numbers and zero); 2^1024 and more is
    Infinity. *)
Definition round_ratio (n d : Z) : number :=
  let k := Z.max (log2_ratio n d - 52) (-1074) in
  let n' := if 0 <=? k then n else n * 2 ^ (- k) in
  let d' := if 0 <=? k then d * 2 ^ k else d in
  let q := n' / d' in
  let q' := match 2 * (n' mod d') ?= d' with
            | Lt => q
            | Gt => q + 1
            | Eq => if Z.even q then q else q + 1
            end in
  if 1024 <=? Z.log2 q' + k then Infinite false else dyadic q' k.

(** The Number value of the decimal [mag * 10^e10], [mag >= 0], negated
    when [neg]. *)
Definition of_decimal (neg : bool) (mag e10 : Z) : number :=
  let x := if mag <=? 0 then zero
           else if 0 <=? e10 then round_ratio (mag * 10 ^ e10) 1
           else round_ratio mag (10 ^ (- e10)) in
  if neg then negate x else x.

(** ** Number::toString *)

(** The number of multiplications by ten that bring [n / d], under 1, to 1
    or more. *)
Fixpoint scale_up (fuel : nat) (n d : Z) : Z :=
  match fuel with
  | O => 0
  | S f => if d <=? 10 * n then 1 else 1 + scale_up f (10 * n) d
  end.

(** The decimal exponent [x] of [n / d]: [10^(x-1) <= n / d < 10^x]. *)
Definition exponent10 (n d : Z) : Z :=
  if d <=? n then Z.of_nat (length (of_N (Z.to_N (n / d))))
  else 1 - scale_up 400 n d.

(** A decimal without its trailing zeros. *)
Fixpoint strip_zeros (fuel : nat) (s e10 : Z) : Z * Z :=
  match fuel with
  | O => (s, e10)
  | S f => if (0 <? s) && (s mod 10 =? 0) then strip_zeros f (s / 10) (e10 + 1)
           else (s, e10)
  end.

Definition reads_as (x : number) (c : Z * Z) : bool :=
  (0 <? fst c) && eqb (of_decimal false (fst c) (snd c)) x.

(** The decimal of [k] digits for [x = n / d], of decimal exponent [x10]:
    of the two decimals of [k] digits around [x], one that reads back as
    [x], and the nearer one (the even one halfway) when both do. *)
Definition digits_at (x : number) (n d x10 k : Z) : option (Z * Z) :=
  let n' := if 0 <=? k - x10 then n * 10 ^ (k - x10) else n in
  let d' := if 0 <=? k - x10 then d else d * 10 ^ (x10 - k) in
  let s := n' / d' in
  let below := strip_zeros 20 s (x10 - k) in
  let above := strip_zeros 20 (s + 1) (x10 - k) in
  match reads_as x below, reads_as x above with
  | true, true => Some (match 2 * (n' mod d') ?= d' with
                        | Lt => below
                        | Gt => above
                        | Eq => if Z.even s then below else above
                        end)
  | true, false => Some below
  | false, true => Some above
  | false, false => None
  end.

(** The first number of digits, from [k] on, that is enough. *)
Fixpoint shortest (x : number) (n d x10 : Z) (fuel : nat) (k : Z) : option (Z * Z) :=
  match fuel with
  | O => None
  | S f => match digits_at x n d x10 k with
           | Some c => Some c
           | None => shortest x n d x10 f (k + 1)
           end
  end.

(** The digits [s] and the exponent [e10] that [Number::toString] prints
    for [m * 2^e], [m > 0]: the decimal [s * 10^e10] with the fewest digits
    that reads back as the number.  Seventeen digits are enough for every
    double; a value they are not enough for is written out in full. *)
Definition digits (m e : Z) : Z * Z :=
  let n := if 0 <=? e then m * 2 ^ e else m in
  let d := if 0 <=? e then 1 else 2 ^ (- e) in
  match shortest (Finite m e) n d (exponent10 n d) 17 1 with
  | Some c => c
  | None => strip_zeros 1100 (if 0 <=? e then m * 2 ^ e else m * 5 ^ (- e))
                             (if 0 <=? e then 0 else e)
  end.

Definition zeros (n : Z) : jstr := repeat 48%N (Z.to_nat n).

(** The exponent part: [e+21], [e-7]. *)
Definition exponent_part (x : Z) : jstr :=
  101%N :: (if 0 <=? x then 43%N else 45%N) :: of_N (Z.abs_N x).

(** The text of the decimal [s * 10^e10], [s > 0], by the position [n] of
    its decimal point after the first of its [k] digits. *)
Definition format (s e10 : Z) : jstr :=
  let ds := of_N (Z.to_N s) in
  let k := Z.of_nat (length ds) in
  let n := e10 + k in
  if (k <=? n) && (n <=? 21) then ds ++ zeros (n - k)
  else if (0 <? n) && (n <=? 21) then
    firstn (Z.to_nat n) ds ++ 46%N :: skipn (Z.to_nat n) ds
  else if (-6 <? n) && (n <=? 0) then 48%N :: 46%N :: zeros (- n) ++ ds
  else match ds with
       | [] => []
       | [c] => c :: exponent_part (n - 1)
       | c :: rest => c :: 46%N :: rest ++ exponent_part (n - 1)
       end.

(** [Number::toString(x)]; both zeros print as [0]. *)
Definition to_string (x : number) : jstr :=
  match x with
  | Infinite false => lit "Infinity"
  | Infinite true => lit "-Infinity"
  | Zero _ | Finite 0 _ => [48%N]
  | Finite (Zpos p) e => let '(s, e10) := digits (Zpos p) e in format s e10
  | Finite (Zneg p) e => let '(s, e10) := digits (Zpos p) e in 45%N :: format s e10
  end.

(** The number is printed with digits that read back as itself: as every
    finite double is, but the negative zero, which prints as [0]. *)
Definition round_trips (x : number) : bool :=
  match x with
  | Infinite _ => false
  | Zero negative => negb negative
  | Finite 0 e => false
  | Finite (Zpos p) e => reads_as x (digits (Zpos p) e)
  | Finite (Zneg p) e => reads_as (Finite (Zpos p) e) (digits (Zpos p) e)
  end.

End Num.

(* ===================================================================== *)
(** * JSON values, [JSON.stringify] and [JSON.parse] *)
(* ===================================================================== *)

Module Json.
Import Str.

(** The values [JSON.parse] returns.  A number is a double; an object is
    the list of its own properties in enumeration order. *)
Inductive json : Type :=
| JNull
| JBool (b : bool)
| JNum (x : Num.number)
| JStr (s : jstr)
| JArr (xs : list json)
| JObj (kvs : list (jstr * json)).

(** ** QuoteJSONString *)

Definition hex_digit (n : N) : N := if n <? 10 then 48 + n else 87 + n.

Definition uescape (c : N) : jstr :=
  [92; 117; hex_digit (c / 4096 mod 16); hex_digit (c / 256 mod 16);
   hex_digit (c / 16 mod 16); hex_digit (c mod 16)].

Definition is_high (c : N) : bool := (55296 <=? c) && (c <=? 56319).
Definition is_low (c : N) : bool := (56320 <=? c) && (c <=? 57343).

(** One code unit that is not part of a surrogate pair. *)
Definition escape1 (c : N) : jstr :=
  if c =? 8 then [92; 98]
  else if c =? 9 then [92; 116]
  else if c =? 10 then [92; 110]
  else if c =? 12 then [92; 102]
  else if c =? 13 then [92; 114]
  else if c =? 34 then [92; 34]
  else if c =? 92 then [92; 92]
  else if (c <? 32) || is_high c || is_low c then uescape c
  else [c].

Fixpoint quote_chars (s : jstr) : jstr :=
  match s with
  | [] => []
  | c :: t =>
      if is_high c then
        match t with
        | d :: t' => if is_low d then c :: d :: quote_chars t'
                     else uescape c ++ quote_chars t
        | [] => uescape c
        end
      else escape1 c ++ quote_chars t
  end.

Definition quote (s : jstr) : jstr := 34 :: quote_chars s ++ [34].

(** ** Numbers *)

(** A finite number is written as [Number::toString] prints it, an
    infinite one as [null]. *)
Definition num_str (x : Num.number) : jstr :=
  if Num.is_finite x then Num.to_string x else lit "null".

(** ** SerializeJSONProperty, with the gap of [JSON.stringify(v, null, gap)]
    and the current indentation. *)

Definition is_nil {A} (l : list A) : bool :=
  match l with [] => true | _ => false end.

Definition wrap (gap indent : jstr) (open close : N) (parts : list jstr) : jstr :=
  if is_nil parts then [open; close]
  else if is_nil gap then open :: join [44] parts ++ [close]
  else
    let inner := indent ++ gap in
    open :: nl ++ inner ++ join (44 :: nl ++ inner) parts ++ nl ++ indent ++ [close].

Definition colon (gap : jstr) : jstr := if is_nil gap then [58] else [58; 32].

Fixpoint ser (gap indent : jstr) (v : json) : jstr :=
  match v with
  | JNull => lit "null"
  | JBool true => lit "true"
  | JBool false => lit "false"
  | JNum x => num_str x
  | JStr s => quote s
  | JArr xs => wrap gap indent 91 93 (map (ser gap (indent ++ gap)) xs)
  | JObj kvs =>
      wrap gap indent 123 125
        (map (fun kv => let '(k, x) := kv in
                        quote k ++ colon gap ++ ser gap (indent ++ gap) x) kvs)
  end.

(** [JSON.stringify(v)] *)
Definition stringify (v : json) : jstr := ser [] [] v.

(** [JSON.stringify(v, null, 2)] *)
Definition stringify2 (v : json) : jstr := ser [32; 32] [] v.

(** ** [JSON.parse] *)

(** JSON white space: tab, line feed, carriage return, space. *)
Definition is_jws (c : N) : bool :=
  (c =? 9) || (c =? 10) || (c =? 13) || (c =? 32).

Fixpoint skip_jws (s : jstr) : jstr :=
  match s with
  | c :: t => if is_jws c then skip_jws t else s
  | [] => []
  end.

Definition hex_val (c : N) : option N :=
  if (48 <=? c) && (c <=? 57) then Some (c - 48)
  else if (97 <=? c) && (c <=? 102) then Some (c - 87)
  else if (65 <=? c) && (c <=? 70) then Some (c - 55)
  else None.

Definition hex4 (a b c d : N) : option N :=
  match hex_val a, hex_val b, hex_val c, hex_val d with
  | Some x, Some y, Some z, Some w => Some (x * 4096 + y * 256 + z * 16 + w)
  | _, _, _, _ => None
  end.

Definition unescape1 (e : N) : option N :=
  if e =? 34 then Some 34
  else if e =? 92 then Some 92
  else if e =? 47 then Some 47
  else if e =? 98 then Some 8
  else if e =? 102 then Some 12
  else if e =? 110 then Some 10
  else if e =? 114 then Some 13
  else if e =? 116 then Some 9
  else None.

Definition cons_fst {A B} (a : A) (r : option (list A * B)) : option (list A * B) :=
  match r with Some (l, b) => Some (a :: l, b) | None => None end.

(** The characters of a string literal after its opening quote, up to the
    closing quote; returns the decoded string and the text that follows. *)
Fixpoint parse_chars (s : jstr) : option (jstr * jstr) :=
  match s with
  | [] => None
  | c :: t =>
      if c =? 34 then Some ([], t)
      else if c =? 92 then
        match t with
        | [] => None
        | e :: t' =>
            if e =? 117 then
              match t' with
              | h1 :: h2 :: h3 :: h4 :: t'' =>
                  match hex4 h1 h2 h3 h4 with
                  | Some u => cons_fst u (parse_chars t'')
                  | None => None
                  end
              | _ => None
              end
            else
              match unescape1 e with
              | Some u => cons_fst u (parse_chars t')
              | None => None
              end
        end
      else if c <? 32 then None
      else cons_fst c (parse_chars t)
  end.

(** [digit+] : at least one digit. *)
Definition read_digits1 (s : jstr) : option (Decimal.uint * jstr) :=
  match read_digits s with
  | (Decimal.Nil, _) => None
  | (u, r) => Some (u, r)
  end.

(** [0 | [1-9] digit*] *)
Definition read_int (s : jstr) : option (Decimal.uint * jstr) :=
  match s with
  | c :: t => if c =? 48 then Some (Decimal.D0 Decimal.Nil, t)
              else read_digits1 s
  | [] => None
  end.

(** [(. digit+)?] *)
Definition read_frac (s : jstr) : option (Decimal.uint * jstr) :=
  match s with
  | c :: t => if c =? 46 then read_digits1 t else Some (Decimal.Nil, s)
  | [] => Some (Decimal.Nil, s)
  end.

(** [([eE] [+-]? digit+)?] *)
Definition read_exp (s : jstr) : option (Z * jstr) :=
  match s with
  | c :: t =>
      if (c =? 101) || (c =? 69) then
        match t with
        | sg :: t' =>
            if sg =? 45 then
              match read_digits1 t' with
              | Some (u, r) => Some ((- Z.of_N (N.of_uint u))%Z, r)
              | None => None
              end
            else
              match read_digits1 (if sg =? 43 then t' else t) with
              | Some (u, r) => Some (Z.of_N (N.of_uint u), r)
              | None => None
              end
        | [] => None
        end
      else Some (0%Z, s)
  | [] => Some (0%Z, s)
  end.

Definition parse_number (s : jstr) : option (json * jstr) :=
  let '(neg, s1) := match s with
                    | c :: t => if c =? 45 then (true, t) else (false, s)
                    | [] => (false, s)
                    end in
  match read_int s1 with
  | None => None
  | Some (i, s2) =>
      match read_frac s2 with
      | None => None
      | Some (f, s3) =>
          match read_exp s3 with
          | None => None
          | Some (x, s4) =>
              let mag := Z.of_N (N.of_uint (Decimal.app i f)) in
              Some (JNum (Num.of_decimal neg mag
                            (x - Z.of_nat (Decimal.nb_digits f))%Z), s4)
          end
      end
  end.

(** An array index: the canonical decimal text of an integer below
    [2^32 - 1]. *)
Definition array_index (k : jstr) : option N :=
  match k with
  | [] => None
  | c :: t =>
      if forallb is_digit k && (negb (c =? 48) || is_nil t) then
        let i := N.of_uint (fst (read_digits k)) in
        if i <? 4294967295 then Some i else None
      else None
  end.

(** The enumeration order of the own properties: the array indices first,
    in ascending order, then the other keys in the order of their creation.
    [stays_before k' k]: the key [k'] of the object stays in front of the
    new key [k]. *)
Definition stays_before (k' k : jstr) : bool :=
  match array_index k with
  | None => true
  | Some i => match array_index k' with
              | Some j => j <? i
              | None => false
              end
  end.

Definition has_key (k : jstr) (o : list (jstr * json)) : bool :=
  existsb (fun kv => eqb (fst kv) k) o.

Fixpoint replace_value (k : jstr) (v : json) (o : list (jstr * json))
    : list (jstr * json) :=
  match o with
  | [] => []
  | (k', v') :: o' => if eqb k' k then (k', v) :: o' else (k', v') :: replace_value k v o'
  end.

Fixpoint insert_key (k : jstr) (v : json) (o : list (jstr * json))
    : list (jstr * json) :=
  match o with
  | [] => [(k, v)]
  | (k', v') :: o' => if stays_before k' k then (k', v') :: insert_key k v o'
                      else (k, v) :: o
  end.

(** [obj[k] = v] during parsing: a repeated key keeps its place and takes
    the later value, a new key goes to its place in the enumeration
    order. *)
Definition obj_set (k : jstr) (v : json) (o : list (jstr * json)) : list (jstr * json) :=
  if has_key k o then replace_value k v o else insert_key k v o.

Definition obj_of_members (ms : list (jstr * json)) : list (jstr * json) :=
  fold_left (fun o kv => obj_set (fst kv) (snd kv) o) ms [].

Definition expect (p : jstr) (v : json) (s : jstr) : option (json * jstr) :=
  if starts_with p s then Some (v, drop (length p) s) else None.

(** Recursive descent; [fuel] bounds the nesting and the number of
    elements, [JSON_parse] supplies the length of the text. *)
Fixpoint parse_value (fuel : nat) (s : jstr) : option (json * jstr) :=
  match fuel with
  | O => None
  | S f =>
      match skip_jws s with
      | [] => None
      | c :: t =>
          if c =? 110 then expect (lit "null") JNull (c :: t)
          else if c =? 116 then expect (lit "true") (JBool true) (c :: t)
          else if c =? 102 then expect (lit "false") (JBool false) (c :: t)
          else if c =? 34 then
            match parse_chars t with
            | Some (str, r) => Some (JStr str, r)
            | None => None
            end
          else if c =? 91 then
            match skip_jws t with
            | c' :: r =>
                if c' =? 93 then Some (JArr [], r)
                else match parse_elems f t with
                     | Some (xs, r') => Some (JArr xs, r')
                     | None => None
                     end
            | [] => None
            end
          else if c =? 123 then
            match skip_jws t with
            | c' :: r =>
                if c' =? 125 then Some (JObj [], r)
                else match parse_members f t with
                     | Some (ms, r') => Some (JObj (obj_of_members ms), r')
                     | None => None
                     end
            | [] => None
            end
          else if (c =? 45) || is_digit c then parse_number (c :: t)
          else None
      end
  end

with parse_elems (fuel : nat) (s : jstr) : option (list json * jstr) :=
  match fuel with
  | O => None
  | S f =>
      match parse_value f s with
      | None => None
      | Some (x, r) =>
          match skip_jws r with
          | c :: r' =>
              if c =? 44 then cons_fst x (parse_elems f r')
              else if c =? 93 then Some ([x], r')
              else None
          | [] => None
          end
      end
  end

with parse_members (fuel : nat) (s : jstr) : option (list (jstr * json) * jstr) :=
  match fuel with
  | O => None
  | S f =>
      match skip_jws s with
      | q :: t =>
          if q =? 34 then
            match parse_chars t with
            | None => None
            | Some (k, r) =>
                match skip_jws r with
                | c :: r1 =>
                    if c =? 58 then
                      match parse_value f r1 with
                      | None => None
                      | Some (x, r2) =>
                          match skip_jws r2 with
                          | c' :: r3 =>
                              if c' =? 44 then cons_fst (k, x) (parse_members f r3)
                              else if c' =? 125 then Some ([(k, x)], r3)
                              else None
                          | [] => None
                          end
                      end
                    else None
                | [] => None
                end
            end
          else None
      | [] => None
      end
  end.

(** The keys of an object are in enumeration order. *)
Fixpoint ordered (ks : list jstr) : bool :=
  match ks with
  | [] => true
  | k :: t => forallb (stays_before k) t && ordered t
  end.

(** A value JavaScript can hold: the keys of every object are distinct and
    in enumeration order. *)
Fixpoint wf (v : json) : bool :=
  match v with
  | JArr xs => forallb wf xs
  | JObj kvs =>
      bool_decide (NoDup (map fst kvs)) && ordered (map fst kvs)
      && forallb (fun kv => wf (snd kv)) kvs
  | _ => true
  end.

(** Every number of the value is printed with digits that read back as
    itself, as the finite doubles are, the negative zero apart:
    [JSON.stringify] writes the value without loss. *)
Fixpoint printable (v : json) : bool :=
  match v with
  | JNum x => Num.round_trips x
  | JArr xs => forallb printable xs
  | JObj kvs => forallb (fun kv => printable (snd kv)) kvs
  | _ => true
  end.

(** The number of nodes of a value, counting the elements of the arrays
    and the members of the objects: the fuel [parse_value] needs to read it
    back. *)
Fixpoint size (v : json) : nat :=
  match v with
  | JArr xs => S (fold_right (fun x n => S (size x + n)) 0%nat xs)
  | JObj kvs => S (fold_right (fun kv n => S (size (snd kv) + n)) 0%nat kvs)
  | _ => 1%nat
  end.

(** What may follow a number for its literal to end there: not a digit, a
    point or an exponent mark. *)
Definition ends_number (rest : jstr) : Prop :=
  match rest with
  | [] => True
  | c :: _ => is_digit c = false /\ c <> 46 /\ c <> 101 /\ c <> 69
  end.

(** White space only: the gap and the indentation of [JSON.stringify]. *)
Definition blank (s : jstr) : Prop := Forall (fun c => is_jws c = true) s.

(** The text of a member of an object, as [ser] writes it. *)
Definition member_text (gap indent : jstr) (kv : jstr * json) : jstr :=
  let '(k, x) := kv in quote k ++ colon gap ++ ser gap indent x.

(** The fuel the elements of an array, or the members of an object, need. *)
Definition sizes (xs : list json) : nat :=
  fold_right (fun x n => S (size x + n)) 0%nat xs.

(** [parse_value] reads [v] back from its text, written with the gap [gap]
    at any indentation, after any white space and before any text that
    ends a number. *)
Definition reads_back (gap : jstr) (v : json) : Prop :=
  wf v = true -> printable v = true ->
  forall (fuel : nat) (indent ws rest : jstr),
    (size v <= fuel)%nat -> blank indent -> blank ws -> ends_number rest ->
    parse_value fuel (ws ++ ser gap indent v ++ rest) = Some (v, rest).

(** [JSON.parse(s)]: [None] stands for the SyntaxError. *)
Definition JSON_parse (s : jstr) : option json :=
  match parse_value (S (length s)) s with
  | Some (v, r) => if is_nil (skip_jws r) then Some v else None
  | None => None
  end.

End Json.

(* ===================================================================== *)
(** * The JavaScript fragment the adapter relies on *)
(* ===================================================================== *)

Module Js.
Import Str Json.

(** A value that reached the program as JSON (a request body and its
    parts), or [undefined]. *)
Abbreviation jsval := (option json).
Abbreviation undefined := (@None json).

Inductive exn : Type :=
| TypeError (reading : jstr)      (* a property read on null or undefined,
                                     or a call of something not callable *)
| SyntaxError (text : jstr)       (* JSON.parse on a text that is not JSON *)
| ERR_HTTP_HEADERS_SENT.          (* a header set once the headers are sent *)

(** Evaluation that may throw. *)
Inductive result (A : Type) : Type :=
| Ok (a : A)
| Throw (e : exn).
Arguments Ok {A} a.
Arguments Throw {A} e.

Definition bind {A B} (r : result A) (k : A -> result B) : result B :=
  match r with
  | Ok a => k a
  | Throw e => Throw e
  end.

Declare Scope js_scope.
Delimit Scope js_scope with js.
Notation "'let*' x ':=' r 'in' k" := (bind r (fun x => k))
  (at level 10, x name, r at level 100, k at level 200) : js_scope.
Local Open Scope js_scope.

(** [for (const x of xs) acc = f(acc, x)], stopping at the first throw. *)
Fixpoint foldM {A S} (f : S -> A -> result S) (xs : list A) (acc : S) : result S :=
  match xs with
  | [] => Ok acc
  | x :: t => let* acc' := f acc x in foldM f t acc'
  end.

(** [xs.map(f)], stopping at the first throw. *)
Fixpoint mapM {A B} (f : A -> result B) (xs : list A) : result (list B) :=
  match xs with
  | [] => Ok []
  | x :: t => let* y := f x in let* ys := mapM f t in Ok (y :: ys)
  end.

(** ToString.  An array prints its elements separated by commas, null
    elements as the empty string; a number prints as [Number::toString]
    gives it. *)
Fixpoint to_string (v : json) : jstr :=
  match v with
  | JNull => lit "null"
  | JBool true => lit "true"
  | JBool false => lit "false"
  | JNum x => Num.to_string x
  | JStr s => s
  | JArr xs =>
      join [44] (map (fun x => match x with JNull => [] | _ => to_string x end) xs)
  | JObj _ => lit "[object Object]"
  end.

(** A value interpolated in a template literal, or passed to [String]. *)
Definition to_string_val (v : jsval) : jstr :=
  match v with
  | None => lit "undefined"
  | Some x => to_string x
  end.

(** An element of an array in [Array.prototype.join]. *)
Definition join_item (v : jsval) : jstr :=
  match v with
  | None | Some JNull => []
  | Some x => to_string x
  end.

(** ToBoolean *)
Definition truthy (v : jsval) : bool :=
  match v with
  | None | Some JNull => false
  | Some (JBool b) => b
  | Some (JNum x) => negb (Num.is_zero x)
  | Some (JStr s) => negb (is_nil s)
  | Some (JArr _) | Some (JObj _) => true
  end.

Fixpoint assoc {A} (k : jstr) (kvs : list (jstr * A)) : option A :=
  match kvs with
  | [] => None
  | (k', x) :: t => if Str.eqb k' k then Some x else assoc k t
  end.

(** [v.k] for the property names the adapter reads (role, content,
    tool_calls, id, function, name, arguments, type, text, parameters,
    description, tool_call_id, messages, tools, tool_choice, model, user,
    stream): none of them is inherited from a prototype, so the read finds
    an own property of an object, is undefined on any other value, and
    throws on null and undefined. *)
Definition get (v : jsval) (k : string) : result jsval :=
  match v with
  | None | Some JNull => Throw (TypeError (lit k))
  | Some (JObj kvs) => Ok (assoc (lit k) kvs)
  | Some _ => Ok undefined
  end.

(** [v === "s"] *)
Definition is_str (v : jsval) (s : string) : bool :=
  match v with
  | Some (JStr x) => Str.eqb x (lit s)
  | _ => false
  end.

(** [Array.isArray(v) && v.length > 0] *)
Definition nonempty_array (v : jsval) : option (list json) :=
  match v with
  | Some (JArr (x :: xs)) => Some (x :: xs)
  | _ => None
  end.

(** [JSON.parse(v)]: the argument is converted to a string first. *)
Definition JSON_parse_val (v : jsval) : result json :=
  match JSON_parse (to_string_val v) with
  | Some x => Ok x
  | None => Throw (SyntaxError (to_string_val v))
  end.

(** The values of [uuidv4()] and [Date.now()] are inputs of the program:
    [uuidv4 i] and [now i] are the results of the i-th call. *)
Record oracle : Type := { uuidv4 : nat -> jstr; now : nat -> Z }.

(** How many calls were made so far. *)
Record world : Type := { uuid_calls : nat; now_calls : nat }.

Definition world0 : world := {| uuid_calls := 0; now_calls := 0 |}.

Definition next_uuid (O : oracle) (w : world) : jstr * world :=
  (uuidv4 O (uuid_calls w),
   {| uuid_calls := S (uuid_calls w); now_calls := now_calls w |}).

Definition Date_now (O : oracle) (w : world) : Z * world :=
  (now O (now_calls w),
   {| uuid_calls := uuid_calls w; now_calls := S (now_calls w) |}).

(** [Math.floor(Date.now() / 1000)] *)
Definition now_seconds (O : oracle) (w : world) : Z * world :=
  let '(t, w') := Date_now O w in ((t / 1000)%Z, w').

(** [uuidv4().replace(/-/g, "").slice(0, 24)] *)
Definition short_id (O : oracle) (w : world) : jstr * world :=
  let '(u, w') := next_uuid O w in
  (take 24 (List.filter (fun c => negb (c =? 45)) u), w').

End Js.

(* ===================================================================== *)
(** * dist/adapter/tool-protocol.js *)
(* ===================================================================== *)

Module ToolProtocol.
Import Str Json Js.
Local Open Scope js_scope.

Definition OPEN_TAG : jstr := Eval cbv in lit "<tool_call>".
Definition CLOSE_TAG : jstr := Eval cbv in lit "</tool_call>".
Global Arguments OPEN_TAG : simpl never.
Global Arguments CLOSE_TAG : simpl never.

(** [hasTools(request)] *)
Definition hasTools (request : jsval) : result bool :=
  let* tools := get request "tools" in
  match nonempty_array tools with
  | None => Ok false
  | Some _ =>
      let* choice := get request "tool_choice" in
      Ok (negb (is_str choice "none"))
  end.

(** A string between double quotes, inside a literal of the program. *)
Definition q (s : string) : jstr := dquote ++ lit s ++ dquote.

(** The fixed [<tool_call_instructions>] block of [buildToolInstructions]. *)
Definition TOOL_CALL_INSTRUCTIONS : jstr :=
  join nl
    [ lit "<tool_call_instructions>";
      lit "You have access to the tools listed above. When you need to use a tool, output a tool call using the following XML format:";
      [];
      lit "<tool_call>";
      lit "{" ++ q "name" ++ lit ": " ++ q "tool_name" ++ lit ", " ++ q "arguments"
        ++ lit ": {" ++ q "param1" ++ lit ": " ++ q "value1" ++ lit "}}";
      lit "</tool_call>";
      [];
      lit "Rules:";
      lit "- You may make multiple tool calls in a single response by using multiple <tool_call> blocks.";
      lit "- The JSON inside <tool_call> must have " ++ q "name" ++ lit " (string) and "
        ++ q "arguments" ++ lit " (object) fields.";
      lit "- Only call tools that are listed in <tools_available>.";
      lit "- If you don't need to use any tool, respond normally without <tool_call> tags.";
      lit "- When making a tool call, you may include brief text before the tool call(s) to explain your reasoning, but do not include text after the tool call(s).";
      lit "</tool_call_instructions>" ].

(** One [<tool>] element. *)
Definition toolDef (tool : json) : result jstr :=
  let* fn := get (Some tool) "function" in
  let* parameters := get fn "parameters" in
  let params := match parameters with
                | Some p => if truthy parameters then stringify2 p else lit "{}"
                | None => lit "{}"
                end in
  let* name := get fn "name" in
  let* description := get fn "description" in
  Ok (join nl
        [ lit "<tool>";
          lit "<name>" ++ to_string_val name ++ lit "</name>";
          lit "<description>"
            ++ (if truthy description then to_string_val description else [])
            ++ lit "</description>";
          lit "<parameters>" ++ params ++ lit "</parameters>";
          lit "</tool>" ]).

(** [buildToolInstructions(tools)] *)
Definition buildToolInstructions (tools : list json) : result jstr :=
  let* toolDefs := mapM toolDef tools in
  Ok (join nl
        [ lit "<tools_available>";
          join nl toolDefs;
          lit "</tools_available>";
          [];
          TOOL_CALL_INSTRUCTIONS ]).

(** ** The two regular expressions of [parseToolCalls] *)

(** After the opening brace of the body: the lazy [[\s\S]*?] stops at the
    first closing brace that is followed by [\s*</tool_call>].  Returns the
    rest of the captured body and the text after the closing tag. *)
Fixpoint find_close (s : jstr) : option (jstr * jstr) :=
  match s with
  | [] => None
  | c :: t =>
      if (c =? 125) && starts_with CLOSE_TAG (skip_ws t)
      then Some ([c], drop (length CLOSE_TAG) (skip_ws t))
      else cons_fst c (find_close t)
  end.

(** [/<tool_call>\s*(\{[\s\S]*?\})\s*<\/tool_call>/] anchored at the head
    of [s]: the capture and the text after the match. *)
Definition match_call (s : jstr) : option (jstr * jstr) :=
  if starts_with OPEN_TAG s then
    match skip_ws (drop (length OPEN_TAG) s) with
    | c :: t => if c =? 123 then cons_fst c (find_close t) else None
    | [] => None
    end
  else None.

(** [regex.exec(text)] from [lastIndex]: the leftmost match in [s], the
    text from [lastIndex] on. *)
Fixpoint exec (s : jstr) : option (jstr * jstr) :=
  match match_call s with
  | Some r => Some r
  | None => match s with [] => None | _ :: t => exec t end
  end.

(** [/<tool_call>[\s\S]*?<\/tool_call>/] anchored at the head of [s]: the
    text after the match. *)
Definition match_block (s : jstr) : option jstr :=
  if starts_with OPEN_TAG s
  then after_first CLOSE_TAG (drop (length OPEN_TAG) s)
  else None.

(** [s.replace(/<tool_call>[\s\S]*?<\/tool_call>/g, "")]; the fuel is the
    length of the text. *)
Fixpoint strip_blocks (fuel : nat) (s : jstr) : jstr :=
  match fuel with
  | O => s
  | S f =>
      match s with
      | [] => []
      | c :: t =>
          match match_block s with
          | Some rest => strip_blocks f rest
          | None => c :: strip_blocks f t
          end
      end
  end.

(** ** [parseToolCalls] *)

(** An OpenAI tool call; its [type] is always "function".  The id and the
    name are whatever the model wrote, the arguments a string or
    [undefined] ([JSON.stringify(undefined)]). *)
Record tool_call : Type := {
  tc_id : json;
  tc_name : jsval;
  tc_arguments : option jstr
}.

(** The body of the [try] block: [None] when it threw and the [catch]
    skipped the block. *)
Definition call_of_body (O : oracle) (w : world) (body : jstr) : option tool_call * world :=
  match JSON_parse body with
  | None => (None, w)
  | Some parsed =>
      match get (Some parsed) "id" with
      | Throw _ => (None, w)
      | Ok id =>
          let '(id', w') :=
            match id with
            | Some x => if truthy id then (x, w)
                        else let '(u, w1) := short_id O w in (JStr (lit "call_" ++ u), w1)
            | None => let '(u, w1) := short_id O w in (JStr (lit "call_" ++ u), w1)
            end in
          match get (Some parsed) "name", get (Some parsed) "arguments" with
          | Ok name, Ok args =>
              (Some {| tc_id := id'; tc_name := name;
                       tc_arguments := match args with
                                       | Some (JStr s) => Some s
                                       | Some x => Some (stringify x)
                                       | None => None
                                       end |}, w')
          | _, _ => (None, w')
          end
      end
  end.

(** [while ((match = regex.exec(text)) !== null) { ... }]; [s] is the text
    from [lastIndex] on, the fuel is the length of the text. *)
Fixpoint scan_calls (fuel : nat) (O : oracle) (s : jstr) (w : world)
    (toolCalls : list tool_call) : list tool_call * world :=
  match fuel with
  | O => (toolCalls, w)
  | S f =>
      match exec s with
      | None => (toolCalls, w)
      | Some (body, rest) =>
          let '(c, w') := call_of_body O w body in
          scan_calls f O rest w'
            (toolCalls ++ match c with Some x => [x] | None => [] end)
      end
  end.

Record parsed_calls : Type := {
  toolCalls : list tool_call;
  textContent : option jstr      (* [None] is null *)
}.

Definition or_null (s : jstr) : option jstr :=
  if is_nil s then None else Some s.

Definition parseToolCalls (O : oracle) (w : world) (text : jstr) : parsed_calls * world :=
  let '(calls, w') := scan_calls (S (length text)) O text w [] in
  ({| toolCalls := calls;
      textContent := or_null (trim (strip_blocks (S (length text)) text)) |}, w').

(** [formatToolResults(toolMessages)] *)
Definition toolResult (msg : json) : result jstr :=
  let* content := get (Some msg) "content" in
  let text := match content with
              | Some (JStr s) => s
              | Some x => stringify x
              | None => lit "undefined"
              end in
  let* id := get (Some msg) "tool_call_id" in
  Ok (join nl
        [ lit "<tool_result>";
          lit "<tool_call_id>"
            ++ (if truthy id then to_string_val id else lit "unknown")
            ++ lit "</tool_call_id>";
          lit "<output>" ++ text ++ lit "</output>";
          lit "</tool_result>" ]).

Definition formatToolResults (toolMessages : list json) : result jstr :=
  let* results := mapM toolResult toolMessages in
  Ok (lit "<tool_results>" ++ nl ++ join nl results ++ nl ++ lit "</tool_results>").

End ToolProtocol.

(* ===================================================================== *)
(** * dist/adapter/openai-to-cli.js *)
(* ===================================================================== *)

Module OpenaiToCli.
Import Str Json Js ToolProtocol.
Local Open Scope js_scope.

Inductive ClaudeModel : Type := opus | sonnet | haiku.

Definition MODEL_MAP : list (jstr * ClaudeModel) :=
  [ (lit "claude-opus-4", opus);
    (lit "claude-opus-4-6", opus);
    (lit "claude-sonnet-4", sonnet);
    (lit "claude-sonnet-4-5", sonnet);
    (lit "claude-haiku-4", haiku);
    (lit "claude-code-cli/claude-opus-4", opus);
    (lit "claude-code-cli/claude-opus-4-6", opus);
    (lit "claude-code-cli/claude-sonnet-4", sonnet);
    (lit "claude-code-cli/claude-haiku-4", haiku);
    (lit "openai/claude-opus-4", opus);
    (lit "openai/claude-opus-4-6", opus);
    (lit "openai/claude-sonnet-4", sonnet);
    (lit "openai/claude-sonnet-4-5", sonnet);
    (lit "openai/claude-haiku-4", haiku);
    (lit "opus", opus);
    (lit "sonnet", sonnet);
    (lit "haiku", haiku) ].

(** [MODEL_MAP] is an object literal: a read [MODEL_MAP[k]] that misses the
    table continues in [Object.prototype], whose members are functions (and,
    for [__proto__], an object), all of them truthy. *)
Definition OBJECT_PROTOTYPE : list jstr :=
  map lit
    [ "constructor"; "__defineGetter__"; "__defineSetter__"; "hasOwnProperty";
      "__lookupGetter__"; "__lookupSetter__"; "isPrototypeOf";
      "propertyIsEnumerable"; "toString"; "valueOf"; "__proto__";
      "toLocaleString" ]%string.

(** What [extractModel] returns: an alias of the table, or the inherited
    member it found under that name. *)
Inductive model_value : Type :=
| Alias (a : ClaudeModel)
| Inherited (name : jstr).

Definition inherited (k : jstr) : bool := existsb (Str.eqb k) OBJECT_PROTOTYPE.

(** [MODEL_MAP[k]], when it is truthy. *)
Definition MODEL_MAP_get (k : jstr) : option model_value :=
  match assoc k MODEL_MAP with
  | Some a => Some (Alias a)
  | None => if inherited k then Some (Inherited k) else None
  end.

(** [model.replace(/^(claude-code-cli|openai)\//, "")] *)
Definition strip_provider (model : jstr) : jstr :=
  if starts_with (lit "claude-code-cli/") model then drop 16 model
  else if starts_with (lit "openai/") model then drop 7 model
  else model.

(** [extractModel(model)].  The declared parameter is a string; the value
    is [request.model], so the other cases are given as JavaScript runs
    them: the key of the first read is the value converted to a string, and
    [model.replace] throws on what is not a string. *)
Definition extractModel (model : jsval) : result model_value :=
  match MODEL_MAP_get (to_string_val model) with
  | Some v => Ok v
  | None =>
      match model with
      | Some (JStr s) =>
          match MODEL_MAP_get (strip_provider s) with
          | Some v => Ok v
          | None => Ok (Alias opus)
          end
      | _ => Throw (TypeError (lit "replace"))
      end
  end.

(** [extractText(content)].  On an object the function returns
    [content.text] itself when it is truthy; every caller converts the
    result to a string (template literal, [+] or [join]), which is done
    here. *)
Definition extractText (content : jsval) : result jstr :=
  match content with
  | Some (JStr s) => Ok s
  | Some (JArr parts) =>
      let* kept := foldM (fun acc part =>
                            let* ty := get (Some part) "type" in
                            Ok (if is_str ty "text" then acc ++ [part] else acc))
                         parts [] in
      let* texts := mapM (fun part => get (Some part) "text") kept in
      Ok (join nl (map join_item texts))
  | Some (JObj kvs) =>
      let text := assoc (lit "text") kvs in
      Ok (if truthy text then to_string_val text else stringify (JObj kvs))
  | other => Ok (to_string_val other)
  end.

(** One [<tool_call>] block of an assistant turn. *)
Definition lowerToolCall (tc : json) : result jstr :=
  let* id := get (Some tc) "id" in
  let* fn := get (Some tc) "function" in
  let* name := get fn "name" in
  let* args := get fn "arguments" in
  let* arguments := JSON_parse_val args in
  let members :=
    match id with Some x => [(lit "id", x)] | None => [] end
    ++ match name with Some x => [(lit "name", x)] | None => [] end
    ++ [(lit "arguments", arguments)] in
  Ok (lit "<tool_call>" ++ nl ++ stringify2 (JObj members) ++ nl
      ++ lit "</tool_call>" ++ nl).

(** [case "assistant"] *)
Definition lowerAssistant (msg : json) : result jstr :=
  let* tool_calls := get (Some msg) "tool_calls" in
  let* content := get (Some msg) "content" in
  match nonempty_array tool_calls with
  | Some calls =>
      let* leading := if truthy content
                      then (let* text := extractText content in Ok (text ++ nl))
                      else Ok [] in
      let* assistantText :=
        foldM (fun acc tc => let* block := lowerToolCall tc in Ok (acc ++ block))
              calls leading in
      Ok (lit "<previous_response>" ++ nl ++ trim assistantText ++ nl
          ++ lit "</previous_response>" ++ nl)
  | None =>
      let* text := extractText content in
      Ok (lit "<previous_response>" ++ nl ++ text ++ nl
          ++ lit "</previous_response>" ++ nl)
  end.

(** The inner [while] of [case "tool"]: the following messages whose role
    is "tool", and the messages after them. *)
Fixpoint takeTools (ms : list json) : result (list json * list json) :=
  match ms with
  | [] => Ok ([], [])
  | m :: t =>
      let* role := get (Some m) "role" in
      if is_str role "tool"
      then let* r := takeTools t in Ok (m :: fst r, snd r)
      else Ok ([], ms)
  end.

(** The [for] loop of [messagesToPrompt] over the messages from index [i]
    on; the fuel is the number of messages. *)
Fixpoint flatten (fuel : nat) (messages : list json) (parts : list jstr)
    : result (list jstr) :=
  match fuel with
  | O => Ok parts
  | S f =>
      match messages with
      | [] => Ok parts
      | msg :: rest =>
          let* role := get (Some msg) "role" in
          if is_str role "system" then
            let* content := get (Some msg) "content" in
            let* text := extractText content in
            flatten f rest
              (parts ++ [lit "<system>" ++ nl ++ text ++ nl ++ lit "</system>" ++ nl])
          else if is_str role "user" then
            let* content := get (Some msg) "content" in
            let* text := extractText content in
            flatten f rest (parts ++ [text])
          else if is_str role "assistant" then
            let* block := lowerAssistant msg in
            flatten f rest (parts ++ [block])
          else if is_str role "tool" then
            let* r := takeTools rest in
            let* block := formatToolResults (msg :: fst r) in
            flatten f (snd r) (parts ++ [block])
          else flatten f rest parts
      end
  end.

(** [messagesToPrompt(messages, tools)]; [tools] is an array or null. *)
Definition messagesToPrompt (messages : list json) (tools : option (list json))
    : result jstr :=
  let* parts := match tools with
                | Some (t :: ts) =>
                    let* i := buildToolInstructions (t :: ts) in Ok [i]
                | _ => Ok []
                end in
  let* parts := flatten (length messages) messages parts in
  Ok (trim (join nl parts)).

Record CliInput : Type := {
  prompt : jstr;
  model : model_value;
  sessionId : jsval;
  cli_hasTools : bool
}.

(** [openaiToCli(request)].  The route handler calls it once
    [request.messages] is known to be an array; the last case is not
    reached from there. *)
Definition openaiToCli (request : jsval) : result CliInput :=
  let* has := hasTools request in
  let* tools := if has
                then (let* t := get request "tools" in Ok (nonempty_array t))
                else Ok None in
  let* messages := get request "messages" in
  match messages with
  | Some (JArr ms) =>
      let* p := messagesToPrompt ms tools in
      let* m := get request "model" in
      let* a := extractModel m in
      let* user := get request "user" in
      Ok {| prompt := p; model := a; sessionId := user;
            cli_hasTools := match tools with Some _ => true | None => false end |}
  | _ => Throw (TypeError (lit "length"))
  end.

End OpenaiToCli.

(* ===================================================================== *)
(** * dist/adapter/cli-to-openai.js *)
(* ===================================================================== *)

Module CliToOpenai.
Import Str Json Js ToolProtocol.
Local Open Scope js_scope.

(** The terminal event of the CLI (dist/types/claude-cli.d.ts), with the
    fields the adapter reads: the result text, the token counts of [usage]
    and the keys of [modelUsage]. *)
Record ClaudeCliResult : Type := {
  cr_result : jstr;
  cr_usage : option (Z * Z);            (* input_tokens, output_tokens *)
  cr_modelUsage : option (list jstr)
}.

Record message : Type := {
  m_content : option jstr;              (* [None] is null *)
  m_tool_calls : option (list tool_call)
}.

(** A [chat.completion] body; the role of its message is "assistant". *)
Record completion : Type := {
  c_id : jstr;
  c_created : Z;
  c_model : jstr;
  c_message : message;
  c_finish_reason : jstr;
  c_usage : Z * Z * Z                   (* prompt, completion, total *)
}.

Record delta : Type := {
  d_role : option jstr;
  d_content : option jstr;
  d_tool_calls : option (list (nat * tool_call))   (* index and call *)
}.

(** A [chat.completion.chunk]. *)
Record chunk : Type := {
  k_id : jstr;
  k_created : Z;
  k_model : jstr;
  k_delta : delta;
  k_finish_reason : option jstr         (* [None] is null *)
}.

Definition empty_delta : delta :=
  {| d_role := None; d_content := None; d_tool_calls := None |}.

(** [normalizeModelName(model)] *)
Definition normalizeModelName (model : jstr) : jstr :=
  if includes (lit "opus") model then lit "claude-opus-4"
  else if includes (lit "sonnet") model then lit "claude-sonnet-4"
  else if includes (lit "haiku") model then lit "claude-haiku-4"
  else model.

(** [result.modelUsage ? Object.keys(result.modelUsage)[0] : "claude-sonnet-4"] *)
Definition modelNameOf (r : ClaudeCliResult) : option jstr :=
  match cr_modelUsage r with
  | Some keys => head keys
  | None => Some (lit "claude-sonnet-4")
  end.

(** [normalizeModelName] on that name: [undefined.includes] throws. *)
Definition normalizedModelOf (r : ClaudeCliResult) : result jstr :=
  match modelNameOf r with
  | Some name => Ok (normalizeModelName name)
  | None => Throw (TypeError (lit "includes"))
  end.

Definition usageOf (r : ClaudeCliResult) : Z * Z * Z :=
  match cr_usage r with
  | Some (i, o) => (i, o, i + o)%Z
  | None => (0, 0, 0)%Z
  end.

Definition chatcmpl (requestId : jstr) : jstr := lit "chatcmpl-" ++ requestId.

(** [createDoneChunk(requestId, model)] *)
Definition createDoneChunk (O : oracle) (w : world) (requestId model : jstr)
    : chunk * world :=
  let '(t, w') := now_seconds O w in
  ({| k_id := chatcmpl requestId; k_created := t;
      k_model := normalizeModelName model;
      k_delta := empty_delta; k_finish_reason := Some (lit "stop") |}, w').

(** [cliResultToOpenai(result, requestId)] *)
Definition cliResultToOpenai (O : oracle) (w : world) (r : ClaudeCliResult)
    (requestId : jstr) : result (completion * world) :=
  let '(t, w') := now_seconds O w in
  let* m := normalizedModelOf r in
  Ok ({| c_id := chatcmpl requestId; c_created := t; c_model := m;
         c_message := {| m_content := Some (cr_result r); m_tool_calls := None |};
         c_finish_reason := lit "stop";
         c_usage := usageOf r |}, w').

(** [cliResultToOpenaiWithTools(result, requestId)] *)
Definition cliResultToOpenaiWithTools (O : oracle) (w : world) (r : ClaudeCliResult)
    (requestId : jstr) : result (completion * world) :=
  let '(p, w1) := parseToolCalls O w (cr_result r) in
  match toolCalls p with
  | _ :: _ =>
      let '(t, w2) := now_seconds O w1 in
      let* m := normalizedModelOf r in
      Ok ({| c_id := chatcmpl requestId; c_created := t; c_model := m;
             c_message := {| m_content := textContent p;
                             m_tool_calls := Some (toolCalls p) |};
             c_finish_reason := lit "tool_calls";
             c_usage := usageOf r |}, w2)
  | [] => cliResultToOpenai O w1 r requestId
  end.

(** The truthiness of [textContent], a string or null: [if (textContent)]. *)
Definition has_text (textContent : option jstr) : bool :=
  match textContent with
  | Some (_ :: _) => true
  | Some [] | None => false
  end.

(** The chunks of the tool calls, [toolCalls[i]] for [i] from [i0] on; the role
    is [i === 0 && !textContent ? "assistant" : undefined]. *)
Fixpoint toolCallChunks (requestId model : jstr) (t : Z) (textContent : option jstr)
    (i0 : nat) (calls : list tool_call) : list chunk :=
  match calls with
  | [] => []
  | tc :: rest =>
      {| k_id := chatcmpl requestId; k_created := t; k_model := model;
         k_delta := {| d_role := match i0 with
                                 | O => if has_text textContent then None
                                        else Some (lit "assistant")
                                 | S _ => None
                                 end;
                       d_content := None;
                       d_tool_calls := Some [(i0, tc)] |};
         k_finish_reason := None |}
      :: toolCallChunks requestId model t textContent (S i0) rest
  end.

(** [buildToolCallChunks(toolCalls, textContent, requestId, model)];
    [textContent] is a string or null, and the first chunk is pushed when it
    is truthy: a non-empty string. *)
Definition buildToolCallChunks (O : oracle) (w : world) (calls : list tool_call)
    (textContent : option jstr) (requestId model : jstr) : list chunk * world :=
  let '(t, w') := now_seconds O w in
  let normalizedModel := normalizeModelName model in
  ((if has_text textContent then
      [ {| k_id := chatcmpl requestId; k_created := t; k_model := normalizedModel;
           k_delta := {| d_role := Some (lit "assistant"); d_content := textContent;
                         d_tool_calls := None |};
           k_finish_reason := None |} ]
    else [])
   ++ toolCallChunks requestId normalizedModel t textContent 0 calls
   ++ [ {| k_id := chatcmpl requestId; k_created := t; k_model := normalizedModel;
           k_delta := empty_delta;
           k_finish_reason := Some (lit "tool_calls") |} ], w').

End CliToOpenai.

(* ===================================================================== *)
(** * dist/subprocess/manager.js: the life cycle of [ClaudeSubprocess] *)
(* ===================================================================== *)

Module Subprocess.
Import Str.

Inductive signal : Type := SIGTERM | SIGKILL | SIGINT | SIGHUP.

Inductive emitted : Type :=
| emit_error (timeout : Z)      (* "Request timed out after <timeout>ms" *)
| emit_close (code : option Z).

(** The fields of the driver, and what it did to the outside: the signals
    passed to [process.kill], the events emitted, and whether the timer
    that [timeoutId] names is still armed in the runtime. *)
Record driver : Type := {
  process : bool;                (* [false] is null *)
  isKilled : bool;
  timeoutId : bool;              (* [false] is null *)
  timerArmed : bool;
  timeout : Z;
  signals : list signal;
  events : list emitted
}.

Definition DEFAULT_TIMEOUT : Z := 300000.

(** [new ClaudeSubprocess()] *)
Definition new : driver :=
  {| process := false; isKilled := false; timeoutId := false; timerArmed := false;
     timeout := DEFAULT_TIMEOUT; signals := []; events := [] |}.

(** [start(prompt, options)] when [spawn] returns a process:
    [options.timeout || DEFAULT_TIMEOUT], the process handle and the timer. *)
Definition start (d : driver) (opt_timeout : option Z) : driver :=
  {| process := true; isKilled := isKilled d; timeoutId := true; timerArmed := true;
     timeout := match opt_timeout with
                | Some t => if (t =? 0)%Z then DEFAULT_TIMEOUT else t
                | None => DEFAULT_TIMEOUT
                end;
     signals := signals d; events := events d |}.

(** [this.clearTimeout()] *)
Definition clearTimeout (d : driver) : driver :=
  if timeoutId d
  then {| process := process d; isKilled := isKilled d; timeoutId := false;
          timerArmed := false; timeout := timeout d;
          signals := signals d; events := events d |}
  else d.

(** [this.process.kill(signal)] *)
Definition send (s : signal) (d : driver) : driver :=
  {| process := process d; isKilled := isKilled d; timeoutId := timeoutId d;
     timerArmed := timerArmed d; timeout := timeout d;
     signals := signals d ++ [s]; events := events d |}.

Definition emit (e : emitted) (d : driver) : driver :=
  {| process := process d; isKilled := isKilled d; timeoutId := timeoutId d;
     timerArmed := timerArmed d; timeout := timeout d;
     signals := signals d; events := events d ++ [e] |}.

Definition set_killed (d : driver) : driver :=
  {| process := process d; isKilled := true; timeoutId := timeoutId d;
     timerArmed := timerArmed d; timeout := timeout d;
     signals := signals d; events := events d |}.

Definition disarm (d : driver) : driver :=
  {| process := process d; isKilled := isKilled d; timeoutId := timeoutId d;
     timerArmed := false; timeout := timeout d;
     signals := signals d; events := events d |}.

(** [kill(signal = "SIGTERM")] *)
Definition kill (sig : option signal) (d : driver) : driver :=
  if negb (isKilled d) && process d
  then send (match sig with Some s => s | None => SIGTERM end)
            (clearTimeout (set_killed d))
  else d.

(** The timer expires: the runtime runs the callback of [setTimeout] once,
    and only while the timer is armed. *)
Definition expire (d : driver) : driver :=
  if timerArmed d then
    let d1 := disarm d in
    if negb (isKilled d1)
    then emit (emit_error (timeout d1))
              ((if process d1 then send SIGTERM else fun x => x) (set_killed d1))
    else d1
  else d.

(** The ["close"] listener of the child process. *)
Definition on_close (code : option Z) (d : driver) : driver :=
  emit (emit_close code) (clearTimeout d).

(** What can happen to a started driver from the outside. *)
Inductive op : Type :=
| op_kill (sig : option signal)
| op_expire
| op_close (code : option Z).

Definition step (d : driver) (o : op) : driver :=
  match o with
  | op_kill sig => kill sig d
  | op_expire => expire d
  | op_close code => on_close code d
  end.

Definition run (d : driver) (ops : list op) : driver := fold_left step ops d.

(** [isRunning()], for a process that has not exited. *)
Definition isRunning (d : driver) : bool := process d && negb (isKilled d).

(** A kill or a timer expiry, as opposed to the exit of the process. *)
Definition terminating (o : op) : Prop :=
  match o with
  | op_close _ => False
  | _ => True
  end.

(** A [kill()] without argument, or a timer expiry. *)
Definition default_signal (o : op) : Prop :=
  match o with
  | op_kill None | op_expire => True
  | _ => False
  end.

(** A started driver that was neither killed nor timed out; an armed timer
    is the one [timeoutId] names. *)
Definition live (d : driver) : Prop :=
  process d = true /\ isKilled d = false /\ signals d = [] /\
  (timeoutId d = false -> timerArmed d = false).

(** A driver that was terminated: one signal went out, the timer is off. *)
Definition terminated (d : driver) : Prop :=
  process d = true /\ isKilled d = true /\ timerArmed d = false /\
  length (signals d) = 1%nat.

End Subprocess.

(* ===================================================================== *)
(** * dist/session/manager.js *)
(* ===================================================================== *)

Module Session.
Import Str Js.

Record SessionMapping : Type := {
  clawdbotId : jstr;
  claudeSessionId : jstr;
  createdAt : Z;
  lastUsedAt : Z;
  model : jstr
}.

(** The manager: the map of sessions, and the number of [save()] calls it
    started (the file itself is outside the model). *)
Record SessionManager : Type := {
  sessions : gmap jstr SessionMapping;
  loaded : bool;
  saves : nat
}.

Definition empty : SessionManager :=
  {| sessions := ∅; loaded := false; saves := 0 |}.

(** [getOrCreate(clawdbotId, model = "sonnet")]: the session id returned,
    the manager and the world afterwards. *)
Definition getOrCreate (O : oracle) (w : world) (mgr : SessionManager)
    (id : jstr) (model_arg : option jstr) : jstr * SessionManager * world :=
  let model := match model_arg with Some m => m | None => lit "sonnet" end in
  match sessions mgr !! id with
  | Some existing =>
      let '(t, w1) := Date_now O w in
      (claudeSessionId existing,
       {| sessions := <[id := {| clawdbotId := clawdbotId existing;
                                 claudeSessionId := claudeSessionId existing;
                                 createdAt := createdAt existing;
                                 lastUsedAt := t;
                                 model := model |}]> (sessions mgr);
          loaded := loaded mgr; saves := saves mgr |}, w1)
  | None =>
      let '(sid, w1) := next_uuid O w in
      let '(t1, w2) := Date_now O w1 in
      let '(t2, w3) := Date_now O w2 in
      (sid,
       {| sessions := <[id := {| clawdbotId := id; claudeSessionId := sid;
                                 createdAt := t1; lastUsedAt := t2;
                                 model := model |}]> (sessions mgr);
          loaded := loaded mgr; saves := S (saves mgr) |}, w3)
  end.

(** [get(clawdbotId)] *)
Definition get (mgr : SessionManager) (id : jstr) : option SessionMapping :=
  sessions mgr !! id.

(** Successive [getOrCreate(id, m)] calls, one per element of [models]:
    the session id each call returns and the [lastUsedAt] stored for [id]
    after it. *)
Fixpoint getOrCreate_each (O : oracle) (w : world) (mgr : SessionManager)
    (id : jstr) (models : list (option jstr)) : list (jstr * option Z) :=
  match models with
  | [] => []
  | m :: rest =>
      let '(sid, mgr', w') := getOrCreate O w mgr id m in
      (sid, lastUsedAt <$> get mgr' id) :: getOrCreate_each O w' mgr' id rest
  end.

(** The clock never goes back. *)
Definition monotone_clock (O : oracle) : Prop :=
  forall i j : nat, (i <= j)%nat -> (now O i <= now O j)%Z.

End Session.

(* ===================================================================== *)
(** * dist/server/routes.js *)
(* ===================================================================== *)

Module Routes.
Import Str Json Js ToolProtocol OpenaiToCli CliToOpenai.

(** ** The response object *)

(** The [message] of an error envelope: a text of the program, or the
    message of the exception caught. *)
Inductive err_message : Type :=
| Text (s : jstr)
| MessageOf (e : exn).

Inductive body : Type :=
| Completion (c : completion)
| ErrorEnvelope (message : err_message) (type : jstr) (code : option jstr).

Definition server_error (m : err_message) : body :=
  ErrorEnvelope m (lit "server_error") None.

(** The frames of the event stream: [":ok\n\n"], ["data: <chunk>\n\n"],
    ["data: <error envelope>\n\n"] and ["data: [DONE]\n\n"]. *)
Inductive frame : Type :=
| frame_ok
| frame_chunk (c : chunk)
| frame_error (b : body)
| frame_done.

(** The calls that took effect on [res], in order.  [call_json st b] is
    [res.status(st).json(b)]; [res.json(b)] has status 200. *)
Inductive res_call : Type :=
| call_setHeader (k v : jstr)
| call_flushHeaders
| call_write (f : frame)
| call_end
| call_json (status : N) (b : body).

Definition sends (c : res_call) : bool :=
  match c with call_setHeader _ _ => false | _ => true end.

Definition ends (c : res_call) : bool :=
  match c with call_end | call_json _ _ => true | _ => false end.

(** [res.headersSent] and [res.writableEnded] *)
Definition headersSent (res : list res_call) : bool := existsb sends res.
Definition writableEnded (res : list res_call) : bool := existsb ends res.

(** The JSON bodies written. *)
Definition bodies (res : list res_call) : list (N * body) :=
  flat_map (fun c => match c with call_json st b => [(st, b)] | _ => [] end) res.

(** The chunks written, and the finish reasons the response carries: those
    of the chunks that have one, and those of the JSON bodies. *)
Definition chunks_written (res : list res_call) : list chunk :=
  flat_map (fun c => match c with call_write (frame_chunk k) => [k] | _ => [] end) res.

Definition completions (res : list res_call) : list completion :=
  flat_map (fun c => match c with call_json _ (Completion k) => [k] | _ => [] end) res.

Definition finish_reasons (res : list res_call) : list jstr :=
  flat_map (fun k => match k_finish_reason k with Some f => [f] | None => [] end)
           (chunks_written res)
  ++ map c_finish_reason (completions res).

(** ** The state of a request handler *)

(** The variables the listeners of a handler close over, the response, the
    number of [subprocess.kill()] calls made, and the world. *)
Record handler : Type := {
  bufferedText : jstr;
  lastModel : jstr;
  finalResult : option ClaudeCliResult;
  isComplete : bool;
  res : list res_call;
  kills : nat;
  world_ : world
}.

Definition init (w : world) : handler :=
  {| bufferedText := []; lastModel := lit "claude-sonnet-4"; finalResult := None;
     isComplete := false; res := []; kills := 0; world_ := w |}.

Definition set_bufferedText (x : jstr) (h : handler) : handler :=
  {| bufferedText := x; lastModel := lastModel h; finalResult := finalResult h;
     isComplete := isComplete h; res := res h; kills := kills h; world_ := world_ h |}.
Definition set_lastModel (x : jstr) (h : handler) : handler :=
  {| bufferedText := bufferedText h; lastModel := x; finalResult := finalResult h;
     isComplete := isComplete h; res := res h; kills := kills h; world_ := world_ h |}.
Definition set_finalResult (x : ClaudeCliResult) (h : handler) : handler :=
  {| bufferedText := bufferedText h; lastModel := lastModel h; finalResult := Some x;
     isComplete := isComplete h; res := res h; kills := kills h; world_ := world_ h |}.
Definition set_isComplete (h : handler) : handler :=
  {| bufferedText := bufferedText h; lastModel := lastModel h;
     finalResult := finalResult h; isComplete := true; res := res h;
     kills := kills h; world_ := world_ h |}.
Definition push (c : res_call) (h : handler) : handler :=
  {| bufferedText := bufferedText h; lastModel := lastModel h;
     finalResult := finalResult h; isComplete := isComplete h;
     res := res h ++ [c]; kills := kills h; world_ := world_ h |}.
Definition subprocess_kill (h : handler) : handler :=
  {| bufferedText := bufferedText h; lastModel := lastModel h;
     finalResult := finalResult h; isComplete := isComplete h; res := res h;
     kills := S (kills h); world_ := world_ h |}.
Definition set_world (w : world) (h : handler) : handler :=
  {| bufferedText := bufferedText h; lastModel := lastModel h;
     finalResult := finalResult h; isComplete := isComplete h; res := res h;
     kills := kills h; world_ := w |}.

(** The body of a listener: it updates the state and may throw. *)
Definition L (A : Type) : Type := handler -> handler * result A.

Definition ret {A} (a : A) : L A := fun h => (h, Ok a).
Definition bindL {A B} (m : L A) (k : A -> L B) : L B :=
  fun h => match m h with
           | (h', Ok a) => k a h'
           | (h', Throw e) => (h', Throw e)
           end.
Definition modify (f : handler -> handler) : L unit := fun h => (f h, Ok tt).
Definition gets {A} (f : handler -> A) : L A := fun h => (h, Ok (f h)).
Definition throwing {A} (f : world -> result (A * world)) : L A :=
  fun h => match f (world_ h) with
           | Ok (a, w) => (set_world w h, Ok a)
           | Throw e => (h, Throw e)
           end.
Definition effect {A} (f : world -> A * world) : L A :=
  fun h => let '(a, w) := f (world_ h) in (set_world w h, Ok a).

Declare Scope listener_scope.
Delimit Scope listener_scope with L.
Notation "'letL' x ':=' m 'in' k" := (bindL m (fun x => k))
  (at level 10, x name, m at level 100, k at level 200) : listener_scope.
Notation "'doL' m 'in' k" := (bindL m (fun _ => k))
  (at level 10, m at level 100, k at level 200) : listener_scope.
Local Open Scope listener_scope.

Definition when (b : bool) (m : L unit) : L unit := if b then m else ret tt.

(** [res.setHeader(k, v)] and [res.json(b)] throw once the headers are
    sent; the other calls do not. *)
Definition res_setHeader (k : string) (v : jstr) : L unit :=
  fun h => if headersSent (res h) then (h, Throw ERR_HTTP_HEADERS_SENT)
           else (push (call_setHeader (lit k) v) h, Ok tt).
Definition res_json (status : N) (b : body) : L unit :=
  fun h => if headersSent (res h) then (h, Throw ERR_HTTP_HEADERS_SENT)
           else (push (call_json status b) h, Ok tt).
Definition res_flushHeaders : L unit := modify (push call_flushHeaders).
Definition res_write (f : frame) : L unit := modify (push (call_write f)).
Definition res_end : L unit := modify (push call_end).

(** [if (!res.writableEnded) res.write(...)] *)
Definition write_if_open (f : frame) : L unit :=
  letL ended := gets (fun h => writableEnded (res h)) in
  when (negb ended) (res_write f).

(** The events a handler listens to: those of the subprocess driver, with
    the fields the listeners read, and the ["close"] event of the response. *)
Inductive event : Type :=
| content_delta (text : option jstr)     (* event.event.delta?.text *)
| assistant (model : jstr)               (* message.message.model *)
| result_event (r : ClaudeCliResult)
| error (message : jstr)
| close (code : option Z)
| res_close.

(** [`... code ${code} ...`] *)
Definition code_str (code : option Z) : jstr :=
  match code with Some c => of_Z c | None => lit "null" end.

Definition exited_without_response (code : option Z) : body :=
  server_error (Text (lit "Claude CLI exited with code " ++ code_str code
                      ++ lit " without response")).

(** ** [handleNonStreamingResponse] *)

(** The listeners of [handleNonStreamingResponse], by event. *)
Definition nonStreaming (O : oracle) (requestId : jstr) (ev : event) : L unit :=
  match ev with
  | result_event r => modify (set_finalResult r)
  | error message => res_json 500 (server_error (Text message))
  | close code =>
      letL final := gets finalResult in
      match final with
      | Some r =>
          letL c := throwing (fun w => cliResultToOpenai O w r requestId) in
          res_json 200 (Completion c)
      | None =>
          letL sent := gets (fun h => headersSent (res h)) in
          when (negb sent) (res_json 500 (exited_without_response code))
      end
  | _ => ret tt
  end.

(** ** [handleToolAwareResponse] *)

(** [finalResult?.result || bufferedText] *)
Definition responseTextOf (final : option ClaudeCliResult) (buffered : jstr) : jstr :=
  match final with
  | Some r => if is_nil (cr_result r) then buffered else cr_result r
  | None => buffered
  end.

Fixpoint write_all (chunks : list chunk) : L unit :=
  match chunks with
  | [] => ret tt
  | c :: rest => doL write_if_open (frame_chunk c) in write_all rest
  end.

(** The SSE branch of the ["close"] listener. *)
Definition replayStream (O : oracle) (requestId : jstr) (p : parsed_calls)
    (responseText : jstr) : L unit :=
  doL res_setHeader "Content-Type" (lit "text/event-stream") in
  doL res_setHeader "Cache-Control" (lit "no-cache") in
  doL res_setHeader "Connection" (lit "keep-alive") in
  doL res_setHeader "X-Request-Id" requestId in
  doL res_flushHeaders in
  doL res_write frame_ok in
  letL last := gets lastModel in
  doL
    match toolCalls p with
    | _ :: _ =>
        letL chunks := effect (fun w => buildToolCallChunks O w (toolCalls p)
                                          (textContent p) requestId last) in
        write_all chunks
    | [] =>
        letL t := effect (now_seconds O) in
        doL write_if_open
          (frame_chunk
             {| k_id := chatcmpl requestId; k_created := t; k_model := last;
                k_delta := {| d_role := Some (lit "assistant");
                              d_content := Some responseText;
                              d_tool_calls := None |};
                k_finish_reason := None |}) in
        letL doneChunk := effect (fun w => createDoneChunk O w requestId last) in
        write_if_open (frame_chunk doneChunk)
    end in
  letL ended := gets (fun h => writableEnded (res h)) in
  when (negb ended) (doL res_write frame_done in res_end).

(** The JSON branch of the ["close"] listener. *)
Definition replayJson (O : oracle) (requestId : jstr) (p : parsed_calls)
    (responseText : jstr) : L unit :=
  letL final := gets finalResult in
  match final with
  | Some r =>
      letL c := throwing (fun w => cliResultToOpenaiWithTools O w r requestId) in
      res_json 200 (Completion c)
  | None =>
      letL t := effect (now_seconds O) in
      letL last := gets lastModel in
      match toolCalls p with
      | _ :: _ =>
          res_json 200
            (Completion
               {| c_id := chatcmpl requestId; c_created := t; c_model := last;
                  c_message := {| m_content := textContent p;
                                  m_tool_calls := Some (toolCalls p) |};
                  c_finish_reason := lit "tool_calls";
                  c_usage := (0, 0, 0)%Z |})
      | [] =>
          res_json 200
            (Completion
               {| c_id := chatcmpl requestId; c_created := t; c_model := last;
                  c_message := {| m_content := Some responseText;
                                  m_tool_calls := None |};
                  c_finish_reason := lit "stop";
                  c_usage := (0, 0, 0)%Z |})
      end
  end.

(** The listeners of [handleToolAwareResponse], by event. *)
Definition toolAware (O : oracle) (requestId : jstr) (stream : bool) (ev : event)
    : L unit :=
  match ev with
  | res_close =>
      letL complete := gets isComplete in
      when (negb complete) (modify subprocess_kill)
  | content_delta text =>
      match text with
      | Some (c :: t) => letL buf := gets bufferedText in
                         modify (set_bufferedText (buf ++ c :: t))
      | _ => ret tt
      end
  | assistant model => modify (set_lastModel model)
  | result_event r => modify (set_finalResult r)
  | error message =>
      doL modify set_isComplete in
      letL sent := gets (fun h => headersSent (res h)) in
      when (negb sent) (res_json 500 (server_error (Text message)))
  | close code =>
      doL modify set_isComplete in
      letL final := gets finalResult in
      letL buffered := gets bufferedText in
      let responseText := responseTextOf final buffered in
      letL sent := gets (fun h => headersSent (res h)) in
      if is_nil responseText && negb sent
      then res_json 500 (exited_without_response code)
      else
        letL p := effect (fun w => parseToolCalls O w responseText) in
        if stream then replayStream O requestId p responseText
        else replayJson O requestId p responseText
  end.

(** ** Delivery of the events *)

(** An event is delivered to the listener; an exception that escapes the
    listener is uncaught and ends the process, so nothing is delivered
    after it. *)
Definition deliver (listener : event -> L unit) (st : handler * option exn)
    (ev : event) : handler * option exn :=
  match st with
  | (h, Some e) => (h, Some e)
  | (h, None) =>
      match listener ev h with
      | (h', Ok _) => (h', None)
      | (h', Throw e) => (h', Some e)
      end
  end.

Definition run (listener : event -> L unit) (h : handler) (evs : list event)
    : handler * option exn :=
  fold_left (deliver listener) evs (h, None).

(** ** [handleChatCompletions] *)

Inductive mode : Type :=
| NonStreaming
| PassThrough
| BufferedReplay (stream : bool).

(** What [handleChatCompletions] does with a request body before any
    subprocess event: it answers itself, hands the request to one of the
    three handlers, or fails before its [try] block. *)
Inductive outcome : Type :=
| Responded (status : N) (b : body)
| Dispatched (m : mode) (cliInput : CliInput) (requestId : jstr)
| Rejected (e : exn).

Definition invalid_messages : body :=
  ErrorEnvelope (Text (lit "messages is required and must be a non-empty array"))
                (lit "invalid_request_error") (Some (lit "invalid_messages")).

Definition handleChatCompletions (O : oracle) (w : world) (body : jsval)
    : outcome * world :=
  let '(requestId, w1) := short_id O w in
  match get body "stream" with
  | Throw e => (Rejected e, w1)
  | Ok s =>
      let stream := match s with Some (JBool true) => true | _ => false end in
      let tried :=
        (let* messages := get body "messages" in
         match nonempty_array messages with
         | None => Ok (Responded 400 invalid_messages)
         | Some _ =>
             let* cliInput := openaiToCli body in
             Ok (Dispatched
                   (if cli_hasTools cliInput then BufferedReplay stream
                    else if stream then PassThrough else NonStreaming)
                   cliInput requestId)
         end)%js in
      match tried with
      | Ok o => (o, w1)
      | Throw e => (Responded 500 (server_error (MessageOf e)), w1)
      end
  end.

End Routes.

(* ===================================================================== *)
(** * The specification's wording, where it is compared with the code *)
(* ===================================================================== *)

Module Spec.
Import Str Json Js ToolProtocol OpenaiToCli.

(** Model resolution as the specification words it: a string of the table
    maps to its alias; a miss of the form [<prefix>/<name>] is retried once
    on [<name>], whatever the prefix; any other miss is "opus". *)
Definition resolveModel (s : jstr) : ClaudeModel :=
  match assoc s MODEL_MAP with
  | Some a => a
  | None =>
      match after_first [47] s with
      | Some name => match assoc name MODEL_MAP with
                     | Some a => a
                     | None => opus
                     end
      | None => opus
      end
  end.

(** The successive matches of the call pattern in a text, from the left:
    the captured bodies. *)
Inductive all_matches : jstr -> list jstr -> Prop :=
| matches_none (s : jstr) :
    exec s = None -> all_matches s []
| matches_cons (s body rest : jstr) (bodies : list jstr) :
    exec s = Some (body, rest) -> all_matches rest bodies ->
    all_matches s (body :: bodies).

(** The tool calls of a list of captured bodies, in order: a body that
    fails to parse gives none, the bodies after it are still read. *)
Fixpoint calls_of_bodies (O : oracle) (w : world) (bodies : list jstr)
    : list tool_call * world :=
  match bodies with
  | [] => ([], w)
  | body :: rest =>
      let '(c, w1) := call_of_body O w body in
      let '(cs, w2) := calls_of_bodies O w1 rest in
      (match c with Some x => x :: cs | None => cs end, w2)
  end.

(** A text and what is left of it once every [<tool_call>...</tool_call>]
    block, from an opening tag to the nearest closing tag, is removed. *)
Inductive without_blocks : jstr -> jstr -> Prop :=
| without_nil : without_blocks [] []
| without_block (s rest out : jstr) :
    match_block s = Some rest -> without_blocks rest out ->
    without_blocks s out
| without_char (c : N) (s out : jstr) :
    match_block (c :: s) = None -> without_blocks s out ->
    without_blocks (c :: s) (c :: out).

(** The text before the first occurrence of [p] in [s], and the text after
    it. *)
Fixpoint split_first (p s : jstr) : option (jstr * jstr) :=
  if starts_with p s then Some ([], drop (length p) s)
  else match s with
       | [] => None
       | c :: t => cons_fst c (split_first p t)
       end.

(** The bodies of the [<tool_call>...</tool_call>] blocks of a text, each
    from an opening tag to the nearest closing tag; the fuel is the length
    of the text. *)
Fixpoint blocks (fuel : nat) (s : jstr) : list jstr :=
  match fuel with
  | O => []
  | S f =>
      match s with
      | [] => []
      | _ :: t =>
          if starts_with OPEN_TAG s then
            match split_first CLOSE_TAG (drop (length OPEN_TAG) s) with
            | Some (body, rest) => body :: blocks f rest
            | None => blocks f t
            end
          else blocks f t
      end
  end.

(** A block is well formed when its body, white space apart, is a JSON
    object. *)
Definition well_formed (body : jstr) : bool :=
  match JSON_parse (trim body) with
  | Some (JObj _) => true
  | _ => false
  end.

(** The specification's reading of [parseToolCalls]: every well-formed
    block is honoured, every other block skipped. *)
Definition honours_well_formed_blocks (O : oracle) (w : world) (text : jstr) : Prop :=
  length (toolCalls (fst (parseToolCalls O w text)))
  = length (List.filter well_formed (blocks (S (length text)) text)).

(** The tool call of a parsed body, as the protocol words it: the id of
    the object when it has one that is truthy, a minted ["call_"] and 24
    hexadecimal digits of a new uuid otherwise; the name of the object; its
    arguments, stringified unless they are a string already. *)
Definition call_of_object (O : oracle) (w : world) (kvs : list (jstr * json))
    : tool_call * world :=
  let '(id, w') :=
    match assoc (lit "id") kvs with
    | Some x => if truthy (Some x) then (x, w)
                else (JStr (lit "call_" ++ fst (short_id O w)), snd (short_id O w))
    | None => (JStr (lit "call_" ++ fst (short_id O w)), snd (short_id O w))
    end in
  ({| tc_id := id;
      tc_name := assoc (lit "name") kvs;
      tc_arguments := match assoc (lit "arguments") kvs with
                      | Some (JStr s) => Some s
                      | Some x => Some (stringify x)
                      | None => None
                      end |}, w').

(** The calls of the captured bodies, in order: one for every body that is
    the JSON text of an object, none for a body that is not JSON. *)
Fixpoint expected_calls (O : oracle) (w : world) (bodies : list jstr)
    : list tool_call * world :=
  match bodies with
  | [] => ([], w)
  | body :: rest =>
      match JSON_parse body with
      | Some (JObj kvs) =>
          let '(c, w1) := call_of_object O w kvs in
          let '(cs, w2) := expected_calls O w1 rest in
          (c :: cs, w2)
      | _ => expected_calls O w rest
      end
  end.

(** A tool call of an assistant message, as the round-trip property gives
    it: its id, its name, its stringified arguments and the argument object
    they stand for. *)
Record given_call : Type := {
  given_id : jstr;
  given_name : jstr;
  given_arguments : jstr;
  given_object : list (jstr * json)
}.

(** [{id, type: "function", function: {name, arguments}}] *)
Definition request_call (c : given_call) : json :=
  JObj [ (lit "id", JStr (given_id c));
         (lit "type", JStr (lit "function"));
         (lit "function", JObj [ (lit "name", JStr (given_name c));
                                 (lit "arguments", JStr (given_arguments c)) ]) ].

(** [{role: "assistant", content, tool_calls}]; without leading text the
    content is null. *)
Definition assistant_turn (content : option jstr) (cs : list given_call) : json :=
  JObj [ (lit "role", JStr (lit "assistant"));
         (lit "content", match content with Some text => JStr text | None => JNull end);
         (lit "tool_calls", JArr (map request_call cs)) ].

(** The object [messagesToPrompt] writes in the [<tool_call>] block. *)
Definition lowered (c : given_call) : json :=
  JObj [ (lit "id", JStr (given_id c));
         (lit "name", JStr (given_name c));
         (lit "arguments", JObj (given_object c)) ].

(** The [<tool_call>] block [messagesToPrompt] writes for it. *)
Definition block (c : given_call) : jstr :=
  lit "<tool_call>" ++ nl ++ stringify2 (lowered c) ++ nl ++ lit "</tool_call>" ++ nl.

(** The leading text of the lowered turn: the content and a line feed, or
    nothing when the content is null or empty. *)
Definition leading (content : option jstr) : jstr :=
  match content with
  | Some (x :: t) => (x :: t) ++ nl
  | _ => []
  end.

(** The tool call the round trip is to give back: the same id and name,
    and the arguments re-serialized. *)
Definition returned_call (c : given_call) : tool_call :=
  {| tc_id := JStr (given_id c);
     tc_name := Some (JStr (given_name c));
     tc_arguments := Some (stringify (JObj (given_object c))) |}.

(** The round-trip property of the specification, for one assistant
    message: lowering and parsing back gives the same calls, with argument
    strings that parse back to the argument objects. *)
Definition round_trip (O : oracle) (w : world) (content : option jstr)
    (cs : list given_call) : Prop :=
  exists p, messagesToPrompt [assistant_turn content cs] None = Ok p /\
            toolCalls (fst (parseToolCalls O w p)) = map returned_call cs /\
            Forall (fun c => JSON_parse (stringify (JObj (given_object c)))
                             = Some (JObj (given_object c))) cs.

(** The call pattern is lazy: it ends a body at the first closing brace
    that white space and the closing tag follow.  [closes_early s]: the
    text [s] has such a brace, with the tag inside [s]. *)
Fixpoint closes_early (s : jstr) : bool :=
  match s with
  | [] => false
  | c :: t => (c =? 125) && starts_with CLOSE_TAG (skip_ws t) || closes_early t
  end.

(** The call pattern starts a match at an opening tag that white space and
    an opening brace follow.  [opens_call s]: the text [s] has such a
    tag, with the brace inside [s]. *)
Fixpoint opens_call (s : jstr) : bool :=
  starts_with OPEN_TAG s
  && match skip_ws (drop (length OPEN_TAG) s) with
     | c :: _ => c =? 123
     | [] => false
     end
  || match s with
     | [] => false
     | _ :: t => opens_call t
     end.

(** What the round trip needs of a call: a non-empty id, arguments that
    parse to the argument object, an argument object that
    [JSON.stringify] writes without loss (no number of it is infinite), and
    a lowered JSON text in which no closing brace is followed by white
    space and the closing tag. *)
Definition survives (c : given_call) : Prop :=
  given_id c <> [] /\
  JSON_parse (given_arguments c) = Some (JObj (given_object c)) /\
  printable (JObj (given_object c)) = true /\
  closes_early (stringify2 (lowered c)) = false.

(** What it needs of the leading text: no opening tag followed by white
    space and an opening brace in it. *)
Definition plain (content : option jstr) : Prop :=
  match content with
  | Some text => opens_call text = false
  | None => True
  end.

(** An assistant message one of whose tool calls has a [function.arguments]
    string that is not JSON. *)
Definition malformed_arguments (msg : json) : Prop :=
  exists calls tc fn args,
    get (Some msg) "role" = Ok (Some (JStr (lit "assistant"))) /\
    get (Some msg) "tool_calls" = Ok (Some (JArr calls)) /\
    In tc calls /\
    get (Some tc) "function" = Ok fn /\
    get fn "arguments" = Ok (Some (JStr args)) /\
    JSON_parse args = None.

(** The prompt of [openaiToCli(request)], or what it throws. *)
Definition promptOf (request : jsval) : result jstr :=
  match openaiToCli request with
  | Ok c => Ok (prompt c)
  | Throw e => Throw e
  end.

(** *** The response text of a buffered replay *)






End Spec.

(* ===================================================================== *)
(** * Inputs used in the examples *)
(* ===================================================================== *)

Module Inputs.
Import Str Json Js ToolProtocol CliToOpenai Routes.


Definition obj (kvs : list (string * json)) : json :=
  JObj (map (fun kv => (lit (fst kv), snd kv)) kvs).

Definition str (s : string) : json := JStr (lit s).

(** The result of a CLI run that answered "hello". *)
Definition hello : ClaudeCliResult :=
  {| cr_result := lit "hello"; cr_usage := Some (3, 2)%Z;
     cr_modelUsage := Some [lit "claude-sonnet-4-5-20250929"] |}.

(** One well-formed call, as the model writes it:
    [<tool_call>{"name":"f","arguments":{}}</tool_call>]. *)
Definition one_call : jstr :=
  lit "<tool_call>{" ++ q "name" ++ lit ":" ++ q "f"
  ++ lit "," ++ q "arguments" ++ lit ":{}}</tool_call>".

(** A result event whose [result] string is empty. *)
Definition empty_result : ClaudeCliResult :=
  {| cr_result := []; cr_usage := Some (3, 4)%Z;
     cr_modelUsage := Some [lit "claude-sonnet-4-5-20250929"] |}.

Definition deltas_then_empty_result : list event :=
  [content_delta (Some one_call); result_event empty_result; close (Some 0%Z)].

(** [{model, messages: [{role: "user", content: "hi"}], tools: [get_weather],
    tool_choice}] *)
Definition weather_request (model tool_choice : string) : json :=
  obj [ ("model", str model);
        ("messages", JArr [obj [("role", str "user"); ("content", str "hi")]]);
        ("tools", JArr [obj [("type", str "function");
                             ("function", obj [("name", str "get_weather")])]]);
        ("tool_choice", str tool_choice) ]%string.

(** [<tool_call>{not json}</tool_call> real text] *)
Definition malformed_block : jstr :=
  lit "<tool_call>{not json}</tool_call> real text".

(** A block whose body opens a brace and never closes it, followed by a
    well-formed block. *)
Definition unclosed_then_call : jstr :=
  lit "<tool_call>{bad</tool_call>" ++ one_call.

(** A call whose argument is the string ["}</tool_call>"]. *)
Definition closing_tag_argument : Spec.given_call :=
  {| Spec.given_id := lit "a"; Spec.given_name := lit "f";
     Spec.given_arguments := stringify (obj [("x", str "}</tool_call>")]%string);
     Spec.given_object := [(lit "x", str "}</tool_call>")] |}.

(** A call of [get_weather] for Paris. *)
Definition weather_call : Spec.given_call :=
  {| Spec.given_id := lit "call_1"; Spec.given_name := lit "get_weather";
     Spec.given_arguments := stringify (obj [("city", str "Paris")]%string);
     Spec.given_object := [(lit "city", str "Paris")] |}.

(** [uuidv4()] and [Date.now()] count their calls. *)
Definition counting : oracle :=
  {| uuidv4 := fun n => of_N (N.of_nat n); now := fun n => Z.of_nat n |}.

(** An assistant turn with one tool call whose arguments are [{not json}]. *)
Definition malformed_turn : json :=
  obj [ ("role", str "assistant");
        ("tool_calls",
         JArr [obj [("id", str "a"); ("type", str "function");
                    ("function", obj [("name", str "f");
                                      ("arguments", str "{not json}")])]]) ]%string.

Definition malformed_request : json :=
  obj [ ("model", str "sonnet");
        ("messages", JArr [obj [("role", str "user"); ("content", str "hi")];
                           malformed_turn]) ]%string.

End Inputs.

(* ===================================================================== *)
(** * The structure of the prompt *)
(* ===================================================================== *)

Module Prompt.
Import Str Json Js ToolProtocol OpenaiToCli.
Local Open Scope js_scope.

(** The array [parts] of [messagesToPrompt] when its loop ends: what the
    function joins with line feeds and trims. *)
Definition partsOf (messages : list json) (tools : option (list json))
    : result (list jstr) :=
  let* parts := match tools with
                | Some (t :: ts) =>
                    let* i := buildToolInstructions (t :: ts) in Ok [i]
                | _ => Ok []
                end in
  flatten (length messages) messages parts.

(** [msg.role === r] *)
Definition has_role (r : string) (msg : json) : Prop :=
  get (Some msg) "role" = Ok (Some (JStr (lit r))).

(** [msg.role] can be read and is not "tool". *)
Definition not_tool (msg : json) : Prop :=
  exists role, get (Some msg) "role" = Ok role /\ is_str role "tool" = false.

(** Messages that do not begin with a tool message: a run of tool messages
    before them ends in front of them. *)
Definition starts_fresh (ms : list json) : Prop :=
  match ms with
  | [] => True
  | m :: _ => not_tool m
  end.




(** The first line of the tool manifest. *)
Definition MANIFEST : jstr := Eval cbv in lit "<tools_available>".

End Prompt.

(* ===================================================================== *)
(** * More inputs for the examples *)
(* ===================================================================== *)

Module Examples.
Import Str Json Js Inputs.

(** [{role: "user", content}] *)
Definition user_message (content : string) : json :=
  obj [("role", str "user"); ("content", str content)]%string.

(** [{role: "tool", tool_call_id, content}] *)
Definition tool_message (id content : string) : json :=
  obj [("role", str "tool"); ("tool_call_id", str id); ("content", str content)]%string.

(** [uuidv4()] gives strings of growing length, [Date.now()] counts its
    calls. *)
Definition unary : oracle :=
  {| uuidv4 := fun n => repeat 97%N n; now := fun n => Z.of_nat n |}.

End Examples.

(* ===================================================================== *)
(** * dist/types/claude-cli.js and the output side of
      dist/subprocess/manager.js *)
(* ===================================================================== *)

Module Stdout.
Import Str Json Js.
Local Open Scope js_scope.

(** ** The type guards of dist/types/claude-cli.js

    A guard is called on whatever [JSON.parse] returned.  The names it
    reads ([type], [subtype], [event]) are not inherited from a prototype,
    so [Js.get] is their read: undefined on a value that is not an object,
    a TypeError on null. *)

Definition isAssistantMessage (msg : jsval) : result bool :=
  let* ty := get msg "type" in Ok (is_str ty "assistant").

Definition isResultMessage (msg : jsval) : result bool :=
  let* ty := get msg "type" in Ok (is_str ty "result").

Definition isStreamEvent (msg : jsval) : result bool :=
  let* ty := get msg "type" in Ok (is_str ty "stream_event").

(** [isStreamEvent(msg) && msg.event.type === "content_block_delta"] *)
Definition isContentDelta (msg : jsval) : result bool :=
  let* streamEvent := isStreamEvent msg in
  if streamEvent then
    let* event := get msg "event" in
    let* ty := get event "type" in
    Ok (is_str ty "content_block_delta")
  else Ok false.

(** [msg.type === "system" && msg.subtype === "init"] *)
Definition isSystemInit (msg : jsval) : result bool :=
  let* ty := get msg "type" in
  if is_str ty "system" then
    let* subtype := get msg "subtype" in Ok (is_str subtype "init")
  else Ok false.

(** ** [processBuffer] *)

(** [s.split("\n")]: the texts between the line feeds, at least one. *)
Fixpoint split_lines (s : jstr) : list jstr :=
  match s with
  | [] => [[]]
  | c :: t =>
      if c =? 10 then [] :: split_lines t
      else match split_lines t with
           | l :: ls => (c :: l) :: ls
           | [] => [[c]]
           end
  end.

(** What the driver emits while it reads the output of the process. *)
Inductive emission : Type :=
| message (m : json)
| content_delta (m : json)
| assistant (m : json)
| result_message (m : json)
| raw (line : jstr).

(** The body of the [for] loop, for listeners that return: an exception
    inside the [try] block, from [JSON.parse] or from a guard, is caught
    and the trimmed line is emitted as [raw]. *)
Definition emit_line (line : jstr) : list emission :=
  let trimmed := trim line in
  if is_nil trimmed then []
  else
    match JSON_parse trimmed with
    | None => [raw trimmed]
    | Some m =>
        message m ::
        match isContentDelta (Some m) with
        | Throw _ => [raw trimmed]
        | Ok true => [content_delta m]
        | Ok false =>
            match isAssistantMessage (Some m) with
            | Throw _ => [raw trimmed]
            | Ok true => [assistant m]
            | Ok false =>
                match isResultMessage (Some m) with
                | Throw _ => [raw trimmed]
                | Ok true => [result_message m]
                | Ok false => []
                end
            end
        end
    end.

(** [processBuffer()] on the buffer [buffer]: the emissions and the buffer
    it leaves, [lines.pop() || ""]. *)
Definition processBuffer (buffer : jstr) : list emission * jstr :=
  let lines := split_lines buffer in
  (flat_map emit_line (removelast lines), List.last lines []).

(** ** [chunk.toString()]

    A chunk of stdout is a Buffer: a sequence of bytes, each an [N] below
    256.  [toString()] decodes it as UTF-8 on its own, whatever came before
    and whatever follows: a sequence that is not well formed, or that the
    end of the chunk cuts, is decoded as U+FFFD. *)

(** A sequence under way: the bits read so far, the number of continuation
    bytes still to come, and the range the next byte has to be in. *)
Record partial : Type := {
  bits : N;
  missing : nat;
  lower : N;
  upper : N
}.

(** The code units of a code point. *)
Definition code_units (c : N) : jstr :=
  if c <? 0x10000 then [c]
  else [0xD800 + (c - 0x10000) / 0x400; 0xDC00 + (c - 0x10000) mod 0x400].

Definition REPLACEMENT : N := 0xFFFD.

(** A byte between two characters. *)
Definition lead (b : N) : option partial * jstr :=
  if b <=? 0x7F then (None, [b])
  else if (0xC2 <=? b) && (b <=? 0xDF) then
    (Some {| bits := N.land b 0x1F; missing := 1; lower := 0x80; upper := 0xBF |}, [])
  else if (0xE0 <=? b) && (b <=? 0xEF) then
    (Some {| bits := N.land b 0xF; missing := 2;
             lower := if b =? 0xE0 then 0xA0 else 0x80;
             upper := if b =? 0xED then 0x9F else 0xBF |}, [])
  else if (0xF0 <=? b) && (b <=? 0xF4) then
    (Some {| bits := N.land b 0x7; missing := 3;
             lower := if b =? 0xF0 then 0x90 else 0x80;
             upper := if b =? 0xF4 then 0x8F else 0xBF |}, [])
  else (None, [REPLACEMENT]).

(** One byte: the state it leaves and the code units it completes.  A byte
    that cannot continue the sequence under way ends it with U+FFFD and is
    read again as a first byte. *)
Definition decode_byte (st : option partial) (b : N) : option partial * jstr :=
  match st with
  | None => lead b
  | Some p =>
      if (lower p <=? b) && (b <=? upper p) then
        let c := N.lor (N.shiftl (bits p) 6) (N.land b 0x3F) in
        match missing p with
        | S (S n) =>
            (Some {| bits := c; missing := S n; lower := 0x80; upper := 0xBF |}, [])
        | _ => (None, code_units c)
        end
      else let '(st', out) := lead b in (st', REPLACEMENT :: out)
  end.

(** The bytes of a Buffer, from a state: the state at its end and the code
    units decoded so far. *)
Fixpoint decode_bytes (st : option partial) (bytes : list N) : option partial * jstr :=
  match bytes with
  | [] => (st, [])
  | b :: rest =>
      let '(st1, out1) := decode_byte st b in
      let '(st2, out2) := decode_bytes st1 rest in
      (st2, out1 ++ out2)
  end.

(** [chunk.toString()]: a sequence that the end of the Buffer cuts gives
    U+FFFD. *)
Definition toString (chunk : list N) : jstr :=
  let '(st, out) := decode_bytes None chunk in
  out ++ match st with Some _ => [REPLACEMENT] | None => [] end.

(** The Buffer ends between two characters. *)
Definition ends_between_characters (chunk : list N) : Prop :=
  fst (decode_bytes None chunk) = None.

(** The ["data"] listener of stdout, [data] being [chunk.toString()]:
    [this.buffer += data; this.processBuffer()]. *)
Definition on_data (buffer data : jstr) : list emission * jstr :=
  processBuffer (buffer ++ data).

(** The chunks of a run, one after the other. *)
Fixpoint on_all_data (buffer : jstr) (chunks : list jstr) : list emission * jstr :=
  match chunks with
  | [] => ([], buffer)
  | data :: rest =>
      let '(e1, b1) := on_data buffer data in
      let '(e2, b2) := on_all_data b1 rest in
      (e1 ++ e2, b2)
  end.

(** The ["data"] listener on the Buffers of a run: each is decoded on its
    own. *)
Definition on_chunks (buffer : jstr) (chunks : list (list N)) : list emission * jstr :=
  on_all_data buffer (map toString chunks).

(** What the ["close"] listener of the process does with the buffer before
    it emits ["close"]: [if (this.buffer.trim()) this.processBuffer()]. *)
Definition flush_at_close (buffer : jstr) : list emission * jstr :=
  if is_nil (trim buffer) then ([], buffer) else processBuffer buffer.

(** [buildArgs(prompt, options)] *)
Definition buildArgs (prompt model : jstr) (sessionId : jsval) : list jsval :=
  [ Some (JStr (lit "--print")); Some (JStr (lit "--output-format"));
    Some (JStr (lit "stream-json")); Some (JStr (lit "--verbose"));
    Some (JStr (lit "--include-partial-messages")); Some (JStr (lit "--model"));
    Some (JStr model); Some (JStr (lit "--no-session-persistence"));
    Some (JStr prompt) ]
  ++ (if truthy sessionId then [Some (JStr (lit "--session-id")); sessionId] else []).

End Stdout.

(* ===================================================================== *)
(** * What a driver reported *)
(* ===================================================================== *)

Module Lifecycle.
Import Subprocess.

(** The timeout errors a driver emitted. *)
Definition errors (d : driver) : list Z :=
  flat_map (fun e => match e with emit_error t => [t] | _ => [] end) (events d).

(** The exit codes it reported with ["close"]. *)
Definition closed_with (d : driver) : list (option Z) :=
  flat_map (fun e => match e with emit_close c => [c] | _ => [] end) (events d).

(** The exit codes of the ["close"] events of the process. *)
Definition exit_codes (ops : list op) : list (option Z) :=
  flat_map (fun o => match o with op_close c => [c] | _ => [] end) ops.

End Lifecycle.

(* ===================================================================== *)
(** * dist/session/manager.js: the other methods of the manager *)
(* ===================================================================== *)

Module SessionStore.
Import Str Js Session.

(** 24 hours, in milliseconds. *)
Definition SESSION_TTL_MS : Z := 24 * 60 * 60 * 1000.

(** [delete(clawdbotId)]: whether a session was deleted, and the manager
    afterwards; a deletion starts a [save()]. *)
Definition delete (mgr : SessionManager) (id : jstr) : bool * SessionManager :=
  match sessions mgr !! id with
  | Some _ =>
      (true, {| sessions := base.delete id (sessions mgr);
                loaded := loaded mgr; saves := S (saves mgr) |})
  | None => (false, mgr)
  end.

(** [session.lastUsedAt < cutoff] *)
Definition expired (cutoff : Z) (session : SessionMapping) : bool :=
  (lastUsedAt session <? cutoff)%Z.

(** One turn of the loop of [cleanup]. *)
Definition sweep (cutoff : Z) (key : jstr) (session : SessionMapping)
    (acc : gmap jstr SessionMapping * nat) : gmap jstr SessionMapping * nat :=
  if expired cutoff session then (base.delete key (fst acc), S (snd acc)) else acc.

(** [cleanup()]: the number of sessions removed, the manager and the world
    afterwards.  The loop visits the entries the map had when it started;
    deleting the entry being visited does not disturb the iteration. *)
Definition cleanup (O : oracle) (w : world) (mgr : SessionManager)
    : nat * SessionManager * world :=
  let '(t, w1) := Date_now O w in
  let cutoff := (t - SESSION_TTL_MS)%Z in
  let '(kept, removed) := map_fold (sweep cutoff) (sessions mgr, 0%nat) (sessions mgr) in
  (removed,
   {| sessions := kept; loaded := loaded mgr;
      saves := match removed with O => saves mgr | S _ => S (saves mgr) end |},
   w1).

(** [get size()] *)
Definition size (mgr : SessionManager) : nat := base.size (sessions mgr).

(** The calls a client of the manager makes. *)
Inductive call : Type :=
| call_getOrCreate (id : jstr) (model : option jstr)
| call_delete (id : jstr)
| call_cleanup.

Definition do_call (O : oracle) (st : SessionManager * world) (c : call)
    : SessionManager * world :=
  let '(mgr, w) := st in
  match c with
  | call_getOrCreate id m => let '(_, mgr', w') := getOrCreate O w mgr id m in (mgr', w')
  | call_delete id => (snd (delete mgr id), w)
  | call_cleanup => let '(_, mgr', w') := cleanup O w mgr in (mgr', w')
  end.

(** A manager that was not loaded from a file, after the calls [calls]. *)
Definition after (O : oracle) (calls : list call) : SessionManager * world :=
  fold_left (do_call O) calls (Session.empty, world0).

(** [uuidv4()] never returns the same value twice. *)
Definition fresh_uuids (O : oracle) : Prop :=
  forall i j : nat, uuidv4 O i = uuidv4 O j -> i = j.

(** What holds of every entry of a manager that was not loaded from a
    file: it is filed under its own conversation id, its session id came
    from [uuidv4()], and its two dates from [Date.now()], the creation
    first. *)
Definition entry_ok (O : oracle) (w : world) (id : jstr) (s : SessionMapping) : Prop :=
  clawdbotId s = id /\
  (exists i, (i < uuid_calls w)%nat /\ claudeSessionId s = uuidv4 O i) /\
  (exists j k, (j <= k)%nat /\ (k < now_calls w)%nat /\
               createdAt s = now O j /\ lastUsedAt s = now O k).

(** No two conversations share a session id. *)
Definition isolated (mgr : SessionManager) : Prop :=
  forall id id' s s',
    sessions mgr !! id = Some s -> sessions mgr !! id' = Some s' ->
    claudeSessionId s = claudeSessionId s' -> id = id'.

Definition consistent (O : oracle) (st : SessionManager * world) : Prop :=
  (forall id s, sessions (fst st) !! id = Some s -> entry_ok O (snd st) id s) /\
  isolated (fst st).

End SessionStore.

(* ===================================================================== *)
(** * dist/server/routes.js: [handleStreamingResponse] *)
(* ===================================================================== *)

Module Streaming.
Import Str Json Js CliToOpenai Routes.

(** The variables the listeners of [handleStreamingResponse] close over,
    the calls made on [res], the number of [subprocess.kill()] calls, and
    the world. *)
Record state : Type := {
  isFirst : bool;
  lastModel : jstr;
  isComplete : bool;
  res : list res_call;
  kills : nat;
  world_ : world
}.

(** The handler before the first event: the four headers are set and
    flushed, and the comment [":ok"] is written. *)
Definition init (requestId : jstr) (w : world) : state :=
  {| isFirst := true; lastModel := lit "claude-sonnet-4"; isComplete := false;
     res := [ call_setHeader (lit "Content-Type") (lit "text/event-stream");
              call_setHeader (lit "Cache-Control") (lit "no-cache");
              call_setHeader (lit "Connection") (lit "keep-alive");
              call_setHeader (lit "X-Request-Id") requestId;
              call_flushHeaders;
              call_write frame_ok ];
     kills := 0; world_ := w |}.

Definition write (fs : list res_call) (s : state) : state :=
  {| isFirst := isFirst s; lastModel := lastModel s; isComplete := isComplete s;
     res := res s ++ fs; kills := kills s; world_ := world_ s |}.

(** [`Process exited with code ${code}`] *)
Definition exited (code : option Z) : body :=
  server_error (Text (lit "Process exited with code " ++ code_str code)).

(** [code !== 0] *)
Definition nonzero (code : option Z) : bool :=
  match code with Some c => negb (c =? 0)%Z | None => true end.

(** The listeners, by event.  None of them throws: every call on [res] is
    a [write] or an [end]. *)
Definition listener (O : oracle) (requestId : jstr) (ev : event) (s : state) : state :=
  match ev with
  | res_close =>
      if isComplete s then s
      else {| isFirst := isFirst s; lastModel := lastModel s; isComplete := isComplete s;
              res := res s; kills := S (kills s); world_ := world_ s |}
  | content_delta text =>
      match text with
      | Some (c :: t) =>
          if writableEnded (res s) then s
          else
            let '(created, w) := now_seconds O (world_ s) in
            {| isFirst := false; lastModel := lastModel s; isComplete := isComplete s;
               res := res s ++
                 [call_write
                    (frame_chunk
                       {| k_id := chatcmpl requestId; k_created := created;
                          k_model := lastModel s;
                          k_delta := {| d_role := if isFirst s
                                                  then Some (lit "assistant") else None;
                                        d_content := Some (c :: t);
                                        d_tool_calls := None |};
                          k_finish_reason := None |})];
               kills := kills s; world_ := w |}
      | _ => s
      end
  | assistant model =>
      {| isFirst := isFirst s; lastModel := model; isComplete := isComplete s;
         res := res s; kills := kills s; world_ := world_ s |}
  | result_event _ =>
      if writableEnded (res s)
      then {| isFirst := isFirst s; lastModel := lastModel s; isComplete := true;
              res := res s; kills := kills s; world_ := world_ s |}
      else
        let '(doneChunk, w) := createDoneChunk O (world_ s) requestId (lastModel s) in
        {| isFirst := isFirst s; lastModel := lastModel s; isComplete := true;
           res := res s ++ [call_write (frame_chunk doneChunk); call_write frame_done;
                            call_end];
           kills := kills s; world_ := w |}
  | error message =>
      if writableEnded (res s) then s
      else write [call_write (frame_error (server_error (Text message))); call_end] s
  | close code =>
      if writableEnded (res s) then s
      else write ((if nonzero code && negb (isComplete s)
                   then [call_write (frame_error (exited code))] else [])
                  ++ [call_write frame_done; call_end]) s
  end.

Definition run (O : oracle) (requestId : jstr) (s : state) (evs : list event) : state :=
  fold_left (fun s ev => listener O requestId ev s) evs s.

(** The texts of the content deltas that are not empty. *)
Definition texts_of (evs : list event) : list jstr :=
  flat_map (fun ev => match ev with
                      | content_delta (Some (c :: t)) => [c :: t]
                      | _ => []
                      end) evs.

(** An event of the answer under way: a content delta or an assistant
    message. *)
Definition under_way (ev : event) : Prop :=
  match ev with
  | content_delta _ | assistant _ => True
  | _ => False
  end.

(** The frames ["data: [DONE]"] written. *)
Definition dones (l : list res_call) : list res_call :=
  List.filter (fun c => match c with call_write frame_done => true | _ => false end) l.

(** The roles of the chunks of an answer in [n] chunks, the first of which
    announces the role when [first] holds. *)
Definition roles (first : bool) (n : nat) : list (option jstr) :=
  match n with
  | O => []
  | S n' => (if first then Some (lit "assistant") else None) :: repeat None n'
  end.

(** What holds of the calls on [res] at any time: nothing ends the response
    before its last call, and a [DONE] frame is written only together with
    the end. *)
Definition disciplined (l : list res_call) : Prop :=
  (writableEnded l = false /\ dones l = [] /\ bodies l = []) \/
  (exists pre, l = pre ++ [call_end] /\ writableEnded pre = false /\
               (length (dones pre) <= 1)%nat /\ bodies pre = []).

End Streaming.

(* ===================================================================== *)
(** * What the buffered replay is to send *)
(* ===================================================================== *)

Module Replay.
Import Str Json Js ToolProtocol CliToOpenai Routes.

(** The finish reason that goes with the calls extracted. *)
Definition finish_for (p : parsed_calls) : jstr :=
  match toolCalls p with
  | [] => lit "stop"
  | _ :: _ => lit "tool_calls"
  end.

(** The response text a handler has chosen when the process closes. *)
Definition chosen (h : handler) : jstr :=
  responseTextOf (finalResult h) (bufferedText h).

(** The result event, if any, can be converted: its text is the chosen
    text and its [modelUsage], when present, names a model. *)
Definition convertible (h : handler) : Prop :=
  match finalResult h with
  | None => True
  | Some r => cr_result r <> [] /\ cr_modelUsage r <> Some []
  end.

End Replay.

(* ===================================================================== *)
(** * dist/server/index.js: starting and stopping the server *)
(* ===================================================================== *)

Module Server.
Import Str.

(** An [http.Server]: the address it was asked to listen on, and whether
    it listens. *)
Record server : Type := {
  port : Z;
  host : jstr;
  listening : bool
}.

(** What [listen] does, which the program does not decide: the server
    listens, or it emits ["error"] with the code [err.code]. *)
Inductive listen_outcome : Type :=
| Listens
| Fails (code : jstr).

(** How a promise settles. *)
Inductive settled : Type :=
| Resolved (s : option server)         (* [None] is undefined *)
| Rejected_port_in_use (port : Z)      (* "Port <port> is already in use" *)
| Rejected_with (code : jstr)          (* the error of [listen] *)
| Rejected_not_running.                (* the error of [close] *)

(** [startServer(config)], with [serverInstance] before and after, and
    whether [listen] was called. *)
Definition startServer (serverInstance : option server) (config_port : Z)
    (config_host : option jstr) (env : listen_outcome)
    : settled * option server * bool :=
  match serverInstance with
  | Some s => (Resolved (Some s), Some s, false)
  | None =>
      let h := match config_host with Some x => x | None => lit "127.0.0.1" end in
      match env with
      | Listens =>
          let s := {| port := config_port; host := h; listening := true |} in
          (Resolved (Some s), Some s, true)
      | Fails code =>
          let s := {| port := config_port; host := h; listening := false |} in
          (if eqb code (lit "EADDRINUSE") then Rejected_port_in_use config_port
           else Rejected_with code, Some s, true)
      end
  end.

(** [stopServer()]: [close] calls back with an error when the server does
    not listen, and [serverInstance] is then left as it is. *)
Definition stopServer (serverInstance : option server) : settled * option server :=
  match serverInstance with
  | None => (Resolved None, None)
  | Some s => if listening s then (Resolved None, None)
              else (Rejected_not_running, Some s)
  end.

(** [getServer()] *)
Definition getServer (serverInstance : option server) : option server := serverInstance.

(** The calls of a client, with what [listen] would do. *)
Inductive call : Type :=
| call_start (config_port : Z) (config_host : option jstr) (env : listen_outcome)
| call_stop.

Definition do_call (st : option server) (c : call) : option server :=
  match c with
  | call_start p h env => snd (fst (startServer st p h env))
  | call_stop => snd (stopServer st)
  end.

(** Whether a call binds a port. *)
Definition listens (st : option server) (c : call) : bool :=
  match c with
  | call_start p h env => snd (startServer st p h env)
  | call_stop => false
  end.

End Server.

(* ===================================================================== *)
(** * Proofs *)
(* ===================================================================== *)

Import Str Json Js.

(** ** Strings *)

Lemma starts_with_app (p s : jstr) : starts_with p (p ++ s) = true.
Proof.
  induction p as [| a p IH]; simpl; [reflexivity |].
  rewrite N.eqb_refl. exact IH.
Qed.

Lemma starts_with_prefix (p s : jstr) :
  starts_with p s = true -> s = p ++ drop (length p) s.
Proof.
  revert s. induction p as [| a p IH]; intros s H; simpl in *.
  - reflexivity.
  - destruct s as [| b s]; [discriminate |].
    apply andb_prop in H as [Hab Hps]. apply N.eqb_eq in Hab. subst b.
    simpl. f_equal. apply IH, Hps.
Qed.

Lemma drop_app_length {A} (p s : list A) : drop (length p) (p ++ s) = s.
Proof. induction p; simpl; auto. Qed.

Lemma eqb_refl (a : jstr) : Str.eqb a a = true.
Proof. unfold Str.eqb. apply bool_decide_eq_true. reflexivity. Qed.

Lemma eqb_eq (a b : jstr) : Str.eqb a b = true <-> a = b.
Proof. unfold Str.eqb. apply bool_decide_eq_true. Qed.

Lemma eqb_neq (a b : jstr) : Str.eqb a b = false <-> a <> b.
Proof. unfold Str.eqb. apply bool_decide_eq_false. Qed.

(** ** Evaluation that may throw *)

Lemma bind_ok {A B} (r : result A) (k : A -> result B) (b : B) :
  Js.bind r k = Ok b -> exists a, r = Ok a /\ k a = Ok b.
Proof. destruct r as [a | e]; simpl; [eauto | discriminate]. Qed.

Lemma bind_throw {A B} (r : result A) (k : A -> result B) (e : exn) :
  r = Throw e -> Js.bind r k = Throw e.
Proof. intros ->. reflexivity. Qed.

(* ===================================================================== *)
(** ** Model resolution ([extractModel]) *)
(* ===================================================================== *)

Section ExtractModel.
Import OpenaiToCli.

Lemma strip_provider_cli (name : jstr) :
  strip_provider (lit "claude-code-cli/" ++ name) = name.
Proof.
  unfold strip_provider. rewrite starts_with_app.
  change 16%nat with (length (lit "claude-code-cli/")). apply drop_app_length.
Qed.

Lemma strip_provider_openai (name : jstr) :
  strip_provider (lit "openai/" ++ name) = name.
Proof.
  unfold strip_provider.
  replace (starts_with (lit "claude-code-cli/") (lit "openai/" ++ name))
    with false by reflexivity.
  rewrite starts_with_app.
  change 7%nat with (length (lit "openai/")). apply drop_app_length.
Qed.

Lemma strip_provider_none (s : jstr) :
  starts_with (lit "claude-code-cli/") s = false ->
  starts_with (lit "openai/") s = false ->
  strip_provider s = s.
Proof. intros H1 H2. unfold strip_provider. rewrite H1, H2. reflexivity. Qed.

Lemma extractModel_string (s : jstr) :
  extractModel (Some (JStr s)) =
  match MODEL_MAP_get s with
  | Some v => Ok v
  | None => match MODEL_MAP_get (strip_provider s) with
            | Some v => Ok v
            | None => Ok (Alias opus)
            end
  end.
Proof. reflexivity. Qed.

(** C3, as the specification words it, fails: an unknown provider prefix is
    not stripped.  "anthropic/claude-sonnet-4" misses the table, the
    specification retries on "claude-sonnet-4" and answers sonnet, the code
    answers opus. *)
Lemma extractModel_unknown_prefix_not_stripped :
  Spec.resolveModel (lit "anthropic/claude-sonnet-4") = sonnet /\
  extractModel (Some (JStr (lit "anthropic/claude-sonnet-4"))) = Ok (Alias opus) /\
  extractModel (Some (JStr (lit "anthropic/claude-sonnet-4")))
    <> Ok (Alias (Spec.resolveModel (lit "anthropic/claude-sonnet-4"))).
Proof. repeat split; [vm_compute; reflexivity .. | vm_compute; discriminate]. Qed.

(** C3, amended.  For every model string that is not the name of a member
    inherited from [Object.prototype] (before or after stripping):
    a string of the table maps to its alias; a miss that starts with one of
    the two known provider prefixes, "claude-code-cli/" or "openai/", is
    retried once on the rest, and gives the alias of the rest when the rest
    is in the table; every other miss gives "opus". *)
Theorem extractModel_resolution (s : jstr) :
  (forall a, assoc s MODEL_MAP = Some a ->
     extractModel (Some (JStr s)) = Ok (Alias a)) /\
  (forall name,
     s = lit "claude-code-cli/" ++ name \/ s = lit "openai/" ++ name ->
     assoc s MODEL_MAP = None -> inherited s = false -> inherited name = false ->
     extractModel (Some (JStr s)) =
       Ok (Alias (match assoc name MODEL_MAP with Some a => a | None => opus end))) /\
  (starts_with (lit "claude-code-cli/") s = false ->
   starts_with (lit "openai/") s = false ->
   assoc s MODEL_MAP = None -> inherited s = false ->
   extractModel (Some (JStr s)) = Ok (Alias opus)).
Proof.
  rewrite extractModel_string. unfold MODEL_MAP_get. repeat split.
  - intros a Ha. rewrite Ha. reflexivity.
  - intros name Hs Hmiss Hinh Hname. rewrite Hmiss, Hinh.
    assert (strip_provider s = name) as ->.
    { destruct Hs as [-> | ->];
        [apply strip_provider_cli | apply strip_provider_openai]. }
    rewrite Hname. destruct (assoc name MODEL_MAP); reflexivity.
  - intros H1 H2 Hmiss Hinh.
    rewrite (strip_provider_none s H1 H2), Hmiss, Hinh. reflexivity.
Qed.

(** The three cases at "sonnet", "claude-code-cli/claude-sonnet-4-5",
    "openai/gpt-4" and "gpt-4". *)
Lemma extractModel_resolution_witness :
  extractModel (Some (JStr (lit "sonnet"))) = Ok (Alias sonnet) /\
  extractModel (Some (JStr (lit "claude-code-cli/claude-sonnet-4-5"))) = Ok (Alias sonnet) /\
  extractModel (Some (JStr (lit "openai/gpt-4"))) = Ok (Alias opus) /\
  extractModel (Some (JStr (lit "gpt-4"))) = Ok (Alias opus).
Proof.
  split; [| split; [| split]].
  - apply (proj1 (extractModel_resolution (lit "sonnet"))). reflexivity.
  - apply (proj1 (proj2 (extractModel_resolution
                           (lit "claude-code-cli/claude-sonnet-4-5")))
             (lit "claude-sonnet-4-5"));
      [left; reflexivity | reflexivity ..].
  - apply (proj1 (proj2 (extractModel_resolution (lit "openai/gpt-4")))
             (lit "gpt-4"));
      [right; reflexivity | reflexivity ..].
  - apply (proj2 (proj2 (extractModel_resolution (lit "gpt-4")))); reflexivity.
Defined.

End ExtractModel.

(* ===================================================================== *)
(** ** The subprocess driver: termination *)
(* ===================================================================== *)

Section Termination.
Import Subprocess.

Lemma start_live (opt_timeout : option Z) : live (start new opt_timeout).
Proof. repeat split. discriminate. Qed.

Lemma kill_terminated (d : driver) (sig : option signal) :
  terminated d -> kill sig d = d.
Proof. intros (_ & Hk & _). unfold kill. rewrite Hk. reflexivity. Qed.

Lemma expire_terminated (d : driver) : terminated d -> expire d = d.
Proof. intros (_ & _ & Ht & _). unfold expire. rewrite Ht. reflexivity. Qed.

Lemma step_terminated (d : driver) (o : op) :
  terminating o -> terminated d -> step d o = d.
Proof.
  destruct o; simpl; intros Ho Hd;
    [apply kill_terminated | apply expire_terminated | contradiction]; exact Hd.
Qed.

Lemma run_terminated (ops : list op) (d : driver) :
  Forall terminating ops -> terminated d -> run d ops = d.
Proof.
  unfold run. induction 1 as [| o ops Ho _ IH]; intros Hd; simpl.
  - reflexivity.
  - rewrite (step_terminated d o Ho Hd). apply IH, Hd.
Qed.

(** While the driver is live the timer is either armed or cleared by the
    exit of the process; in both cases the first kill or expiry that has an
    effect sends exactly one signal. *)
Lemma kill_live (d : driver) (sig : option signal) :
  live d ->
  terminated (kill sig d) /\
  signals (kill sig d) = [match sig with Some s => s | None => SIGTERM end].
Proof.
  intros (Hp & Hk & Hs & Ht). unfold kill. rewrite Hk, Hp. simpl.
  unfold clearTimeout, set_killed, send. simpl.
  destruct (timeoutId d); simpl; rewrite Hs; unfold terminated; simpl;
    repeat split; auto.
Qed.

Lemma expire_live (d : driver) :
  live d -> timerArmed d = true ->
  terminated (expire d) /\ signals (expire d) = [SIGTERM].
Proof.
  intros (Hp & Hk & Hs & _) Ht. unfold expire. rewrite Ht. simpl. rewrite Hk, Hp.
  unfold terminated; simpl; repeat split; rewrite ?Hs; auto.
Qed.

(** C8.  After a successful start, any non-empty sequence of [kill()] calls
    and timer expiries sends exactly one signal and leaves the timer
    disarmed; a further [kill()], or a late expiry, changes nothing.  When
    the kills use the default argument the signal is SIGTERM. *)
Theorem kill_idempotent (opt_timeout : option Z) (o : op) (ops : list op) :
  Forall terminating (o :: ops) ->
  let d := run (start new opt_timeout) (o :: ops) in
  length (signals d) = 1%nat /\
  timerArmed d = false /\
  isKilled d = true /\
  (forall sig, kill sig d = d) /\
  expire d = d /\
  (default_signal o -> signals d = [SIGTERM]).
Proof.
  intros Hall d. apply Forall_cons_1 in Hall as [Ho Hops].
  pose proof (start_live opt_timeout) as Hlive.
  assert (terminated (step (start new opt_timeout) o) /\
          (default_signal o -> signals (step (start new opt_timeout) o) = [SIGTERM]))
    as [Hterm Hsig].
  { destruct o as [sig | | code]; simpl in *.
    - destruct (kill_live _ sig Hlive) as [Ht Hs]. split; [exact Ht |].
      destruct sig; [contradiction | intros _; exact Hs].
    - destruct (expire_live _ Hlive eq_refl) as [Ht Hs]. split; [exact Ht | auto].
    - contradiction. }
  assert (d = step (start new opt_timeout) o) as Hd.
  { unfold d, run. simpl. apply (run_terminated ops _ Hops Hterm). }
  rewrite Hd. destruct Hterm as (Hp & Hk & Ht & Hn).
  repeat split; try assumption.
  - intros sig. apply kill_terminated. repeat split; assumption.
  - apply expire_terminated. repeat split; assumption.
Qed.

(** Two kills, the timer expiry racing between them, then a third kill. *)
Lemma kill_idempotent_witness :
  let d := run (start new None) [op_kill None; op_expire; op_kill None; op_kill None] in
  length (signals d) = 1%nat /\ timerArmed d = false /\ isKilled d = true /\
  (forall sig, kill sig d = d) /\ expire d = d /\
  (default_signal (op_kill None) -> signals d = [SIGTERM]).
Proof.
  apply (kill_idempotent None (op_kill None) [op_expire; op_kill None; op_kill None]).
  repeat constructor.
Defined.

End Termination.

(* ===================================================================== *)
(** ** The session manager: [getOrCreate] *)
(* ===================================================================== *)

Section SessionIdempotence.
Import Session.

(** The entry of [id] after a call: the session id returned is the one
    stored, and [lastUsedAt] is a reading of the clock made by the call. *)
Lemma getOrCreate_entry (O : oracle) (w : world) (mgr : SessionManager)
    (id : jstr) (m : option jstr) :
  exists e k,
    get (getOrCreate O w mgr id m).1.2 id = Some e /\
    claudeSessionId e = (getOrCreate O w mgr id m).1.1 /\
    lastUsedAt e = now O k /\
    (now_calls w <= k)%nat /\
    (k < now_calls (getOrCreate O w mgr id m).2)%nat.
Proof.
  unfold getOrCreate, get.
  destruct (sessions mgr !! id) as [existing |] eqn:E; simpl.
  - eexists _, (now_calls w). rewrite lookup_insert_eq.
    repeat split; simpl; lia.
  - eexists _, (S (now_calls w)). rewrite lookup_insert_eq.
    repeat split; simpl; lia.
Qed.

(** A call on an id that has an entry returns the stored session id. *)
Lemma getOrCreate_existing (O : oracle) (w : world) (mgr : SessionManager)
    (id : jstr) (m : option jstr) (e : SessionMapping) :
  get mgr id = Some e ->
  (getOrCreate O w mgr id m).1.1 = claudeSessionId e.
Proof. unfold getOrCreate, get. intros ->. reflexivity. Qed.

Lemma getOrCreate_each_spec (O : oracle) (Hmono : monotone_clock O)
    (models : list (option jstr)) :
  forall (w : world) (mgr : SessionManager) (id : jstr) (e : SessionMapping) (k : nat),
    get mgr id = Some e -> lastUsedAt e = now O k -> (k < now_calls w)%nat ->
    forall i a, getOrCreate_each O w mgr id models !! i = Some a ->
      a.1 = claudeSessionId e /\
      exists t, a.2 = Some t /\ (lastUsedAt e <= t)%Z.
Proof using Type.
  induction models as [| m rest IH]; intros w mgr id e k He Hk Hlt i a Hi.
  - destruct i; discriminate.
  - simpl in Hi.
    destruct (getOrCreate O w mgr id m) as [[sid mgr'] w'] eqn:G.
    pose proof (getOrCreate_entry O w mgr id m) as (e' & k' & He' & Hsid & Ht & Hle & Hlt').
    pose proof (getOrCreate_existing O w mgr id m e He) as Hret.
    rewrite G in He', Hsid, Hlt', Hret. simpl in *.
    assert (lastUsedAt e <= lastUsedAt e')%Z as Hmon.
    { rewrite Hk, Ht. apply Hmono. lia. }
    destruct i as [| i]; simpl in Hi.
    + inversion Hi; subst a; clear Hi. simpl. split; [exact Hret |].
      rewrite He'. simpl. eauto.
    + destruct (IH w' mgr' id e' k' He' Ht Hlt' i a Hi) as [Hs (t & Ha & Hle')].
      split; [congruence |]. exists t. split; [exact Ha | lia].
Qed.

Lemma getOrCreate_each_sorted (O : oracle) (Hmono : monotone_clock O)
    (models : list (option jstr)) :
  forall (w : world) (mgr : SessionManager) (id : jstr) (e : SessionMapping) (k : nat),
    get mgr id = Some e -> lastUsedAt e = now O k -> (k < now_calls w)%nat ->
    forall i j a b, (i <= j)%nat ->
      getOrCreate_each O w mgr id models !! i = Some a ->
      getOrCreate_each O w mgr id models !! j = Some b ->
      a.1 = b.1 /\ exists ta tb, a.2 = Some ta /\ b.2 = Some tb /\ (ta <= tb)%Z.
Proof using Type.
  induction models as [| m rest IH]; intros w mgr id e k He Hk Hlt i j a b Hij Hi Hj.
  - destruct i; discriminate.
  - simpl in Hi, Hj.
    destruct (getOrCreate O w mgr id m) as [[sid mgr'] w'] eqn:G.
    pose proof (getOrCreate_entry O w mgr id m) as (e' & k' & He' & Hs' & Ht' & _ & Hlt').
    rewrite G in He', Hs', Hlt'. simpl in *.
    pose proof (getOrCreate_each_spec O Hmono rest w' mgr' id e' k' He' Ht' Hlt') as Hrest.
    destruct i as [| i], j as [| j]; simpl in Hi, Hj; try lia.
    + inversion Hi; inversion Hj; subst. split; [reflexivity |].
      rewrite He'. simpl. exists (lastUsedAt e'), (lastUsedAt e'). repeat split; lia.
    + inversion Hi; subst a; clear Hi. simpl.
      destruct (Hrest j b Hj) as [Hb (t & Hbt & Hle)].
      split; [congruence |]. rewrite He'. simpl. eauto.
    + apply (IH w' mgr' id e' k' He' Ht' Hlt' i j a b); [lia | assumption ..].
Qed.

(** C9.  With a clock that never goes back: two successive
    [getOrCreate(id)] calls return the same session id, and the [lastUsedAt]
    stored for [id] after the second call is not before the one stored after
    the first; more generally, over any number of successive calls the
    session id returned stays the same and the stored [lastUsedAt] never
    decreases. *)
Theorem getOrCreate_idempotent (O : oracle) (w : world) (mgr : SessionManager)
    (id : jstr) (m1 m2 : option jstr) (models : list (option jstr)) :
  monotone_clock O ->
  (let '(sid1, mgr1, w1) := getOrCreate O w mgr id m1 in
   let '(sid2, mgr2, w2) := getOrCreate O w1 mgr1 id m2 in
   sid1 = sid2 /\
   exists e1 e2,
     get mgr1 id = Some e1 /\ get mgr2 id = Some e2 /\
     claudeSessionId e1 = sid1 /\ claudeSessionId e2 = sid1 /\
     (lastUsedAt e1 <= lastUsedAt e2)%Z) /\
  (forall i j a b, (i <= j)%nat ->
     getOrCreate_each O w mgr id models !! i = Some a ->
     getOrCreate_each O w mgr id models !! j = Some b ->
     a.1 = b.1 /\ exists ta tb, a.2 = Some ta /\ b.2 = Some tb /\ (ta <= tb)%Z).
Proof.
  intros Hmono. split.
  - destruct (getOrCreate O w mgr id m1) as [[sid1 mgr1] w1] eqn:G1.
    destruct (getOrCreate O w1 mgr1 id m2) as [[sid2 mgr2] w2] eqn:G2.
    pose proof (getOrCreate_entry O w mgr id m1) as (e1 & k1 & He1 & Hs1 & Ht1 & _ & Hlt1).
    rewrite G1 in He1, Hs1, Hlt1. simpl in *.
    pose proof (getOrCreate_entry O w1 mgr1 id m2) as (e2 & k2 & He2 & Hs2 & Ht2 & Hle2 & _).
    pose proof (getOrCreate_existing O w1 mgr1 id m2 e1 He1) as Hret.
    rewrite G2 in He2, Hs2, Hret. simpl in *.
    split; [congruence |]. exists e1, e2. repeat split; try assumption.
    + congruence.
    + rewrite Ht1, Ht2. apply Hmono. lia.
  - intros i j a b Hij Hi Hj.
    destruct models as [| m rest]; [destruct i; discriminate |].
    simpl in Hi, Hj.
    destruct (getOrCreate O w mgr id m) as [[sid mgr'] w'] eqn:G.
    pose proof (getOrCreate_entry O w mgr id m) as (e & k & He & Hs & Ht & _ & Hlt).
    rewrite G in He, Hs, Hlt. simpl in *.
    pose proof (getOrCreate_each_spec O Hmono rest w' mgr' id e k He Ht Hlt) as Hrest.
    destruct i as [| i], j as [| j]; simpl in Hi, Hj; try lia.
    + inversion Hi; inversion Hj; subst. split; [reflexivity |].
      rewrite He. simpl. exists (lastUsedAt e), (lastUsedAt e). repeat split; lia.
    + inversion Hi; subst a; clear Hi. simpl.
      destruct (Hrest j b Hj) as [Hb (t & Hbt & Hle)].
      split; [congruence |]. rewrite He. simpl. eauto.
    + apply (getOrCreate_each_sorted O Hmono rest w' mgr' id e k He Ht Hlt i j a b);
        [lia | assumption ..].
Qed.

(** Three calls for the conversation "c1" on an empty manager, with the
    clock reading 0, 1, 2, ... *)
Lemma getOrCreate_idempotent_witness :
  let O := {| uuidv4 := fun n => of_N (N.of_nat n); now := fun n => Z.of_nat n |} in
  monotone_clock O /\
  forall i j a b, (i <= j)%nat ->
    getOrCreate_each O world0 Session.empty (lit "c1") [None; None; None] !! i = Some a ->
    getOrCreate_each O world0 Session.empty (lit "c1") [None; None; None] !! j = Some b ->
    a.1 = b.1 /\ exists ta tb, a.2 = Some ta /\ b.2 = Some tb /\ (ta <= tb)%Z.
Proof.
  intros O.
  assert (monotone_clock O) as Hm by (intros i j Hij; simpl; lia).
  split; [exact Hm |].
  exact (proj2 (getOrCreate_idempotent O world0 Session.empty (lit "c1") None None
                  [None; None; None] Hm)).
Defined.

End SessionIdempotence.

(* ===================================================================== *)
(** ** The response dispatcher *)
(* ===================================================================== *)

Section Dispatcher.
Import ToolProtocol CliToOpenai Routes Inputs.

(** *** Non-streaming mode *)

(** Close without a result and with nothing sent: one 500 envelope that
    cites the exit code. *)
Lemma nonStreaming_close_without_result (O : oracle) (w : world)
    (requestId : jstr) (code : option Z) :
  run (nonStreaming O requestId) (init w) [close code]
  = (push (call_json 500 (exited_without_response code)) (init w), None).
Proof. reflexivity. Qed.

(** An error, then close without a result: the envelope of the error and
    nothing else. *)
Lemma nonStreaming_error_then_close (O : oracle) (w : world)
    (requestId message : jstr) (code : option Z) :
  run (nonStreaming O requestId) (init w) [error message; close code]
  = (push (call_json 500 (server_error (Text message))) (init w), None).
Proof. reflexivity. Qed.

(** C4, at the failing input.  The timeout fires (["error"]), the last line
    of the killed process still carries its result, then the process
    closes: the ["close"] listener finds [finalResult] set and calls
    [res.json] although the 500 envelope is sent.  The result is not
    suppressed: the call is refused by the response, and the exception
    leaves the listener uncaught. *)
Theorem nonStreaming_result_after_error_not_suppressed
    (O : oracle) (w : world) (requestId : jstr) :
  let timed_out := lit "Request timed out after 300000ms" in
  let '(h, uncaught) :=
    run (nonStreaming O requestId) (init w)
        [error timed_out; result_event hello; close None] in
  bodies (res h) = [(500, server_error (Text timed_out))] /\
  finalResult h = Some hello /\
  uncaught = Some ERR_HTTP_HEADERS_SENT.
Proof. repeat split. Qed.

(** *** Buffered replay (tools active) *)

(** C5, at the failing input.  The deltas carry one tool call, the result
    event has an empty [result]: the chosen text is the buffer and
    [parseToolCalls] extracts one call from it; the JSON body nevertheless
    says "stop", because [cliResultToOpenaiWithTools] parses [result.result]
    again instead of the chosen text.  The streaming path, on the same
    events, ends with "tool_calls". *)
Theorem toolAware_json_finish_reason_ignores_buffer
    (O : oracle) (w : world) (requestId : jstr) :
  let '(h, uncaught) :=
    run (toolAware O requestId false) (init w) deltas_then_empty_result in
  let '(hs, _) :=
    run (toolAware O requestId true) (init w) deltas_then_empty_result in
  let chosen := responseTextOf (finalResult h) (bufferedText h) in
  uncaught = None /\
  chosen = one_call /\
  length (toolCalls (fst (parseToolCalls O w chosen))) = 1%nat /\
  finish_reasons (res h) = [lit "stop"] /\
  finish_reasons (res hs) = [lit "tool_calls"].
Proof. vm_compute. repeat split. Qed.




End Dispatcher.

(* ===================================================================== *)
(** ** Prompt synthesis *)
(* ===================================================================== *)

Section Prompt.
Import ToolProtocol OpenaiToCli Routes Inputs.
Local Open Scope js_scope.

(** *** Purity *)

Lemma cli_input_prompt (r : jsval) (p : jstr) (tools : bool) (c : CliInput) :
  (let* m := get r "model" in
   let* a := extractModel m in
   let* user := get r "user" in
   Ok {| prompt := p; model := a; sessionId := user; cli_hasTools := tools |})
  = Ok c ->
  prompt c = p.
Proof.
  intros H.
  apply bind_ok in H as (m & _ & H). apply bind_ok in H as (a & _ & H).
  apply bind_ok in H as (u & _ & H). inversion H. reflexivity.
Qed.

(** C7, as stated, fails for [openaiToCli]: with equal [messages] and
    [tools], [tool_choice] decides whether the tool manifest is part of the
    prompt. *)
Lemma prompt_depends_on_tool_choice :
  let r1 := Some (weather_request "sonnet" "none") in
  let r2 := Some (weather_request "sonnet" "auto") in
  get r1 "messages" = get r2 "messages" /\
  get r1 "tools" = get r2 "tools" /\
  Spec.promptOf r1 = Ok (lit "hi") /\
  Spec.promptOf r1 <> Spec.promptOf r2.
Proof.
  split; [reflexivity |]. split; [reflexivity |].
  split; [vm_compute; reflexivity | vm_compute; discriminate].
Qed.

(** What [openaiToCli] reads of the request to build the prompt. *)
Lemma promptOf_reads (r : jsval) :
  Spec.promptOf r =
  Js.bind (openaiToCli r) (fun c => Ok (prompt c)).
Proof. unfold Spec.promptOf. destruct (openaiToCli r); reflexivity. Qed.

(** C7, amended.  The prompt of [openaiToCli] is a function of
    ([messages], [tools], [tool_choice]): two requests that agree on these
    three fields and for which [openaiToCli] returns have equal prompts,
    whatever their other fields ([model], [user], [stream], ...); and that
    prompt is [messagesToPrompt] of the messages and of the tools, or of
    null when [tool_choice] is "none".  [messagesToPrompt] reads nothing but
    its two arguments. *)
Theorem prompt_pure (r1 r2 : jsval) (c1 c2 : CliInput) :
  get r1 "messages" = get r2 "messages" ->
  get r1 "tools" = get r2 "tools" ->
  get r1 "tool_choice" = get r2 "tool_choice" ->
  openaiToCli r1 = Ok c1 ->
  openaiToCli r2 = Ok c2 ->
  prompt c1 = prompt c2 /\
  exists messages tools choice,
    get r1 "messages" = Ok (Some (JArr messages)) /\
    get r1 "tools" = Ok tools /\
    get r1 "tool_choice" = Ok choice /\
    messagesToPrompt messages
      (if is_str choice "none" then None else nonempty_array tools)
    = Ok (prompt c1).
Proof.
  intros Hm Ht Hc H1 H2.
  unfold openaiToCli, hasTools in H1, H2. rewrite Hm, Ht, Hc in H1.
  assert (exists messages tools choice p,
            get r2 "messages" = Ok (Some (JArr messages)) /\
            get r2 "tools" = Ok tools /\
            get r2 "tool_choice" = Ok choice /\
            messagesToPrompt messages
              (if is_str choice "none" then None else nonempty_array tools) = Ok p /\
            prompt c1 = p /\ prompt c2 = p) as (ms & tools & choice & p & E).
  { destruct (get r2 "tools") as [tools |] eqn:Et; simpl in *; [| discriminate].
    destruct (get r2 "tool_choice") as [choice |] eqn:Ec; simpl in *.
    2:{ destruct (nonempty_array tools); simpl in *; [discriminate |].
        destruct r2 as [[] |]; discriminate. }
    destruct (get r2 "messages") as [[[] |] |] eqn:Em; simpl in *;
      try (destruct (nonempty_array tools); simpl in *;
           try destruct (is_str choice "none"); simpl in *; discriminate).
    exists xs, tools, choice.
    destruct (nonempty_array tools) as [ts |] eqn:En; simpl in *.
    - destruct (is_str choice "none") eqn:Es; simpl in *.
      + destruct (messagesToPrompt xs None) as [p |] eqn:Ep; simpl in *;
          [| discriminate].
        exists p. repeat split; try reflexivity.
        * apply (cli_input_prompt _ _ _ _ H1).
        * apply (cli_input_prompt _ _ _ _ H2).
      + destruct (messagesToPrompt xs (Some ts)) as [p |] eqn:Ep; simpl in *;
          [| discriminate].
        exists p. repeat split; try reflexivity.
        * apply (cli_input_prompt _ _ _ _ H1).
        * apply (cli_input_prompt _ _ _ _ H2).
    - assert (messagesToPrompt xs (if is_str choice "none" then None else None)
              = messagesToPrompt xs None) as -> by (destruct (is_str choice "none"); reflexivity).
      destruct (messagesToPrompt xs None) as [p |] eqn:Ep; simpl in *;
        [| discriminate].
      exists p. repeat split; try reflexivity.
      * apply (cli_input_prompt _ _ _ _ H1).
      * apply (cli_input_prompt _ _ _ _ H2). }
  destruct E as (Em & Et & Ec & Ep & E1 & E2).
  split; [congruence |].
  exists ms, tools, choice. rewrite Hm, Ht, Hc, E1. auto.
Qed.

(** Two requests that differ in [model] only. *)
Lemma prompt_pure_witness :
  exists c1 c2,
    openaiToCli (Some (weather_request "sonnet" "auto")) = Ok c1 /\
    openaiToCli (Some (weather_request "claude-haiku-4" "auto")) = Ok c2 /\
    model c1 <> model c2 /\
    prompt c1 = prompt c2.
Proof.
  eexists _, _.
  split; [vm_compute; reflexivity |].
  split; [vm_compute; reflexivity |].
  split; [discriminate |].
  refine (proj1 (prompt_pure (Some (weather_request "sonnet" "auto"))
                   (Some (weather_request "claude-haiku-4" "auto")) _ _
                   eq_refl eq_refl eq_refl eq_refl eq_refl)).
Defined.

End Prompt.

(* ===================================================================== *)
(** ** Prompt synthesis is not total *)
(* ===================================================================== *)

Section PromptThrows.
Import ToolProtocol OpenaiToCli Routes.
Local Open Scope js_scope.

(** A property read that succeeded means the value is neither null nor
    undefined, so any other read on it succeeds too. *)
Lemma get_ok_other (v : jsval) (k k' : string) (x : jsval) :
  get v k = Ok x -> exists y, get v k' = Ok y.
Proof.
  destruct v as [[] |]; simpl; intros H; try discriminate; eauto.
Qed.

Local Arguments Js.get : simpl never.
Local Arguments Js.is_str : simpl never.
Local Arguments lowerToolCall : simpl never.
Local Arguments lowerAssistant : simpl never.
Local Arguments extractText : simpl never.
Local Arguments formatToolResults : simpl never.
Local Arguments buildToolInstructions : simpl never.

Lemma foldM_throws {A S} (f : S -> A -> result S) (x : A) (xs : list A) :
  In x xs -> (forall acc, exists e, f acc x = Throw e) ->
  forall acc, exists e, foldM f xs acc = Throw e.
Proof.
  intros Hin Hx. induction xs as [| y ys IH]; intros acc; [destruct Hin |].
  simpl. destruct Hin as [-> | Hin].
  - destruct (Hx acc) as [e ->]. simpl. eauto.
  - destruct (f acc y) as [acc' | e]; simpl; [apply IH, Hin | eauto].
Qed.

Local Arguments foldM : simpl never.

Lemma lowerToolCall_throws (tc : json) (fn : jsval) (args : jstr) :
  get (Some tc) "function" = Ok fn ->
  get fn "arguments" = Ok (Some (JStr args)) ->
  JSON_parse args = None ->
  lowerToolCall tc = Throw (SyntaxError args).
Proof.
  intros Hfn Hargs Hparse. unfold lowerToolCall.
  destruct (get_ok_other _ _ "id" _ Hfn) as [id ->]. simpl.
  rewrite Hfn. simpl.
  destruct (get_ok_other _ _ "name" _ Hargs) as [name ->]. simpl.
  rewrite Hargs. simpl.
  unfold JSON_parse_val. simpl. rewrite Hparse. reflexivity.
Qed.

Lemma lowerAssistant_throws (msg : json) :
  Spec.malformed_arguments msg -> exists e, lowerAssistant msg = Throw e.
Proof.
  intros (calls & tc & fn & args & _ & Hcalls & Hin & Hfn & Hargs & Hparse).
  unfold lowerAssistant. rewrite Hcalls. simpl.
  destruct (get_ok_other _ _ "content" _ Hcalls) as [content ->]. simpl.
  destruct calls as [| c0 calls]; [destruct Hin |]. simpl nonempty_array. cbv iota.
  destruct (if truthy content
            then let* text := extractText content in Ok (text ++ nl)
            else Ok []) as [leading | e]; simpl; [| eauto].
  destruct (foldM_throws
              (fun acc tc => let* block := lowerToolCall tc in Ok (acc ++ block))
              tc (c0 :: calls) Hin) with (acc := leading) as [e He].
  { intros acc. rewrite (lowerToolCall_throws tc fn args Hfn Hargs Hparse).
    simpl. eauto. }
  rewrite He. simpl. eauto.
Qed.

(** The messages [takeTools] collects have the role "tool"; the others are
    left, in order. *)
Lemma takeTools_split (ms run rest : list json) :
  takeTools ms = Ok (run, rest) ->
  ms = run ++ rest /\
  Forall (fun m => exists role, get (Some m) "role" = Ok role /\ is_str role "tool" = true) run.
Proof.
  revert run rest. induction ms as [| m ms IH]; intros run rest H; simpl in H.
  - inversion H. split; [reflexivity | constructor].
  - destruct (get (Some m) "role") as [role | e] eqn:Er; simpl in H; [| discriminate].
    destruct (is_str role "tool") eqn:Et.
    + destruct (takeTools ms) as [[a b] | e] eqn:E; simpl in H; [| discriminate].
      inversion H; subst. destruct (IH a rest eq_refl) as [-> Hall].
      split; [reflexivity |]. constructor; eauto.
    + inversion H; subst. split; [reflexivity | constructor].
Qed.

Lemma malformed_not_tool (msg : json) (role : jsval) :
  Spec.malformed_arguments msg ->
  get (Some msg) "role" = Ok role ->
  is_str role "system" = false /\ is_str role "user" = false /\
  is_str role "assistant" = true /\ is_str role "tool" = false.
Proof.
  intros (calls & tc & fn & args & Hrole & _) Hr.
  rewrite Hrole in Hr. inversion Hr. repeat split; reflexivity.
Qed.

(** The loop reaches every assistant message: the messages before it are
    lowered or skipped, a run of tool messages stops in front of it. *)
Lemma flatten_throws (msg : json) (Hbad : Spec.malformed_arguments msg) :
  forall (fuel : nat) (messages : list json) (parts : list jstr),
    (length messages <= fuel)%nat -> In msg messages ->
    exists e, flatten fuel messages parts = Throw e.
Proof using Type.
  induction fuel as [| f IH]; intros messages parts Hlen Hin.
  - destruct messages; [destruct Hin | simpl in Hlen; lia].
  - destruct messages as [| m rest]; [destruct Hin |]. simpl in Hlen. simpl.
    destruct (get (Some m) "role") as [role | e] eqn:Er; simpl; [| eauto].
    destruct Hin as [-> | Hin].
    + destruct (malformed_not_tool msg role Hbad Er) as (-> & -> & -> & _).
      destruct (lowerAssistant_throws msg Hbad) as [e ->]. simpl. eauto.
    + destruct (is_str role "system").
      { destruct (get (Some m) "content") as [content | e]; simpl; [| eauto].
        destruct (extractText content) as [text | e]; simpl; [| eauto].
        apply IH; [lia | exact Hin]. }
      destruct (is_str role "user").
      { destruct (get (Some m) "content") as [content | e]; simpl; [| eauto].
        destruct (extractText content) as [text | e]; simpl; [| eauto].
        apply IH; [lia | exact Hin]. }
      destruct (is_str role "assistant").
      { destruct (lowerAssistant m) as [block | e]; simpl; [| eauto].
        apply IH; [lia | exact Hin]. }
      destruct (is_str role "tool").
      2:{ apply IH; [lia | exact Hin]. }
      destruct (takeTools rest) as [[run rest'] | e] eqn:Et; simpl; [| eauto].
      destruct (formatToolResults (m :: run)) as [block | e]; simpl; [| eauto].
      destruct (takeTools_split rest run rest' Et) as [-> Hall].
      apply IH.
      * rewrite length_app in Hlen. lia.
      * apply in_app_or in Hin as [Hin | Hin]; [| exact Hin].
        exfalso. rewrite Forall_forall in Hall.
        destruct (Hall msg) as (r & Hr & Htool).
        { apply list_elem_of_In, Hin. }
        destruct (malformed_not_tool msg r Hbad Hr) as (_ & _ & _ & Hno).
        congruence.
Qed.

Lemma messagesToPrompt_throws (messages : list json) (tools : option (list json))
    (msg : json) :
  In msg messages -> Spec.malformed_arguments msg ->
  exists e, messagesToPrompt messages tools = Throw e.
Proof.
  intros Hin Hbad. unfold messagesToPrompt.
  destruct (match tools with
            | Some (t :: ts) => let* i := buildToolInstructions (t :: ts) in Ok [i]
            | _ => Ok []
            end) as [parts | e]; simpl; [| eauto].
  destruct (flatten_throws msg Hbad (length messages) messages parts (le_n _) Hin)
    as [e ->].
  simpl. eauto.
Qed.

(** C10.  When the messages of a request contain an assistant message with
    a tool call whose [function.arguments] string is not JSON,
    [messagesToPrompt] throws whatever the tools, [openaiToCli] throws, and
    [handleChatCompletions] answers 500 with a [server_error] envelope that
    carries the message of the exception, not the 400 of the validation. *)
Theorem malformed_arguments_answer_500 (O : oracle) (w : world) (body : jsval)
    (messages : list json) (msg : json) :
  get body "messages" = Ok (Some (JArr messages)) ->
  In msg messages ->
  Spec.malformed_arguments msg ->
  (forall tools, exists e, messagesToPrompt messages tools = Throw e) /\
  (exists e, openaiToCli body = Throw e) /\
  (exists e, fst (handleChatCompletions O w body)
             = Responded 500 (server_error (MessageOf e))).
Proof.
  intros Hm Hin Hbad.
  assert (forall tools, exists e, messagesToPrompt messages tools = Throw e) as Hp.
  { intros tools. apply (messagesToPrompt_throws messages tools msg Hin Hbad). }
  assert (exists e, openaiToCli body = Throw e) as [e He].
  { unfold openaiToCli, hasTools.
    destruct (get_ok_other _ _ "tools" _ Hm) as [tools ->]. simpl.
    destruct (get_ok_other _ _ "tool_choice" _ Hm) as [choice Hc].
    destruct (nonempty_array tools) as [ts |]; simpl.
    - rewrite Hc. simpl. destruct (negb (is_str choice "none")); simpl;
        rewrite Hm; simpl.
      + destruct (Hp (Some ts)) as [e ->]. simpl. eauto.
      + destruct (Hp None) as [e ->]. simpl. eauto.
    - rewrite Hm. simpl. destruct (Hp None) as [e ->]. simpl. eauto. }
  split; [exact Hp |]. split; [eauto |].
  exists e. unfold handleChatCompletions.
  destruct (short_id O w) as [requestId w1].
  destruct (get_ok_other _ _ "stream" _ Hm) as [s ->].
  rewrite Hm. simpl.
  destruct messages as [| m0 ms]; [destruct Hin |]. simpl.
  rewrite He. reflexivity.
Qed.

(** A request whose second message calls a tool with the arguments
    [{not json}]. *)
Lemma malformed_arguments_answer_500_witness :
  exists e, fst (handleChatCompletions Inputs.counting world0
                   (Some Inputs.malformed_request))
            = Responded 500 (server_error (MessageOf e)).
Proof.
  refine (proj2 (proj2 (malformed_arguments_answer_500 Inputs.counting world0
                          (Some Inputs.malformed_request) _ Inputs.malformed_turn
                          eq_refl (or_intror (or_introl eq_refl)) _))).
  set (fn := Inputs.obj [("name", Inputs.str "f");
                         ("arguments", Inputs.str "{not json}")]%string).
  set (tc := Inputs.obj [("id", Inputs.str "a"); ("type", Inputs.str "function");
                         ("function", fn)]%string).
  exists [tc], tc, (Some fn), (lit "{not json}").
  split; [reflexivity |]. split; [reflexivity |]. split; [left; reflexivity |].
  split; [reflexivity |]. split; reflexivity.
Defined.

End PromptThrows.

(* ===================================================================== *)
(** ** Response parsing ([parseToolCalls]) *)
(* ===================================================================== *)

Section ParseToolCalls.
Import ToolProtocol Inputs.

Lemma skip_ws_length (s : jstr) : (length (skip_ws s) <= length s)%nat.
Proof.
  induction s as [| c t IH]; simpl; [lia |].
  destruct (is_space c); simpl; lia.
Qed.

Lemma cons_fst_some {A B} (a : A) (r : option (list A * B)) (l : list A) (b : B) :
  cons_fst a r = Some (l, b) -> exists l', l = a :: l' /\ r = Some (l', b).
Proof.
  destruct r as [[l' b'] |]; simpl; intros H; inversion H; eauto.
Qed.

(** Every match consumes at least its two tags. *)
Lemma find_close_shorter (s body rest : jstr) :
  find_close s = Some (body, rest) -> (length rest < length s)%nat.
Proof.
  revert body. induction s as [| c t IH]; intros body H; cbn [find_close] in H;
    [discriminate |].
  destruct ((c =? 125) && starts_with CLOSE_TAG (skip_ws t)).
  - inversion H; subst. rewrite length_drop. pose proof (skip_ws_length t).
    cbn [length]. lia.
  - apply cons_fst_some in H as (l' & _ & H). apply IH in H. cbn [length]. lia.
Qed.

Lemma match_call_shorter (s body rest : jstr) :
  match_call s = Some (body, rest) -> (length rest < length s)%nat.
Proof.
  unfold match_call. destruct (starts_with OPEN_TAG s); [| discriminate].
  destruct (skip_ws (drop (length OPEN_TAG) s)) as [| c t] eqn:E; [discriminate |].
  destruct (c =? 123); [| discriminate].
  intros H. apply cons_fst_some in H as (l' & _ & H).
  apply find_close_shorter in H.
  pose proof (skip_ws_length (drop (length OPEN_TAG) s)) as Hs.
  rewrite E, length_drop in Hs. cbn [length] in *. lia.
Qed.

Lemma exec_shorter (s body rest : jstr) :
  exec s = Some (body, rest) -> (length rest < length s)%nat.
Proof.
  induction s as [| c t IH]; cbn [exec].
  - destruct (match_call []) as [r |] eqn:E; [| discriminate].
    intros H. inversion H; subst. apply match_call_shorter in E. exact E.
  - destruct (match_call (c :: t)) as [r |] eqn:E.
    + intros H. inversion H; subst. apply match_call_shorter in E. exact E.
    + intros H. apply IH in H. cbn [length]. lia.
Qed.

Lemma after_first_shorter (p s rest : jstr) :
  after_first p s = Some rest -> (length rest <= length s)%nat.
Proof.
  induction s as [| c t IH]; cbn [after_first].
  - destruct (starts_with p []); [| discriminate].
    intros H. inversion H. rewrite length_drop. cbn [length]. lia.
  - destruct (starts_with p (c :: t)).
    + intros H. inversion H. rewrite length_drop. cbn [length]. lia.
    + intros H. apply IH in H. cbn [length]. lia.
Qed.

Lemma match_block_shorter (s rest : jstr) :
  match_block s = Some rest -> (length rest < length s)%nat.
Proof.
  unfold match_block. destruct (starts_with OPEN_TAG s) eqn:E; [| discriminate].
  intros H. apply after_first_shorter in H. rewrite length_drop in H.
  apply starts_with_prefix in E.
  apply (f_equal length) in E. rewrite length_app, length_drop in E.
  change (length OPEN_TAG) with 11%nat in *. lia.
Qed.

(** Every text has its list of matches. *)
Lemma all_matches_exists (s : jstr) : exists bodies, Spec.all_matches s bodies.
Proof.
  remember (length s) as n eqn:Hn. revert s Hn.
  induction n as [n IH] using lt_wf_ind. intros s Hn.
  destruct (exec s) as [[body rest] |] eqn:E.
  - destruct (IH (length rest)) with (s := rest) as [bodies Hb];
      [subst n; apply (exec_shorter s body rest E) | reflexivity |].
    exists (body :: bodies). econstructor; eassumption.
  - exists []. constructor. exact E.
Qed.

Lemma all_matches_unique (s : jstr) (l1 l2 : list jstr) :
  Spec.all_matches s l1 -> Spec.all_matches s l2 -> l1 = l2.
Proof.
  intros H1. revert l2. induction H1 as [s E | s body rest bodies E _ IH];
    intros l2 H2; inversion H2; subst; try congruence.
  assert (body0 = body /\ rest0 = rest) as [-> ->] by (split; congruence).
  f_equal. apply IH. assumption.
Qed.

(** The loop of [parseToolCalls] ends by itself, with fuel to spare, having
    read the matches in order. *)
Lemma scan_calls_spec (O : oracle) (s : jstr) (bodies : list jstr) :
  Spec.all_matches s bodies ->
  forall (fuel : nat) (w : world) (acc : list tool_call),
    (length s < fuel)%nat ->
    scan_calls fuel O s w acc
    = (acc ++ fst (Spec.calls_of_bodies O w bodies),
       snd (Spec.calls_of_bodies O w bodies)).
Proof.
  induction 1 as [s E | s body rest bodies E _ IH]; intros fuel w acc Hlen.
  - destruct fuel; [lia |]. cbn [scan_calls Spec.calls_of_bodies fst snd].
    rewrite E, app_nil_r. reflexivity.
  - destruct fuel; [lia |]. cbn [scan_calls Spec.calls_of_bodies]. rewrite E.
    destruct (call_of_body O w body) as [c w1].
    rewrite IH by (apply exec_shorter in E; lia).
    destruct (Spec.calls_of_bodies O w1 bodies) as [cs w2]. cbn [fst snd].
    rewrite <- app_assoc. destruct c; reflexivity.
Qed.

Lemma strip_blocks_spec (fuel : nat) :
  forall s : jstr, (length s < fuel)%nat ->
    Spec.without_blocks s (strip_blocks fuel s).
Proof.
  induction fuel as [| f IH]; intros s Hlen; [lia |].
  destruct s as [| c t]; cbn [strip_blocks]; [constructor |].
  destruct (match_block (c :: t)) as [rest |] eqn:E.
  - apply Spec.without_block with (rest := rest); [exact E |].
    apply IH. apply match_block_shorter in E. cbn [length] in *. lia.
  - apply Spec.without_char; [exact E |]. apply IH. cbn [length] in Hlen. lia.
Qed.

Lemma without_blocks_unique (s o1 o2 : jstr) :
  Spec.without_blocks s o1 -> Spec.without_blocks s o2 -> o1 = o2.
Proof.
  intros H1. revert o2.
  induction H1 as [| s rest out E _ IH | c s out E _ IH]; intros o2 H2.
  - inversion H2; subst; [reflexivity |].
    match goal with H : match_block [] = Some _ |- _ => discriminate H end.
  - inversion H2; subst.
    + discriminate E.
    + assert (rest0 = rest) as -> by congruence. apply IH. assumption.
    + congruence.
  - inversion H2; subst.
    + congruence.
    + f_equal. apply IH. assumption.
Qed.

(** A body that is not JSON gives no call and leaves the world as it is. *)
Lemma call_of_body_malformed (O : oracle) (w : world) (body : jstr) :
  JSON_parse body = None -> call_of_body O w body = (None, w).
Proof. intros H. unfold call_of_body. rewrite H. reflexivity. Qed.

(** [parseToolCalls] returns on every text: its calls are those of the
    successive matches of the call pattern, its text what the removal of
    the blocks leaves, trimmed, or null. *)
Lemma parseToolCalls_by_matches (O : oracle) (w : world) (text : jstr) :
  exists bodies out,
    Spec.all_matches text bodies /\
    Spec.without_blocks text out /\
    parseToolCalls O w text
    = ({| toolCalls := fst (Spec.calls_of_bodies O w bodies);
          textContent := if is_nil (trim out) then None else Some (trim out) |},
       snd (Spec.calls_of_bodies O w bodies)).
Proof.
  destruct (all_matches_exists text) as [bodies Hb].
  exists bodies, (strip_blocks (S (length text)) text).
  split; [exact Hb |].
  split; [apply strip_blocks_spec; lia |].
  unfold parseToolCalls.
  rewrite (scan_calls_spec O text bodies Hb) by lia. reflexivity.
Qed.

(** C6, at the failing input
    [<tool_call>{bad</tool_call><tool_call>{"name":"f","arguments":{}}</tool_call>].
    The text has two blocks; the body of the first is not JSON, the second
    is well formed, and [parseToolCalls] extracts its call when it is given
    that block alone.  On the whole text it returns no call: the call
    pattern wants a closing brace in front of the closing tag, so its first
    match runs from the first opening tag to the end of the second block,
    the captured body fails to parse, and the well-formed block is skipped
    with the malformed one.  The removal pattern stops at the nearest
    closing tag and removes both blocks.  The example of the claim,
    [<tool_call>{not json}</tool_call> real text], is handled as the claim
    says. *)
Theorem parseToolCalls_unclosed_brace_loses_next_block (O : oracle) (w : world) :
  unclosed_then_call = lit "<tool_call>{bad</tool_call>" ++ one_call /\
  Spec.blocks (S (length unclosed_then_call)) unclosed_then_call
    = [lit "{bad"; lit "{" ++ q "name" ++ lit ":" ++ q "f" ++ lit ","
                   ++ q "arguments" ++ lit ":{}}"] /\
  map Spec.well_formed (Spec.blocks (S (length unclosed_then_call)) unclosed_then_call)
    = [false; true] /\
  map tc_name (toolCalls (fst (parseToolCalls O w one_call)))
    = [Some (JStr (lit "f"))] /\
  exec unclosed_then_call
    = Some (lit "{bad</tool_call><tool_call>{" ++ q "name" ++ lit ":" ++ q "f"
            ++ lit "," ++ q "arguments" ++ lit ":{}}", []) /\
  parseToolCalls O w unclosed_then_call
    = ({| toolCalls := []; textContent := None |}, w) /\
  ~ Spec.honours_well_formed_blocks O w unclosed_then_call /\
  parseToolCalls O w malformed_block
    = ({| toolCalls := []; textContent := Some (lit "real text") |}, w).
Proof.
  split; [reflexivity |].
  split; [vm_compute; reflexivity |]. split; [vm_compute; reflexivity |].
  split; [vm_compute; reflexivity |]. split; [vm_compute; reflexivity |].
  split; [destruct w; vm_compute; reflexivity |].
  split; [| destruct w; vm_compute; reflexivity].
  unfold Spec.honours_well_formed_blocks. vm_compute. discriminate.
Qed.

End ParseToolCalls.

(* ===================================================================== *)
(** ** [JSON.parse] reads back what [JSON.stringify] writes *)
(* ===================================================================== *)

Section JsonRoundTrip.

(** *** Strings *)

Lemma hex_val_digit (n : N) : n < 16 -> hex_val (hex_digit n) = Some n.
Proof.
  intros H. unfold hex_digit, hex_val.
  destruct (n <? 10) eqn:E.
  - apply N.ltb_lt in E.
    replace ((48 <=? 48 + n) && (48 + n <=? 57)) with true.
    + f_equal. lia.
    + symmetry. apply andb_true_intro. split; apply N.leb_le; lia.
  - apply N.ltb_ge in E.
    replace ((48 <=? 87 + n) && (87 + n <=? 57)) with false.
    + replace ((97 <=? 87 + n) && (87 + n <=? 102)) with true.
      * f_equal. lia.
      * symmetry. apply andb_true_intro. split; apply N.leb_le; lia.
    + symmetry. apply andb_false_iff. right. apply N.leb_gt. lia.
Qed.

Lemma hex4_uescape (c : N) :
  c < 65536 ->
  hex4 (hex_digit (c / 4096 mod 16)) (hex_digit (c / 256 mod 16))
       (hex_digit (c / 16 mod 16)) (hex_digit (c mod 16)) = Some c.
Proof.
  intros H. unfold hex4.
  rewrite !hex_val_digit by (apply N.mod_lt; lia).
  f_equal.
  pose proof (N.div_mod c 16 ltac:(lia)).
  pose proof (N.div_mod (c / 16) 16 ltac:(lia)).
  pose proof (N.div_mod (c / 16 / 16) 16 ltac:(lia)).
  pose proof (N.mod_lt c 16 ltac:(lia)).
  pose proof (N.mod_lt (c / 16) 16 ltac:(lia)).
  pose proof (N.mod_lt (c / 16 / 16) 16 ltac:(lia)).
  assert (c / 16 / 16 / 16 < 16).
  { rewrite !N.Div0.div_div. apply N.Div0.div_lt_upper_bound. lia. }
  assert (c / 256 = c / 16 / 16) as -> by (rewrite N.Div0.div_div; reflexivity).
  assert (c / 4096 = c / 16 / 16 / 16) as -> by (rewrite !N.Div0.div_div; reflexivity).
  rewrite (N.mod_small (c / 16 / 16 / 16) 16) by assumption.
  pose proof (N.div_mod (c / 16 / 16) 16 ltac:(lia)).
  lia.
Qed.

Lemma parse_chars_raw (c : N) (s : jstr) :
  c <> 34 -> c <> 92 -> 32 <= c ->
  parse_chars (c :: s) = cons_fst c (parse_chars s).
Proof.
  intros H1 H2 H3. cbn [parse_chars].
  apply N.eqb_neq in H1, H2. rewrite H1, H2.
  replace (c <? 32) with false by (symmetry; apply N.ltb_ge; exact H3).
  reflexivity.
Qed.

Lemma parse_chars_uescape (c : N) (s : jstr) :
  c < 65536 ->
  parse_chars (uescape c ++ s) = cons_fst c (parse_chars s).
Proof.
  intros H. unfold uescape. cbn [app parse_chars].
  change (92 =? 34) with false. change (92 =? 92) with true.
  change (117 =? 117) with true. cbv iota.
  rewrite (hex4_uescape c H). reflexivity.
Qed.

Lemma parse_chars_escape1 (c : N) (s : jstr) :
  is_high c = false ->
  parse_chars (escape1 c ++ s) = cons_fst c (parse_chars s).
Proof.
  intros Hh. unfold escape1.
  destruct (c =? 8) eqn:E8; [apply N.eqb_eq in E8; subst; reflexivity |].
  destruct (c =? 9) eqn:E9; [apply N.eqb_eq in E9; subst; reflexivity |].
  destruct (c =? 10) eqn:E10; [apply N.eqb_eq in E10; subst; reflexivity |].
  destruct (c =? 12) eqn:E12; [apply N.eqb_eq in E12; subst; reflexivity |].
  destruct (c =? 13) eqn:E13; [apply N.eqb_eq in E13; subst; reflexivity |].
  destruct (c =? 34) eqn:E34; [apply N.eqb_eq in E34; subst; reflexivity |].
  destruct (c =? 92) eqn:E92; [apply N.eqb_eq in E92; subst; reflexivity |].
  apply N.eqb_neq in E34, E92.
  destruct ((c <? 32) || is_high c || is_low c) eqn:E.
  - apply parse_chars_uescape.
    rewrite Hh, orb_false_r in E. apply orb_prop in E as [E | E].
    + apply N.ltb_lt in E. lia.
    + unfold is_low in E. apply andb_prop in E as [_ E]. apply N.leb_le in E. lia.
  - apply orb_false_elim in E as [E _]. apply orb_false_elim in E as [E _].
    apply N.ltb_ge in E. apply parse_chars_raw; assumption.
Qed.

Lemma high_raw (c : N) : is_high c = true -> c <> 34 /\ c <> 92 /\ 32 <= c /\ c < 65536.
Proof.
  unfold is_high. intros H. apply andb_prop in H as [H1 H2].
  apply N.leb_le in H1, H2. lia.
Qed.

Lemma low_raw (c : N) : is_low c = true -> c <> 34 /\ c <> 92 /\ 32 <= c.
Proof.
  unfold is_low. intros H. apply andb_prop in H as [H1 H2].
  apply N.leb_le in H1, H2. lia.
Qed.

(** A quoted string is read back, up to its closing quote. *)
Lemma parse_chars_quote (s rest : jstr) :
  parse_chars (quote_chars s ++ 34 :: rest) = Some (s, rest).
Proof.
  remember (length s) as n eqn:Hn. revert s Hn.
  induction n as [n IH] using lt_wf_ind. intros s Hn.
  destruct s as [| c t]; [reflexivity |].
  cbn [quote_chars]. destruct (is_high c) eqn:Hh.
  - destruct (high_raw c Hh) as (H1 & H2 & H3 & H4).
    destruct t as [| d t'].
    + rewrite parse_chars_uescape by exact H4. reflexivity.
    + destruct (is_low d) eqn:Hl.
      * destruct (low_raw d Hl) as (L1 & L2 & L3).
        cbn [app]. rewrite parse_chars_raw, parse_chars_raw by assumption.
        rewrite (IH (length t')) by (subst n; simpl; lia || reflexivity).
        reflexivity.
      * rewrite <- app_assoc, parse_chars_uescape by exact H4.
        rewrite (IH (length (d :: t'))) by (subst n; simpl; lia || reflexivity).
        reflexivity.
  - rewrite <- app_assoc, parse_chars_escape1 by exact Hh.
    rewrite (IH (length t)) by (subst n; simpl; lia || reflexivity).
    reflexivity.
Qed.

(** *** Numbers *)

Lemma ends_number_digits (rest : jstr) :
  ends_number rest -> read_digits rest = (Decimal.Nil, rest).
Proof.
  destruct rest as [| c t]; simpl; [reflexivity |].
  intros (H & _). rewrite H. reflexivity.
Qed.

Lemma read_digits_chars (u : Decimal.uint) (rest : jstr) :
  read_digits rest = (Decimal.Nil, rest) ->
  read_digits (uint_chars u ++ rest) = (u, rest).
Proof.
  intros Hrest. induction u; cbn [uint_chars app]; [exact Hrest | ..];
    cbn [read_digits]; rewrite IHu; reflexivity.
Qed.

Lemma uint_chars_inj (u v : Decimal.uint) : uint_chars u = uint_chars v -> u = v.
Proof.
  intros E.
  pose proof (read_digits_chars u [] eq_refl) as Hu.
  pose proof (read_digits_chars v [] eq_refl) as Hv.
  rewrite E in Hu. congruence.
Qed.

Lemma uint_chars_revapp (u v : Decimal.uint) :
  uint_chars (Decimal.revapp u v) = List.rev (uint_chars u) ++ uint_chars v.
Proof.
  revert v. induction u; intros v; cbn [Decimal.revapp uint_chars List.rev];
    [reflexivity | ..]; rewrite IHu, <- app_assoc; reflexivity.
Qed.

Lemma uint_chars_app (u v : Decimal.uint) :
  uint_chars (Decimal.app u v) = uint_chars u ++ uint_chars v.
Proof.
  unfold Decimal.app, Decimal.rev. rewrite !uint_chars_revapp.
  cbn [uint_chars]. rewrite app_nil_r, rev_involutive. reflexivity.
Qed.

Lemma uint_chars_length (u : Decimal.uint) :
  length (uint_chars u) = Decimal.nb_digits u.
Proof. induction u; cbn [uint_chars length Decimal.nb_digits]; congruence. Qed.

Lemma uint_chars_digits (u : Decimal.uint) :
  Forall (fun c => is_digit c = true) (uint_chars u).
Proof. induction u; cbn [uint_chars]; constructor; auto. Qed.

(** A run of digits is the text of its own reading. *)
Lemma digits_read (cs : jstr) :
  Forall (fun c => is_digit c = true) cs ->
  uint_chars (fst (read_digits cs)) = cs /\ snd (read_digits cs) = [].
Proof.
  induction 1 as [| c cs Hc _ [IH1 IH2]]; [split; reflexivity |].
  cbn [read_digits]. rewrite Hc.
  destruct (read_digits cs) as [u r]. cbn [fst snd] in *. subst r.
  split; [| reflexivity]. rewrite <- IH1.
  unfold is_digit in Hc. apply andb_prop in Hc as [H1 H2].
  apply N.leb_le in H1, H2.
  assert (c = 48 \/ c = 49 \/ c = 50 \/ c = 51 \/ c = 52 \/ c = 53 \/ c = 54
          \/ c = 55 \/ c = 56 \/ c = 57) as Hc by lia.
  repeat (destruct Hc as [-> | Hc]; [reflexivity |]). subst c. reflexivity.
Qed.

Lemma digits_uint (cs : jstr) :
  Forall (fun c => is_digit c = true) cs -> exists u, uint_chars u = cs.
Proof. intros H. eexists. apply (proj1 (digits_read cs H)). Qed.

Lemma nzhead_no_zero (u v : Decimal.uint) : Decimal.nzhead u <> Decimal.D0 v.
Proof. induction u; simpl; try discriminate; assumption. Qed.

(** The decimal digits of a positive number do not start with a zero. *)
Lemma to_uint_no_leading_zero (p : positive) (v : Decimal.uint) :
  Pos.to_uint p <> Decimal.D0 v.
Proof.
  intros E.
  pose proof (DecimalPos.Unsigned.to_of (Pos.to_uint p)) as H.
  rewrite DecimalPos.Unsigned.of_to in H. simpl in H.
  rewrite E in H at 1. unfold Decimal.unorm in H.
  destruct (Decimal.nzhead (Pos.to_uint p)) eqn:Hz; try discriminate.
  - inversion H; subst. apply (DecimalPos.Unsigned.to_uint_nonzero p). exact E.
  - exact (nzhead_no_zero _ _ Hz).
Qed.

(** The first digit of a positive number, for the tests on the first
    character: a digit that is not zero. *)
Lemma of_N_pos_head (p : positive) :
  exists c t, of_N (Npos p) = c :: t /\ is_digit c = true /\ c <> 48.
Proof.
  unfold of_N. simpl N.to_uint.
  pose proof (DecimalPos.Unsigned.to_uint_nonnil p) as Hn.
  pose proof (to_uint_no_leading_zero p) as Hz.
  destruct (Pos.to_uint p) as [| u | u | u | u | u | u | u | u | u | u];
    try (exfalso; apply Hn; reflexivity);
    try (exfalso; apply (Hz u); reflexivity);
    cbn [uint_chars]; eexists _, _; (split; [reflexivity |]);
    (split; [reflexivity | discriminate]).
Qed.

Lemma of_N_digits (n : N) : Forall (fun c => is_digit c = true) (of_N n).
Proof. apply uint_chars_digits. Qed.

(** [digit+] reads a run of digits that nothing continues. *)
Lemma read_digits1_run (u : Decimal.uint) (rest : jstr) :
  u <> Decimal.Nil ->
  read_digits rest = (Decimal.Nil, rest) ->
  read_digits1 (uint_chars u ++ rest) = Some (u, rest).
Proof.
  intros Hu Hrest. unfold read_digits1. rewrite (read_digits_chars u rest Hrest).
  destruct u; try reflexivity. contradiction.
Qed.

(** The integer part: a run of digits that does not start with a zero. *)
Lemma read_int_run (u : Decimal.uint) (c : N) (t rest : jstr) :
  uint_chars u = c :: t -> c <> 48 ->
  read_digits rest = (Decimal.Nil, rest) ->
  read_int (uint_chars u ++ rest) = Some (u, rest).
Proof.
  intros E Hc Hrest.
  assert (u <> Decimal.Nil) as Hu by (intros ->; discriminate).
  pose proof (read_digits1_run u rest Hu Hrest) as H.
  rewrite E in *. cbn [app] in *. unfold read_int.
  apply N.eqb_neq in Hc. rewrite Hc. exact H.
Qed.

Lemma to_uint_nonnil (n : N) : N.to_uint n <> Decimal.Nil.
Proof.
  destruct n; [discriminate |]. apply DecimalPos.Unsigned.to_uint_nonnil.
Qed.

Lemma of_to_uint (n : N) : N.of_uint (N.to_uint n) = n.
Proof. apply DecimalN.Unsigned.of_to. Qed.

(** Ten times a positive number: one more zero. *)
Lemma of_N_tenfold (p : positive) : of_N (10 * Npos p) = of_N (Npos p) ++ [48].
Proof.
  unfold of_N. change (10 * N.pos p) with (N.pos (10 * p)).
  cbn [N.to_uint]. unfold Pos.to_uint.
  pose proof (DecimalPos.Unsigned.to_ldec_tenfold p) as H.
  change (Pos.to_little_uint (10 * p) = Decimal.D0 (Pos.to_little_uint p)) in H.
  rewrite H. unfold Decimal.rev. cbn [Decimal.revapp].
  rewrite !uint_chars_revapp. cbn [uint_chars]. rewrite app_nil_r. reflexivity.
Qed.

Lemma of_N_zeros (s j : Z) :
  (0 < s)%Z -> (0 <= j)%Z ->
  of_N (Z.to_N (s * 10 ^ j)) = of_N (Z.to_N s) ++ Num.zeros j.
Proof.
  intros Hs Hj. unfold Num.zeros.
  rewrite <- (Z2Nat.id j Hj) at 1. generalize (Z.to_nat j) as n. clear j Hj.
  induction n as [| n IH].
  - cbn [repeat]. rewrite Z.mul_1_r, app_nil_r. reflexivity.
  - rewrite Nat2Z.inj_succ, Z.pow_succ_r by lia.
    replace (s * (10 * 10 ^ Z.of_nat n))%Z with (10 * (s * 10 ^ Z.of_nat n))%Z by ring.
    assert (0 < s * 10 ^ Z.of_nat n)%Z as Hpos by (apply Z.mul_pos_pos; lia).
    rewrite Z2N.inj_mul by lia. change (Z.to_N 10) with 10.
    destruct (Z.to_N (s * 10 ^ Z.of_nat n)) as [| p] eqn:E; [lia |].
    rewrite of_N_tenfold, IH.
    rewrite <- app_assoc. f_equal.
    change [48] with (repeat 48 1). rewrite <- repeat_app.
    replace (n + 1)%nat with (S n) by lia. reflexivity.
Qed.

(** The exponent part is read back. *)
Lemma read_exp_written (x : Z) (rest : jstr) :
  ends_number rest ->
  read_exp (Num.exponent_part x ++ rest) = Some (x, rest).
Proof.
  intros Hrest. unfold Num.exponent_part, read_exp. cbn [app].
  change (101 =? 101) with true. cbn [orb].
  pose proof (read_digits1_run (N.to_uint (Z.abs_N x)) rest (to_uint_nonnil _)
                (ends_number_digits rest Hrest)) as Hr.
  fold (of_N (Z.abs_N x)) in Hr.
  destruct (0 <=? x)%Z eqn:Hx.
  - change (43 =? 45) with false. change (43 =? 43) with true. cbv iota.
    rewrite Hr, of_to_uint. apply Z.leb_le in Hx.
    rewrite N2Z.inj_abs_N, Z.abs_eq by lia. reflexivity.
  - change (45 =? 45) with true. cbv iota.
    rewrite Hr, of_to_uint. apply Z.leb_gt in Hx.
    rewrite N2Z.inj_abs_N, Z.abs_neq by lia. rewrite Z.opp_involutive. reflexivity.
Qed.

(** Without an exponent part, the number ends. *)
Lemma read_exp_none (rest : jstr) : ends_number rest -> read_exp rest = Some (0%Z, rest).
Proof.
  destruct rest as [| c t]; [reflexivity |]. intros (_ & _ & H1 & H2).
  unfold read_exp. apply N.eqb_neq in H1, H2. rewrite H1, H2. reflexivity.
Qed.

Lemma read_frac_none (rest : jstr) :
  ends_number rest -> read_frac rest = Some (Decimal.Nil, rest).
Proof.
  destruct rest as [| c t]; [reflexivity |]. intros (_ & Hp & _).
  unfold read_frac. apply N.eqb_neq in Hp. rewrite Hp. reflexivity.
Qed.

(** What [parse_number] returns, from its three parts. *)
Lemma parse_number_parts (c : N) (t : jstr) (i f : Decimal.uint) (x : Z)
    (s2 s3 s4 : jstr) :
  c <> 45 ->
  read_int (c :: t) = Some (i, s2) ->
  read_frac s2 = Some (f, s3) ->
  read_exp s3 = Some (x, s4) ->
  parse_number (c :: t)
  = Some (JNum (Num.of_decimal false (Z.of_N (N.of_uint (Decimal.app i f)))
                  (x - Z.of_nat (Decimal.nb_digits f))), s4) /\
  parse_number (45 :: c :: t)
  = Some (JNum (Num.of_decimal true (Z.of_N (N.of_uint (Decimal.app i f)))
                  (x - Z.of_nat (Decimal.nb_digits f))), s4).
Proof.
  intros Hc Hi Hf Hx. unfold parse_number.
  apply N.eqb_neq in Hc. rewrite Hc. change (45 =? 45) with true. cbv iota.
  rewrite Hi, Hf, Hx. split; reflexivity.
Qed.

(** The exponent part, or the end of the number, after the digits. *)
Definition ends_digits (s : jstr) : Prop :=
  read_digits s = (Decimal.Nil, s) /\ read_frac s = Some (Decimal.Nil, s).

Lemma ends_digits_rest (rest : jstr) : ends_number rest -> ends_digits rest.
Proof. intros H. split; [apply ends_number_digits | apply read_frac_none]; exact H. Qed.

Lemma ends_digits_exponent (x : Z) (rest : jstr) :
  ends_digits (Num.exponent_part x ++ rest).
Proof. split; reflexivity. Qed.

(** An integer part [a] and a fraction [b], both runs of digits of the
    number [n], before an exponent part or the end of the number. *)
Lemma read_point (n : N) (a b : jstr) (c : N) (t s : jstr) :
  of_N n = a ++ b -> a = c :: t -> c <> 48 -> b <> [] ->
  read_digits s = (Decimal.Nil, s) ->
  exists i f,
    read_int (a ++ 46 :: b ++ s) = Some (i, 46 :: b ++ s) /\
    read_frac (46 :: b ++ s) = Some (f, s) /\
    Decimal.app i f = N.to_uint n /\
    Decimal.nb_digits f = length b.
Proof.
  intros E Ea Hc Hb Hs.
  pose proof (of_N_digits n) as Hd. rewrite E in Hd.
  apply Forall_app in Hd as [Hda Hdb].
  destruct (digits_uint a Hda) as [i Hi]. destruct (digits_uint b Hdb) as [f Hf].
  exists i, f. split; [| split; [| split]].
  - rewrite <- Hi. apply (read_int_run i c t); [rewrite Hi; exact Ea | exact Hc |].
    reflexivity.
  - unfold read_frac. change (46 =? 46) with true. cbv iota.
    rewrite <- Hf. apply read_digits1_run; [| exact Hs].
    intros ->. apply Hb. rewrite <- Hf. reflexivity.
  - apply uint_chars_inj. rewrite uint_chars_app, Hi, Hf. symmetry. exact E.
  - rewrite <- uint_chars_length, Hf. reflexivity.
Qed.

Lemma zeros_uint (j : nat) (u : Decimal.uint) :
  uint_chars (Nat.iter j Decimal.D0 u) = repeat 48 j ++ uint_chars u.
Proof.
  induction j as [| j IH]; [reflexivity |].
  change (Nat.iter (S j) Decimal.D0 u) with (Decimal.D0 (Nat.iter j Decimal.D0 u)).
  cbn [uint_chars repeat app]. rewrite IH. reflexivity.
Qed.

Lemma of_uint_zeros (j : nat) (u : Decimal.uint) :
  N.of_uint (Nat.iter j Decimal.D0 u) = N.of_uint u.
Proof.
  unfold N.of_uint.
  rewrite <- (DecimalPos.Unsigned.of_uint_norm (Nat.iter j Decimal.D0 u)).
  rewrite DecimalFacts.unorm_iter_D0. apply DecimalPos.Unsigned.of_uint_norm.
Qed.

Lemma firstn_head {A} (n : nat) (c : A) (t : list A) :
  (0 < n)%nat -> exists t', firstn n (c :: t) = c :: t'.
Proof. destruct n; [lia |]. intros _. eexists. reflexivity. Qed.

(** The text of a decimal is read back as the Number value of the
    decimal. *)
Lemma parse_number_format (s e10 : Z) (rest : jstr) :
  (0 < s)%Z -> ends_number rest ->
  exists c t,
    Num.format s e10 = c :: t /\ is_digit c = true /\
    parse_number (Num.format s e10 ++ rest)
    = Some (JNum (Num.of_decimal false s e10), rest) /\
    parse_number (45 :: Num.format s e10 ++ rest)
    = Some (JNum (Num.of_decimal true s e10), rest).
Proof.
  intros Hs Hrest. unfold Num.format.
  destruct (Z.to_N s) as [| p] eqn:Ep; [lia |].
  assert (Z.of_N (N.pos p) = s) as Hp by (rewrite <- Ep; apply Z2N.id; lia).
  destruct (of_N_pos_head p) as (c & t & Eds & Hc & Hc0).
  assert (c <> 45) as Hc45.
  { unfold is_digit in Hc. apply andb_prop in Hc as [H1 _]. apply N.leb_le in H1. lia. }
  set (ds := of_N (N.pos p)) in *.
  set (k := Z.of_nat (length ds)).
  set (n := (e10 + k)%Z).
  assert (0 < k)%Z as Hk by (unfold k; rewrite Eds; cbn [length]; lia).
  pose proof (ends_number_digits rest Hrest) as Hrd.
  destruct ((k <=? n)%Z && (n <=? 21)%Z) eqn:C1.
  { (* the digits, then zeros *)
    apply andb_prop in C1 as [C1 _]. apply Z.leb_le in C1.
    assert (ds ++ Num.zeros (n - k) = of_N (Z.to_N (s * 10 ^ (n - k)))) as Htext.
    { rewrite of_N_zeros by lia. rewrite Ep. reflexivity. }
    exists c, (t ++ Num.zeros (n - k)).
    split; [rewrite Eds; reflexivity |]. split; [exact Hc |].
    assert (0 < s * 10 ^ (n - k))%Z as Hpos by (apply Z.mul_pos_pos; lia).
    destruct (Z.to_N (s * 10 ^ (n - k))) as [| p'] eqn:Ep'; [lia |].
    assert (read_int (c :: (t ++ Num.zeros (n - k)) ++ rest)
            = Some (Pos.to_uint p', rest)) as Hi.
    { change (c :: (t ++ Num.zeros (n - k)) ++ rest)
        with (((c :: t) ++ Num.zeros (n - k)) ++ rest).
      rewrite <- Eds, Htext. unfold of_N. cbn [N.to_uint].
      apply (read_int_run (Pos.to_uint p') c (t ++ Num.zeros (n - k)));
        [| exact Hc0 | exact Hrd].
      change (uint_chars (Pos.to_uint p')) with (of_N (N.pos p')).
      rewrite <- Htext, Eds. reflexivity. }
    destruct (parse_number_parts c ((t ++ Num.zeros (n - k)) ++ rest) _ _ _ _ _ _
                Hc45 Hi (read_frac_none rest Hrest) (read_exp_none rest Hrest))
      as [H1 H2].
    rewrite DecimalFacts.app_nil_r in H1, H2. cbn [Decimal.nb_digits] in H1, H2.
    change (N.of_uint (Pos.to_uint p')) with (N.of_uint (N.to_uint (N.pos p'))) in H1, H2.
    rewrite of_to_uint, <- Ep', Z2N.id in H1, H2 by lia.
    assert (forall neg, Num.of_decimal neg (s * 10 ^ (n - k)) (0 - Z.of_nat 0)
                        = Num.of_decimal neg s e10) as Hval.
    { intros neg. unfold Num.of_decimal. cbn [Z.of_nat Z.sub Z.leb Z.compare Z.opp].
      replace (n - k)%Z with e10 in * by (unfold n; lia).
      assert (0 <= e10)%Z as He by (unfold n in C1; lia).
      apply Z.leb_le in He. rewrite He.
      replace (s * 10 ^ e10 <=? 0)%Z with false by (symmetry; apply Z.leb_gt; lia).
      replace (s <=? 0)%Z with false by (symmetry; apply Z.leb_gt; lia).
      change (10 ^ 0)%Z with 1%Z. rewrite Z.mul_1_r. reflexivity. }
    rewrite !Hval in *. rewrite Eds. cbn [app].
    rewrite Eds in Htext. split; [exact H1 | exact H2]. }
  assert (forall i f x,
            Decimal.app i f = Pos.to_uint p ->
            (x - Z.of_nat (Decimal.nb_digits f) = e10)%Z ->
            forall neg,
              Num.of_decimal neg (Z.of_N (N.of_uint (Decimal.app i f)))
                (x - Z.of_nat (Decimal.nb_digits f))
              = Num.of_decimal neg s e10) as Hval.
  { intros i f x E1 E2 neg. rewrite E1, E2.
    change (N.of_uint (Pos.to_uint p)) with (N.of_uint (N.to_uint (N.pos p))).
    rewrite of_to_uint, Hp. reflexivity. }
  destruct ((0 <? n)%Z && (n <=? 21)%Z) eqn:C2.
  { (* the point inside the digits *)
    apply andb_prop in C2 as [C2 C2']. apply Z.ltb_lt in C2. apply Z.leb_le in C2'.
    apply andb_false_iff in C1.
    assert (n < k)%Z as Hnk by (destruct C1 as [C1 | C1]; apply Z.leb_gt in C1; lia).
    clear C1.
    destruct (firstn_head (Z.to_nat n) c t) as [t' Ea]; [lia |].
    rewrite <- Eds in Ea.
    assert (skipn (Z.to_nat n) ds <> []) as Hb.
    { intros E. apply (f_equal (@length _)) in E. rewrite length_skipn in E.
      cbn [length] in E. unfold k in Hnk. lia. }
    destruct (read_point (N.pos p) (firstn (Z.to_nat n) ds) (skipn (Z.to_nat n) ds)
                c t' rest (eq_sym (firstn_skipn _ _)) Ea Hc0 Hb Hrd)
      as (i & f & Hi & Hf & Happ & Hlen).
    exists c, (t' ++ 46 :: skipn (Z.to_nat n) ds).
    split; [rewrite Ea; reflexivity |]. split; [exact Hc |].
    rewrite Ea in Hi |- *. cbn [app] in Hi |- *. rewrite <- app_assoc. cbn [app].
    destruct (parse_number_parts c _ _ _ _ _ _ _ Hc45 Hi Hf (read_exp_none rest Hrest))
      as [H1 H2].
    rewrite !Hval in H1, H2;
      try exact Happ;
      try (rewrite Hlen, length_skipn; unfold n, k in *; lia).
    split; [exact H1 | exact H2]. }
  destruct ((-6 <? n)%Z && (n <=? 0)%Z) eqn:C3.
  { (* zeros after the point *)
    apply andb_prop in C3 as [_ C3]. apply Z.leb_le in C3.
    exists 48, (46 :: Num.zeros (- n) ++ ds).
    split; [reflexivity |]. split; [reflexivity |].
    set (f := Nat.iter (Z.to_nat (- n)) Decimal.D0 (Pos.to_uint p)).
    assert (uint_chars f = Num.zeros (- n) ++ ds) as Ef by apply zeros_uint.
    assert (f <> Decimal.Nil) as Hfn.
    { intros E. rewrite E in Ef. cbn [uint_chars] in Ef.
      rewrite Eds in Ef. destruct (Num.zeros (- n)); discriminate. }
    assert (read_int (48 :: 46 :: (Num.zeros (- n) ++ ds) ++ rest)
            = Some (Decimal.D0 Decimal.Nil, 46 :: (Num.zeros (- n) ++ ds) ++ rest)) as Hi
      by reflexivity.
    assert (read_frac (46 :: (Num.zeros (- n) ++ ds) ++ rest) = Some (f, rest)) as Hf.
    { unfold read_frac. change (46 =? 46) with true. cbv iota.
      rewrite <- Ef. apply read_digits1_run; assumption. }
    assert (48 <> 45) as H48 by discriminate.
    destruct (parse_number_parts 48 _ _ _ _ _ _ _ H48 Hi Hf (read_exp_none rest Hrest))
      as [H1 H2].
    assert (forall neg,
              Num.of_decimal neg
                (Z.of_N (N.of_uint (Decimal.app (Decimal.D0 Decimal.Nil) f)))
                (0 - Z.of_nat (Decimal.nb_digits f))
              = Num.of_decimal neg s e10) as Hval0.
    { intros neg.
      change (Decimal.app (Decimal.D0 Decimal.Nil) f)
        with (Nat.iter 1 Decimal.D0 f).
      rewrite of_uint_zeros. unfold f at 1. rewrite of_uint_zeros.
      change (N.of_uint (Pos.to_uint p)) with (N.of_uint (N.to_uint (N.pos p))).
      rewrite of_to_uint, Hp. f_equal.
      rewrite <- uint_chars_length, Ef, length_app.
      unfold Num.zeros. rewrite repeat_length. unfold n, k in *. lia. }
    rewrite !Hval0 in H1, H2. cbn [app].
    rewrite <- !app_assoc in H1, H2 |- *. split; [exact H1 | exact H2]. }
  (* with an exponent part *)
  rewrite Eds. destruct t as [| c2 t2].
  - exists c, (Num.exponent_part (n - 1)).
    split; [reflexivity |]. split; [exact Hc |].
    assert (read_int (c :: Num.exponent_part (n - 1) ++ rest)
            = Some (Pos.to_uint p, Num.exponent_part (n - 1) ++ rest)) as Hi.
    { change (c :: Num.exponent_part (n - 1) ++ rest)
        with ([c] ++ Num.exponent_part (n - 1) ++ rest).
      rewrite <- Eds. apply (read_int_run (Pos.to_uint p) c []); [exact Eds | exact Hc0 |].
      reflexivity. }
    destruct (parse_number_parts c _ _ _ _ _ _ _ Hc45 Hi
                (proj2 (ends_digits_exponent (n - 1) rest))
                (read_exp_written (n - 1) rest Hrest)) as [H1 H2].
    rewrite !Hval in H1, H2;
      try apply DecimalFacts.app_nil_r;
      try (cbn [Decimal.nb_digits]; unfold n, k; rewrite Eds; cbn [length]; lia).
    split; [exact H1 | exact H2].
  - exists c, (46 :: (c2 :: t2) ++ Num.exponent_part (n - 1)).
    split; [reflexivity |]. split; [exact Hc |].
    assert (c2 :: t2 <> []) as Hb by discriminate.
    destruct (read_point (N.pos p) [c] (c2 :: t2) c [] (Num.exponent_part (n - 1) ++ rest)
                Eds eq_refl Hc0 Hb eq_refl)
      as (i & f & Hi & Hf & Happ & Hlen).
    cbn [app] in Hi, Hf |- *. rewrite <- app_assoc.
    destruct (parse_number_parts c _ _ _ _ _ _ _ Hc45 Hi Hf
                (read_exp_written (n - 1) rest Hrest)) as [H1 H2].
    rewrite !Hval in H1, H2;
      try exact Happ;
      try (rewrite Hlen; unfold n, k; rewrite Eds; cbn [length]; lia).
    split; [exact H1 | exact H2].
Qed.

Lemma number_eqb_eq (x y : Num.number) : Num.eqb x y = true -> x = y.
Proof.
  destruct x as [z | m e | a], y as [z' | m' e' | b]; cbn; try discriminate.
  - intros H. apply Bool.eqb_prop in H. congruence.
  - intros H. apply andb_prop in H as [H1 H2].
    apply Z.eqb_eq in H1, H2. congruence.
  - intros H. apply Bool.eqb_prop in H. congruence.
Qed.

Lemma reads_as_spec (x : Num.number) (c : Z * Z) :
  Num.reads_as x c = true -> (0 < fst c)%Z /\ Num.of_decimal false (fst c) (snd c) = x.
Proof.
  unfold Num.reads_as. intros H. apply andb_prop in H as [H1 H2].
  apply Z.ltb_lt in H1. split; [exact H1 | apply number_eqb_eq, H2].
Qed.

(** A number is read back, when what follows ends it. *)
Lemma parse_number_written (x : Num.number) (rest : jstr) :
  Num.round_trips x = true -> ends_number rest ->
  exists c t,
    num_str x = c :: t /\ (c =? 45) || is_digit c = true /\
    parse_number (num_str x ++ rest) = Some (JNum x, rest).
Proof.
  intros Hx Hrest. unfold num_str.
  destruct x as [[|] | [| p | p] e | neg];
    cbn [Num.round_trips Num.is_finite Num.to_string negb] in *; try discriminate.
  - exists 48, []. split; [reflexivity |].
    split; [reflexivity |].
    assert (48 <> 45) as H48 by discriminate.
    assert (read_int (48 :: rest) = Some (Decimal.D0 Decimal.Nil, rest)) as Hi
      by reflexivity.
    apply (parse_number_parts 48 rest _ _ _ _ _ _ H48 Hi (read_frac_none rest Hrest)
             (read_exp_none rest Hrest)).
  - destruct (Num.digits (Z.pos p) e) as [s e10].
    apply reads_as_spec in Hx as [Hs Hx]. cbn [fst snd] in Hs, Hx.
    destruct (parse_number_format s e10 rest Hs Hrest) as (c & t & E & Hc & H1 & _).
    exists c, t. split; [exact E |]. split; [rewrite Hc; apply orb_true_r |].
    rewrite H1, Hx. reflexivity.
  - destruct (Num.digits (Z.pos p) e) as [s e10].
    apply reads_as_spec in Hx as [Hs Hx]. cbn [fst snd] in Hs, Hx.
    destruct (parse_number_format s e10 rest Hs Hrest) as (c & t & E & Hc & _ & H2).
    exists 45, (Num.format s e10). split; [reflexivity |]. split; [reflexivity |].
    cbn [app]. rewrite H2.
    unfold Num.of_decimal in *.
    destruct (s <=? 0)%Z; [discriminate Hx |].
    destruct (0 <=? e10)%Z; rewrite Hx; reflexivity.
Qed.

(** *** Values *)

Lemma json_nested_ind (P : json -> Prop) :
  P JNull -> (forall b, P (JBool b)) -> (forall x, P (JNum x)) ->
  (forall s, P (JStr s)) ->
  (forall xs, Forall P xs -> P (JArr xs)) ->
  (forall kvs, Forall (fun kv => P (snd kv)) kvs -> P (JObj kvs)) ->
  forall v, P v.
Proof.
  intros Hnull Hbool Hnum Hstr Harr Hobj.
  fix IH 1. intros [| b | n | s | xs | kvs].
  - exact Hnull.
  - apply Hbool.
  - apply Hnum.
  - apply Hstr.
  - apply Harr. induction xs as [| x xs IHxs]; constructor; [apply IH | exact IHxs].
  - apply Hobj. induction kvs as [| [k x] kvs IHkvs]; constructor;
      [apply IH | exact IHkvs].
Qed.

Lemma skip_jws_blank (ws s : jstr) : blank ws -> skip_jws (ws ++ s) = skip_jws s.
Proof.
  induction 1 as [| c ws Hc _ IH]; [reflexivity |].
  cbn [app skip_jws]. rewrite Hc. exact IH.
Qed.

Lemma skip_jws_head (c : N) (s : jstr) : is_jws c = false -> skip_jws (c :: s) = c :: s.
Proof. intros H. cbn [skip_jws]. rewrite H. reflexivity. Qed.

Lemma blank_app (a b : jstr) : blank a -> blank b -> blank (a ++ b).
Proof. apply Forall_app_2. Qed.

Lemma blank_nl : blank nl.
Proof. repeat constructor. Qed.

(** A closing bracket, a closing brace or a comma, after white space, ends
    a number. *)
Lemma ends_number_closer (post rest : jstr) (c : N) :
  blank post -> c = 44 \/ c = 93 \/ c = 125 -> ends_number (post ++ c :: rest).
Proof.
  intros Hpost Hc. destruct Hpost as [| d post Hd _]; cbn [app ends_number].
  - destruct Hc as [-> | [-> | ->]]; repeat split; discriminate.
  - unfold is_jws in Hd.
    apply orb_prop in Hd as [Hd | Hd]; [apply orb_prop in Hd as [Hd | Hd];
      [apply orb_prop in Hd as [Hd | Hd] |] |];
      apply N.eqb_eq in Hd; subst d; repeat split; discriminate.
Qed.

Lemma parse_value_unfold (f : nat) (s : jstr) :
  parse_value (S f) s =
  match skip_jws s with
  | [] => None
  | c :: t =>
      if c =? 110 then expect (lit "null") JNull (c :: t)
      else if c =? 116 then expect (lit "true") (JBool true) (c :: t)
      else if c =? 102 then expect (lit "false") (JBool false) (c :: t)
      else if c =? 34 then
        match parse_chars t with
        | Some (str, r) => Some (JStr str, r)
        | None => None
        end
      else if c =? 91 then
        match skip_jws t with
        | c' :: r =>
            if c' =? 93 then Some (JArr [], r)
            else match parse_elems f t with
                 | Some (xs, r') => Some (JArr xs, r')
                 | None => None
                 end
        | [] => None
        end
      else if c =? 123 then
        match skip_jws t with
        | c' :: r =>
            if c' =? 125 then Some (JObj [], r)
            else match parse_members f t with
                 | Some (ms, r') => Some (JObj (obj_of_members ms), r')
                 | None => None
                 end
        | [] => None
        end
      else if (c =? 45) || is_digit c then parse_number (c :: t)
      else None
  end.
Proof. reflexivity. Qed.

Lemma parse_elems_unfold (f : nat) (s : jstr) :
  parse_elems (S f) s =
  match parse_value f s with
  | None => None
  | Some (x, r) =>
      match skip_jws r with
      | c :: r' =>
          if c =? 44 then cons_fst x (parse_elems f r')
          else if c =? 93 then Some ([x], r')
          else None
      | [] => None
      end
  end.
Proof. reflexivity. Qed.

Lemma parse_members_unfold (f : nat) (s : jstr) :
  parse_members (S f) s =
  match skip_jws s with
  | q :: t =>
      if q =? 34 then
        match parse_chars t with
        | None => None
        | Some (k, r) =>
            match skip_jws r with
            | c :: r1 =>
                if c =? 58 then
                  match parse_value f r1 with
                  | None => None
                  | Some (x, r2) =>
                      match skip_jws r2 with
                      | c' :: r3 =>
                          if c' =? 44 then cons_fst (k, x) (parse_members f r3)
                          else if c' =? 125 then Some ([(k, x)], r3)
                          else None
                      | [] => None
                      end
                  end
                else None
            | [] => None
            end
        end
      else None
  | [] => None
  end.
Proof. reflexivity. Qed.

(** The first character of a number decides that it is read as one. *)
Lemma parse_value_number (f : nat) (c : N) (t : jstr) :
  (c =? 45) || is_digit c = true ->
  parse_value (S f) (c :: t) = parse_number (c :: t).
Proof.
  intros H. rewrite parse_value_unfold.
  assert (c = 45 \/ (48 <= c /\ c <= 57)) as Hc.
  { apply orb_prop in H as [H | H]; [left; apply N.eqb_eq, H |].
    right. unfold is_digit in H. apply andb_prop in H as [H1 H2].
    apply N.leb_le in H1, H2. lia. }
  assert (is_jws c = false) as Hw.
  { unfold is_jws. repeat (apply orb_false_intro); apply N.eqb_neq; lia. }
  rewrite (skip_jws_head c t Hw).
  replace (c =? 110) with false by (symmetry; apply N.eqb_neq; lia).
  replace (c =? 116) with false by (symmetry; apply N.eqb_neq; lia).
  replace (c =? 102) with false by (symmetry; apply N.eqb_neq; lia).
  replace (c =? 34) with false by (symmetry; apply N.eqb_neq; lia).
  replace (c =? 91) with false by (symmetry; apply N.eqb_neq; lia).
  replace (c =? 123) with false by (symmetry; apply N.eqb_neq; lia).
  rewrite H. reflexivity.
Qed.

Lemma of_N_head (n : N) : exists c t, of_N n = c :: t /\ is_digit c = true.
Proof.
  destruct n as [| p]; [exists 48, []; split; reflexivity |].
  destruct (of_N_pos_head p) as (c & t & E & Hc & _). eauto.
Qed.

Lemma format_head (s e10 : Z) :
  exists c t, Num.format s e10 = c :: t /\ is_digit c = true.
Proof.
  unfold Num.format.
  destruct (of_N_head (Z.to_N s)) as (c & t & -> & Hc).
  set (n := (e10 + Z.of_nat (length (c :: t)))%Z).
  destruct ((Z.of_nat (length (c :: t)) <=? n)%Z && (n <=? 21)%Z);
    [eexists _, _; split; [reflexivity | exact Hc] |].
  destruct ((0 <? n)%Z && (n <=? 21)%Z) eqn:C2.
  { apply andb_prop in C2 as [C2 _]. apply Z.ltb_lt in C2.
    destruct (firstn_head (Z.to_nat n) c t) as [t' ->]; [lia |].
    eexists _, _; split; [reflexivity | exact Hc]. }
  destruct ((-6 <? n)%Z && (n <=? 0)%Z); [eexists _, _; split; reflexivity |].
  destruct t; eexists _, _; (split; [reflexivity | exact Hc]).
Qed.

(** The first character of a number: of [null], a sign or a digit. *)
Lemma num_str_head (x : Num.number) :
  exists c t, num_str x = c :: t /\ (c = 110 \/ c = 45 \/ is_digit c = true).
Proof.
  unfold num_str. destruct x as [z | [| p | p] e | neg]; cbn [Num.is_finite Num.to_string].
  - exists 48, []. split; [reflexivity | auto].
  - exists 48, []. split; [reflexivity | auto].
  - destruct (Num.digits (Z.pos p) e) as [s e10].
    destruct (format_head s e10) as (c & t & -> & Hc). eauto 6.
  - destruct (Num.digits (Z.pos p) e) as [s e10]. eauto 6.
  - exists 110, (lit "ull"). split; [reflexivity | auto].
Qed.

Lemma parse_value_skip (f : nat) (ws s : jstr) :
  blank ws -> parse_value (S f) (ws ++ s) = parse_value (S f) s.
Proof.
  intros H. rewrite !parse_value_unfold, (skip_jws_blank ws s H). reflexivity.
Qed.

Lemma expect_written (p : jstr) (v : json) (rest : jstr) :
  expect p v (p ++ rest) = Some (v, rest).
Proof. unfold expect. rewrite starts_with_app, drop_app_length. reflexivity. Qed.

Lemma join_one (sep p : jstr) : join sep [p] = p.
Proof. reflexivity. Qed.

Lemma join_more (sep p q : jstr) (ps : list jstr) :
  join sep (p :: q :: ps) = p ++ sep ++ join sep (q :: ps).
Proof. reflexivity. Qed.

Lemma join_head (sep p : jstr) (ps : list jstr) :
  exists tl, join sep (p :: ps) = p ++ tl.
Proof.
  destruct ps as [| q ps]; [exists []; rewrite join_one, app_nil_r; reflexivity |].
  rewrite join_more. eexists. reflexivity.
Qed.

(** The text of a non-empty array or object: the opening character, the
    parts separated by a comma, the closing character, with the same white
    space before every part and some white space before the end. *)
Lemma wrap_shape (gap indent : jstr) (open close : N) (p : jstr) (ps : list jstr) :
  blank gap -> blank indent ->
  exists pre post,
    blank pre /\ blank post /\
    wrap gap indent open close (p :: ps)
    = open :: pre ++ join (44 :: pre) (p :: ps) ++ post ++ [close].
Proof.
  intros Hgap Hind. unfold wrap. cbn [is_nil].
  destruct gap as [| g gap'] eqn:Eg; cbn [is_nil].
  - exists [], []. repeat split; constructor.
  - exists (nl ++ indent ++ g :: gap'), (nl ++ indent).
    split; [apply blank_app; [apply blank_nl | apply blank_app; assumption] |].
    split; [apply blank_app; [apply blank_nl | assumption] |].
    cbn zeta. rewrite <- !app_assoc. reflexivity.
Qed.

Lemma colon_shape (gap : jstr) : exists cws, colon gap = 58 :: cws /\ blank cws.
Proof.
  unfold colon. destruct (is_nil gap).
  - exists []. split; [reflexivity | constructor].
  - exists [32]. split; [reflexivity | repeat constructor].
Qed.

(** The first character of a value: not white space, not a closing
    bracket or brace. *)
Lemma ser_head (gap indent : jstr) (v : json) :
  exists c s, ser gap indent v = c :: s /\
              is_jws c = false /\ (c =? 93) = false /\ (c =? 125) = false.
Proof.
  destruct v as [| [] | x | str | xs | kvs]; cbn [ser];
    try (eexists _, _; split; [reflexivity | repeat split; reflexivity]).
  - destruct (num_str_head x) as (c & t & -> & Hc).
    exists c, t. split; [reflexivity |].
    assert (c = 110 \/ c = 45 \/ (48 <= c /\ c <= 57)) as Hr.
    { destruct Hc as [Hc | [Hc | Hc]]; [auto | auto |].
      right. right. unfold is_digit in Hc. apply andb_prop in Hc as [H1 H2].
      apply N.leb_le in H1, H2. lia. }
    split; [unfold is_jws; repeat (apply orb_false_intro); apply N.eqb_neq; lia |].
    split; apply N.eqb_neq; lia.
  - unfold wrap. destruct (is_nil _); [| destruct (is_nil gap)];
      eexists _, _; (split; [reflexivity | repeat split; reflexivity]).
  - unfold wrap. destruct (is_nil _); [| destruct (is_nil gap)];
      eexists _, _; (split; [reflexivity | repeat split; reflexivity]).
Qed.

(** *** Objects rebuilt from their members *)

Lemma has_key_false (k : jstr) (o : list (jstr * json)) :
  k ∉ map fst o -> has_key k o = false.
Proof.
  induction o as [| [k' v'] o IH]; intros H; [reflexivity |].
  cbn [map fst] in H. apply not_elem_of_cons in H as [Hne Hin].
  unfold has_key. cbn [existsb fst].
  replace (Str.eqb k' k) with false by (symmetry; apply eqb_neq; congruence).
  apply IH, Hin.
Qed.

Lemma has_key_true (k : jstr) (o : list (jstr * json)) :
  has_key k o = true -> In k (map fst o).
Proof.
  unfold has_key. intros H. apply existsb_exists in H as ([k' v'] & Hin & E).
  cbn [fst] in E. unfold Str.eqb in E. apply bool_decide_eq_true in E. subst k'.
  apply in_map_iff. exists (k, v'). split; [reflexivity | exact Hin].
Qed.

Lemma insert_key_last (k : jstr) (v : json) (o : list (jstr * json)) :
  forallb (fun k' => stays_before k' k) (map fst o) = true ->
  insert_key k v o = o ++ [(k, v)].
Proof.
  induction o as [| [k' v'] o IH]; intros H; [reflexivity |].
  cbn [map fst forallb] in H. apply andb_prop in H as [H1 H2].
  cbn [insert_key app]. rewrite H1, IH by exact H2. reflexivity.
Qed.

Lemma obj_set_fresh (k : jstr) (v : json) (o : list (jstr * json)) :
  k ∉ map fst o -> forallb (fun k' => stays_before k' k) (map fst o) = true ->
  obj_set k v o = o ++ [(k, v)].
Proof.
  intros H1 H2. unfold obj_set. rewrite (has_key_false k o H1).
  apply insert_key_last, H2.
Qed.

Lemma ordered_app (a b : list jstr) :
  ordered (a ++ b) = true ->
  ordered a = true /\ ordered b = true /\
  forall y, In y b -> forallb (fun x => stays_before x y) a = true.
Proof.
  induction a as [| x a IH]; cbn [app ordered forallb].
  - intros H. split; [reflexivity |]. split; [exact H | reflexivity].
  - intros H. apply andb_prop in H as [H1 H2].
    destruct (IH H2) as (Ha & Hb & Hab).
    rewrite forallb_app in H1. apply andb_prop in H1 as [H1a H1b].
    rewrite H1a, Ha. split; [reflexivity |]. split; [exact Hb |].
    intros y Hy. rewrite (Hab y Hy), andb_true_r.
    rewrite forallb_forall in H1b. apply H1b, Hy.
Qed.

Lemma fold_obj_set (ms acc : list (jstr * json)) :
  NoDup (map fst (acc ++ ms)) -> ordered (map fst (acc ++ ms)) = true ->
  fold_left (fun o kv => obj_set (fst kv) (snd kv) o) ms acc = acc ++ ms.
Proof.
  revert acc. induction ms as [| [k v] ms IH]; intros acc H Ho; cbn [fold_left].
  - rewrite app_nil_r. reflexivity.
  - cbn [fst snd]. rewrite obj_set_fresh.
    + rewrite IH; rewrite <- app_assoc; [reflexivity | exact H | exact Ho].
    + rewrite map_app, NoDup_app in H. destruct H as (_ & H & _).
      intros Hin. apply (H k Hin). cbn [map fst]. left.
    + rewrite map_app in Ho. apply ordered_app in Ho as (_ & _ & Ho).
      apply Ho. left. reflexivity.
Qed.

Lemma obj_of_members_nodup (kvs : list (jstr * json)) :
  NoDup (map fst kvs) -> ordered (map fst kvs) = true -> obj_of_members kvs = kvs.
Proof.
  intros H Ho. unfold obj_of_members. rewrite fold_obj_set; [reflexivity | exact H | exact Ho].
Qed.

(** *** Arrays and objects *)

Lemma skip_to_closer (post rest : jstr) (c : N) :
  blank post -> is_jws c = false -> skip_jws (post ++ c :: rest) = c :: rest.
Proof. intros Hp Hc. rewrite (skip_jws_blank post _ Hp). apply skip_jws_head, Hc. Qed.

Lemma parse_elems_written (gap : jstr) (x : json) (xs : list json) :
  Forall (reads_back gap) (x :: xs) -> forallb wf (x :: xs) = true ->
  forallb printable (x :: xs) = true ->
  forall (fuel : nat) (indent pre post rest : jstr),
    (sizes (x :: xs) <= fuel)%nat -> blank indent -> blank pre -> blank post ->
    parse_elems fuel
      (pre ++ join (44 :: pre) (map (ser gap indent) (x :: xs)) ++ post ++ 93 :: rest)
    = Some (x :: xs, rest).
Proof.
  revert x. induction xs as [| y ys IH]; intros x Hall Hwf Hpr fuel indent pre post rest
    Hfuel Hind Hpre Hpost.
  - apply Forall_cons_1 in Hall as [Hx _].
    cbn [forallb] in Hwf. apply andb_prop in Hwf as [Hwx _].
    cbn [forallb] in Hpr. apply andb_prop in Hpr as [Hpx _].
    destruct fuel as [| f]; [cbn [sizes fold_right] in Hfuel; lia |].
    cbn [sizes fold_right] in Hfuel.
    rewrite parse_elems_unfold. cbn [map]. rewrite join_one.
    rewrite (Hx Hwx Hpx f indent pre (post ++ 93 :: rest)); try assumption;
      [| lia | apply ends_number_closer; [assumption | auto]].
    rewrite (skip_to_closer post rest 93 Hpost eq_refl). reflexivity.
  - apply Forall_cons_1 in Hall as [Hx Hall].
    cbn [forallb] in Hwf. apply andb_prop in Hwf as [Hwx Hwf].
    cbn [forallb] in Hpr. apply andb_prop in Hpr as [Hpx Hpr].
    destruct fuel as [| f]; [cbn [sizes fold_right] in Hfuel; lia |].
    change (sizes (x :: y :: ys)) with (S (size x + sizes (y :: ys))) in Hfuel.
    rewrite parse_elems_unfold. cbn [map]. rewrite join_more.
    rewrite <- !app_assoc. cbn [app].
    rewrite (Hx Hwx Hpx f indent pre
               (44 :: pre ++ join (44 :: pre) (ser gap indent y :: map (ser gap indent) ys)
                     ++ post ++ 93 :: rest)); try assumption;
      [| lia | apply (ends_number_closer [] _ 44); [constructor | auto]].
    rewrite skip_jws_head by reflexivity. change (44 =? 44) with true. cbv iota.
    change (ser gap indent y :: map (ser gap indent) ys)
      with (map (ser gap indent) (y :: ys)).
    rewrite (IH y Hall Hwf Hpr f indent pre post rest); try assumption; [| lia].
    reflexivity.
Qed.

Lemma parse_members_written (gap : jstr) (kv : jstr * json) (kvs : list (jstr * json)) :
  Forall (fun kv => reads_back gap (snd kv)) (kv :: kvs) ->
  forallb (fun kv => wf (snd kv)) (kv :: kvs) = true ->
  forallb (fun kv => printable (snd kv)) (kv :: kvs) = true ->
  forall (fuel : nat) (indent pre post rest : jstr),
    (sizes (map snd (kv :: kvs)) <= fuel)%nat ->
    blank indent -> blank pre -> blank post ->
    parse_members fuel
      (pre ++ join (44 :: pre) (map (member_text gap indent) (kv :: kvs))
           ++ post ++ 125 :: rest)
    = Some (kv :: kvs, rest).
Proof.
  revert kv. induction kvs as [| kv' kvs IH]; intros [k x] Hall Hwf Hpr fuel indent pre
    post rest Hfuel Hind Hpre Hpost.
  - apply Forall_cons_1 in Hall as [Hx _]. cbn [snd] in Hx.
    cbn [forallb snd] in Hwf. apply andb_prop in Hwf as [Hwx _].
    cbn [forallb snd] in Hpr. apply andb_prop in Hpr as [Hpx _].
    destruct fuel as [| f]; [cbn [sizes fold_right map] in Hfuel; lia |].
    cbn [sizes fold_right map snd] in Hfuel.
    rewrite parse_members_unfold. cbn [map]. rewrite join_one.
    rewrite (skip_jws_blank pre _ Hpre). unfold member_text, quote.
    destruct (colon_shape gap) as (cws & -> & Hcws).
    rewrite <- !app_assoc. cbn [app].
    rewrite skip_jws_head by reflexivity. change (34 =? 34) with true. cbv iota.
    rewrite <- !app_assoc. cbn [app]. rewrite parse_chars_quote.
    rewrite skip_jws_head by reflexivity. change (58 =? 58) with true. cbv iota.
    rewrite (Hx Hwx Hpx f indent cws (post ++ 125 :: rest)); try assumption;
      [| lia | apply ends_number_closer; [assumption | auto]].
    rewrite (skip_to_closer post rest 125 Hpost eq_refl). reflexivity.
  - apply Forall_cons_1 in Hall as [Hx Hall]. cbn [snd] in Hx.
    cbn [forallb snd] in Hwf. apply andb_prop in Hwf as [Hwx Hwf].
    cbn [forallb snd] in Hpr. apply andb_prop in Hpr as [Hpx Hpr].
    destruct fuel as [| f]; [cbn [sizes fold_right map] in Hfuel; lia |].
    change (sizes (map snd ((k, x) :: kv' :: kvs)))
      with (S (size x + sizes (map snd (kv' :: kvs)))) in Hfuel.
    rewrite parse_members_unfold. cbn [map]. rewrite join_more.
    rewrite (skip_jws_blank pre _ Hpre). unfold member_text at 1, quote.
    destruct (colon_shape gap) as (cws & Ecolon & Hcws). rewrite Ecolon.
    rewrite <- !app_assoc. cbn [app].
    rewrite skip_jws_head by reflexivity. change (34 =? 34) with true. cbv iota.
    rewrite <- !app_assoc. cbn [app]. rewrite parse_chars_quote.
    rewrite skip_jws_head by reflexivity. change (58 =? 58) with true. cbv iota.
    rewrite (Hx Hwx Hpx f indent cws
               (44 :: pre ++ join (44 :: pre)
                              (member_text gap indent kv'
                               :: map (member_text gap indent) kvs)
                     ++ post ++ 125 :: rest)); try assumption;
      [| lia | apply (ends_number_closer [] _ 44); [constructor | auto]].
    rewrite skip_jws_head by reflexivity. change (44 =? 44) with true. cbv iota.
    change (member_text gap indent kv' :: map (member_text gap indent) kvs)
      with (map (member_text gap indent) (kv' :: kvs)).
    rewrite (IH kv' Hall Hwf Hpr f indent pre post rest); try assumption; [| lia].
    reflexivity.
Qed.

Lemma wf_object (kvs : list (jstr * json)) :
  wf (JObj kvs) = true ->
  NoDup (map fst kvs) /\ ordered (map fst kvs) = true /\
  forallb (fun kv => wf (snd kv)) kvs = true.
Proof.
  cbn [wf]. intros H. apply andb_prop in H as [H1 H2]. apply andb_prop in H1 as [H0 H1].
  split; [apply bool_decide_eq_true in H0; exact H0 |]. split; assumption.
Qed.

(** Every value is read back from its text. *)
Lemma parse_value_ser (gap : jstr) : blank gap -> forall v, reads_back gap v.
Proof.
  intros Hgap. apply json_nested_ind.
  - intros _ _ fuel indent ws rest Hfuel _ Hws _.
    destruct fuel as [| f]; [cbn [size] in Hfuel; lia |].
    rewrite (parse_value_skip f ws _ Hws), parse_value_unfold. cbn [ser].
    change (lit "null" ++ rest) with (110 :: (lit "ull" ++ rest)).
    rewrite skip_jws_head by reflexivity. change (110 =? 110) with true. cbv iota.
    apply (expect_written (lit "null")).
  - intros b _ _ fuel indent ws rest Hfuel _ Hws _.
    destruct fuel as [| f]; [cbn [size] in Hfuel; lia |].
    rewrite (parse_value_skip f ws _ Hws), parse_value_unfold.
    destruct b; cbn [ser].
    + change (lit "true" ++ rest) with (116 :: (lit "rue" ++ rest)).
      rewrite skip_jws_head by reflexivity.
      change (116 =? 110) with false. change (116 =? 116) with true. cbv iota.
      apply (expect_written (lit "true")).
    + change (lit "false" ++ rest) with (102 :: (lit "alse" ++ rest)).
      rewrite skip_jws_head by reflexivity.
      change (102 =? 110) with false. change (102 =? 116) with false.
      change (102 =? 102) with true. cbv iota.
      apply (expect_written (lit "false")).
  - intros x _ Hpr fuel indent ws rest Hfuel _ Hws Hrest.
    destruct fuel as [| f]; [cbn [size] in Hfuel; lia |].
    rewrite (parse_value_skip f ws _ Hws). cbn [ser].
    cbn [printable] in Hpr.
    destruct (parse_number_written x rest Hpr Hrest) as (c & t & E & Hc & Hn).
    rewrite E in *. cbn [app] in *.
    rewrite (parse_value_number f c _ Hc). exact Hn.
  - intros str _ _ fuel indent ws rest Hfuel _ Hws _.
    destruct fuel as [| f]; [cbn [size] in Hfuel; lia |].
    rewrite (parse_value_skip f ws _ Hws), parse_value_unfold. cbn [ser].
    unfold quote. cbn [app]. rewrite skip_jws_head by reflexivity.
    change (34 =? 110) with false. change (34 =? 116) with false.
    change (34 =? 102) with false. change (34 =? 34) with true. cbv iota.
    rewrite <- app_assoc. cbn [app]. rewrite parse_chars_quote. reflexivity.
  - intros xs IH Hwf Hpr fuel indent ws rest Hfuel Hind Hws _.
    destruct fuel as [| f]; [cbn [size] in Hfuel; lia |].
    rewrite (parse_value_skip f ws _ Hws), parse_value_unfold. cbn [ser].
    destruct xs as [| x xs].
    + reflexivity.
    + cbn [map].
      destruct (wrap_shape gap indent 91 93 (ser gap (indent ++ gap) x)
                  (map (ser gap (indent ++ gap)) xs) Hgap Hind)
        as (pre & post & Hpre & Hpost & ->).
      cbn [app]. rewrite skip_jws_head by reflexivity.
      change (91 =? 110) with false. change (91 =? 116) with false.
      change (91 =? 102) with false. change (91 =? 34) with false.
      change (91 =? 91) with true. cbv iota.
      rewrite <- !app_assoc. cbn [app].
      pose proof (parse_elems_written gap x xs IH Hwf Hpr f (indent ++ gap) pre post rest)
        as Hp.
      cbn [map] in Hp.
      rewrite (skip_jws_blank pre _ Hpre).
      rewrite Hp; [| cbn [size] in Hfuel; fold (sizes (x :: xs)) in Hfuel; lia
                   | apply blank_app; assumption | assumption | assumption].
      destruct (join_head (44 :: pre) (ser gap (indent ++ gap) x)
                  (map (ser gap (indent ++ gap)) xs)) as [tl ->].
      destruct (ser_head gap (indent ++ gap) x) as (c & t & -> & Hc1 & Hc2 & _).
      cbn [app]. rewrite (skip_jws_head c _ Hc1), Hc2. reflexivity.
  - intros kvs IH Hwf Hpr fuel indent ws rest Hfuel Hind Hws _.
    destruct (wf_object kvs Hwf) as (Hnodup & Hord & Hwfs). cbn [printable] in Hpr.
    destruct fuel as [| f]; [cbn [size] in Hfuel; lia |].
    rewrite (parse_value_skip f ws _ Hws), parse_value_unfold. cbn [ser].
    destruct kvs as [| kv kvs].
    + reflexivity.
    + change (map (fun kv0 : jstr * json =>
                     let '(k, x) := kv0 in
                     quote k ++ colon gap ++ ser gap (indent ++ gap) x) (kv :: kvs))
        with (member_text gap (indent ++ gap) kv
              :: map (member_text gap (indent ++ gap)) kvs).
      destruct (wrap_shape gap indent 123 125 (member_text gap (indent ++ gap) kv)
                  (map (member_text gap (indent ++ gap)) kvs) Hgap Hind)
        as (pre & post & Hpre & Hpost & ->).
      cbn [app]. rewrite skip_jws_head by reflexivity.
      change (123 =? 110) with false. change (123 =? 116) with false.
      change (123 =? 102) with false. change (123 =? 34) with false.
      change (123 =? 91) with false. change (123 =? 123) with true. cbv iota.
      rewrite <- !app_assoc. cbn [app].
      pose proof (parse_members_written gap kv kvs IH Hwfs Hpr f (indent ++ gap) pre post
                    rest) as Hp.
      cbn [map] in Hp.
      rewrite (skip_jws_blank pre _ Hpre).
      rewrite Hp; [| cbn [size] in Hfuel; fold (sizes (map snd (kv :: kvs)));
                      cbn [sizes map fold_right] in *;
                      clear - Hfuel;
                      assert (forall l : list (jstr * json),
                                fold_right (fun x n => S (size x + n)) 0%nat (map snd l)
                                = fold_right (fun kv0 n => S (size (snd kv0) + n)) 0%nat l)
                        as E by (induction l as [| a l IHl]; cbn; [| rewrite IHl]; reflexivity);
                      rewrite E; lia
                   | apply blank_app; assumption | assumption | assumption].
      destruct (join_head (44 :: pre) (member_text gap (indent ++ gap) kv)
                  (map (member_text gap (indent ++ gap)) kvs)) as [tl ->].
      destruct kv as [k x]. unfold member_text at 1, quote. cbn [app].
      rewrite skip_jws_head by reflexivity. change (34 =? 125) with false. cbv iota.
      rewrite (obj_of_members_nodup _ Hnodup Hord). reflexivity.
Qed.

(** *** The fuel of [JSON_parse] is enough *)

Lemma sizes_le_join (sep : jstr) (xs : list json) (parts : list jstr) :
  sep <> [] -> xs <> [] ->
  Forall2 (fun x p => (size x <= length p)%nat) xs parts ->
  (sizes xs <= length (join sep parts) + 1)%nat.
Proof.
  intros Hsep Hne H. induction H as [| x p xs parts Hx Hrest IH]; [congruence |].
  destruct Hrest as [| y q ys qs Hy Hrest'].
  - rewrite join_one. cbn [sizes fold_right]. lia.
  - rewrite join_more, !length_app.
    change (sizes (x :: y :: ys)) with (S (size x + sizes (y :: ys))).
    assert (sizes (y :: ys) <= length (join sep (q :: qs)) + 1)%nat as IH'
      by (apply IH; discriminate).
    destruct sep as [| c sep']; [congruence |]. cbn [length]. lia.
Qed.

Lemma length_wrap (gap indent : jstr) (open close : N) (xs : list json)
    (parts : list jstr) :
  Forall2 (fun x p => (size x <= length p)%nat) xs parts ->
  (S (sizes xs) <= length (wrap gap indent open close parts))%nat.
Proof.
  intros H. unfold wrap. destruct H as [| x p xs parts Hx Hrest].
  - cbn. lia.
  - cbn [is_nil]. destruct (is_nil gap).
    + cbn [length]. rewrite length_app. cbn [length].
      pose proof (sizes_le_join [44] (x :: xs) (p :: parts)) as Hs.
      specialize (Hs ltac:(discriminate) ltac:(discriminate)
                     ltac:(constructor; assumption)).
      lia.
    + cbn zeta. cbn [length]. rewrite !length_app. cbn [length].
      pose proof (sizes_le_join (44 :: nl ++ indent ++ gap) (x :: xs) (p :: parts)) as Hs.
      specialize (Hs ltac:(discriminate) ltac:(discriminate)
                     ltac:(constructor; assumption)).
      lia.
Qed.

Lemma size_le_length (gap : jstr) (v : json) :
  forall indent, (size v <= length (ser gap indent v))%nat.
Proof.
  induction v as [| b | x | str | xs IH | kvs IH] using json_nested_ind;
    intros indent; cbn [ser size].
  - change (length (lit "null")) with 4%nat. lia.
  - destruct b; [change (length (lit "true")) with 4%nat
                | change (length (lit "false")) with 5%nat]; lia.
  - destruct (num_str_head x) as (c & t & -> & _). cbn [length]. lia.
  - unfold quote. cbn [length]. lia.
  - apply length_wrap. induction IH as [| x xs Hx _ IHxs]; cbn [map];
      constructor; [apply Hx | exact IHxs].
  - change (fold_right (fun kv n => S (size (snd kv) + n)) 0%nat kvs)
      with (fold_right (fun kv n => S (size (snd kv) + n)) 0%nat kvs).
    assert (fold_right (fun kv n => S (size (snd kv) + n)) 0%nat kvs
            = sizes (map snd kvs)) as ->.
    { clear. induction kvs as [| a l IHl]; cbn; [| rewrite IHl]; reflexivity. }
    apply length_wrap. induction IH as [| [k x] kvs Hx _ IHkvs]; cbn [map];
      constructor; [| exact IHkvs].
    cbn [snd] in *. rewrite !length_app. specialize (Hx (indent ++ gap)). lia.
Qed.

(** [JSON.parse(JSON.stringify(v, null, gap))] is [v]. *)
Lemma JSON_parse_ser (gap : jstr) (v : json) :
  blank gap -> wf v = true -> printable v = true ->
  JSON_parse (ser gap [] v) = Some v.
Proof.
  intros Hgap Hwf Hpr. unfold JSON_parse.
  pose proof (parse_value_ser gap Hgap v Hwf Hpr (S (length (ser gap [] v))) [] [] [])
    as H.
  cbn [app] in H. rewrite app_nil_r in H. rewrite H; [reflexivity | ..].
  - pose proof (size_le_length gap v []). lia.
  - constructor.
  - constructor.
  - exact I.
Qed.

Lemma JSON_parse_stringify (v : json) :
  wf v = true -> printable v = true -> JSON_parse (stringify v) = Some v.
Proof. apply JSON_parse_ser. constructor. Qed.

Lemma JSON_parse_stringify2 (v : json) :
  wf v = true -> printable v = true -> JSON_parse (stringify2 v) = Some v.
Proof. apply JSON_parse_ser. repeat constructor. Qed.

(** *** What [JSON.parse] returns is a value *)

(** An array index is the decimal text of its number. *)
Lemma array_index_text (k : jstr) (i : N) : array_index k = Some i -> k = of_N i.
Proof.
  unfold array_index. destruct k as [| c t]; [discriminate |].
  destruct (forallb is_digit (c :: t) && (negb (c =? 48) || is_nil t)) eqn:E;
    [| discriminate].
  apply andb_prop in E as [Hd Hcanon].
  assert (Forall (fun c => is_digit c = true) (c :: t)) as Hall
    by (apply Forall_forall; intros x Hx; apply list_elem_of_In in Hx;
        rewrite forallb_forall in Hd; apply Hd, Hx).
  destruct (digits_read (c :: t) Hall) as [Hu _].
  set (u := fst (read_digits (c :: t))) in *. cbv zeta.
  destruct (N.of_uint u <? 4294967295); [| discriminate].
  intros [= <-].
  unfold of_N. rewrite DecimalN.Unsigned.to_of.
  assert (Decimal.unorm u = u) as ->; [| symmetry; exact Hu].
  apply orb_prop in Hcanon as [Hc | Ht].
  - apply negb_true_iff, N.eqb_neq in Hc.
    destruct u; cbn [uint_chars] in Hu; try discriminate Hu; try reflexivity.
    congruence.
  - destruct t; [| discriminate].
    destruct (N.eq_dec c 48) as [-> | Hc].
    + assert (u = Decimal.D0 Decimal.Nil) as ->; [| reflexivity].
      apply uint_chars_inj. exact Hu.
    + destruct u; cbn [uint_chars] in Hu; try discriminate Hu; try reflexivity.
      congruence.
Qed.

Lemma replace_value_keys (k : jstr) (v : json) (o : list (jstr * json)) :
  map fst (replace_value k v o) = map fst o.
Proof.
  induction o as [| [k' v'] o IH]; [reflexivity |]. cbn [replace_value].
  destruct (Str.eqb k' k); cbn [map fst]; [| rewrite IH]; reflexivity.
Qed.

Lemma replace_value_wf (k : jstr) (v : json) (o : list (jstr * json)) :
  wf v = true -> forallb (fun kv => wf (snd kv)) o = true ->
  forallb (fun kv => wf (snd kv)) (replace_value k v o) = true.
Proof.
  intros Hv. induction o as [| [k' v'] o IH]; [reflexivity |].
  cbn [replace_value forallb snd]. intros H. apply andb_prop in H as [H1 H2].
  destruct (Str.eqb k' k); cbn [forallb snd]; [rewrite Hv, H2 | rewrite H1, IH];
    auto.
Qed.

(** Where a new key goes: after the keys that stay before it, in front of
    the first one that does not. *)
Lemma insert_key_split (k : jstr) (v : json) (o : list (jstr * json)) :
  exists a b,
    o = a ++ b /\ insert_key k v o = a ++ (k, v) :: b /\
    forallb (fun k' => stays_before k' k) (map fst a) = true /\
    match b with
    | [] => True
    | kv :: _ => stays_before (fst kv) k = false
    end.
Proof.
  induction o as [| [k' v'] o (a & b & Eo & Ei & Ha & Hb)].
  - exists [], []. repeat split.
  - cbn [insert_key]. destruct (stays_before k' k) eqn:E.
    + exists ((k', v') :: a), b. cbn [app map fst forallb].
      rewrite Eo at 1. rewrite Ei, E, Ha. repeat split. exact Hb.
    + exists [], ((k', v') :: o). repeat split. exact E.
Qed.

Lemma ordered_app_intro (a b : list jstr) :
  ordered a = true -> ordered b = true ->
  (forall x y, In x a -> In y b -> stays_before x y = true) ->
  ordered (a ++ b) = true.
Proof.
  intros Ha Hb Hab. induction a as [| x a IH]; [exact Hb |].
  cbn [app ordered] in *. apply andb_prop in Ha as [Ha1 Ha2].
  rewrite forallb_app, Ha1, IH; [| exact Ha2 | intros; apply Hab; [right |]; assumption].
  cbn [andb]. rewrite andb_true_r. apply forallb_forall. intros y Hy.
  apply Hab; [left; reflexivity | exact Hy].
Qed.

(** A key that does not stay before a new array index comes after it, and
    so do the keys that follow it. *)
Lemma stays_before_flip (k k0 : jstr) :
  k <> k0 -> stays_before k0 k = false -> stays_before k k0 = true.
Proof.
  unfold stays_before. intros Hne H.
  destruct (array_index k) as [i |] eqn:Ei; [| discriminate].
  destruct (array_index k0) as [j |] eqn:Ej; [| reflexivity].
  apply N.ltb_ge in H. apply N.ltb_lt.
  assert (i <> j); [| lia].
  intros ->. apply Hne.
  rewrite (array_index_text _ _ Ei), (array_index_text _ _ Ej). reflexivity.
Qed.

Lemma stays_before_trans (k k0 y : jstr) :
  k <> k0 -> stays_before k0 k = false -> stays_before k0 y = true ->
  stays_before k y = true.
Proof.
  unfold stays_before. intros Hne H Hy.
  destruct (array_index k) as [i |] eqn:Ei; [| discriminate].
  destruct (array_index y) as [jy |] eqn:Ey; [| reflexivity].
  destruct (array_index k0) as [j |] eqn:Ej; [| discriminate].
  apply N.ltb_ge in H. apply N.ltb_lt in Hy. apply N.ltb_lt.
  assert (i <> j); [| lia].
  intros ->. apply Hne.
  rewrite (array_index_text _ _ Ei), (array_index_text _ _ Ej). reflexivity.
Qed.

Lemma insert_key_wf (k : jstr) (v : json) (o : list (jstr * json)) :
  wf v = true -> wf (JObj o) = true -> ~ In k (map fst o) ->
  wf (JObj (insert_key k v o)) = true.
Proof.
  intros Hv Ho Hk. apply wf_object in Ho as (Hnd & Hord & Hwf).
  destruct (insert_key_split k v o) as (a & b & Eo & -> & Ha & Hb). subst o.
  rewrite map_app in Hnd, Hord, Hk.
  rewrite forallb_app in Hwf. apply andb_prop in Hwf as [Hwa Hwb].
  destruct (ordered_app _ _ Hord) as (Hoa & Hob & Hab).
  cbn [wf]. rewrite map_app. cbn [map fst].
  apply andb_true_intro. split; [apply andb_true_intro; split |].
  - apply bool_decide_eq_true.
    apply NoDup_app in Hnd as (Hna & Hdisj & Hnb).
    apply NoDup_app. split; [exact Hna |]. split.
    + intros x Hx Hin. apply elem_of_cons in Hin as [-> | Hin].
      * apply Hk, in_or_app. left. apply list_elem_of_In, Hx.
      * exact (Hdisj x Hx Hin).
    + apply NoDup_cons. split; [| exact Hnb].
      intros Hin. apply Hk, in_or_app. right. apply list_elem_of_In, Hin.
  - apply ordered_app_intro; [exact Hoa | |].
    + cbn [ordered]. rewrite Hob, andb_true_r.
      destruct b as [| [k0 v0] b]; [reflexivity |]. cbn [fst map] in *.
      assert (k <> k0) as Hne by (intros ->; apply Hk, in_or_app; right; left; reflexivity).
      cbn [forallb]. rewrite (stays_before_flip k k0 Hne Hb). cbn [andb].
      apply forallb_forall. intros y Hy.
      cbn [ordered] in Hob. apply andb_prop in Hob as [Hob _].
      rewrite forallb_forall in Hob.
      apply (stays_before_trans k k0 y Hne Hb), Hob, Hy.
    + intros x y Hx [<- | Hy].
      * rewrite forallb_forall in Ha. apply Ha, Hx.
      * specialize (Hab y Hy). rewrite forallb_forall in Hab. apply Hab, Hx.
  - rewrite forallb_app. cbn [forallb snd]. rewrite Hwa, Hv, Hwb. reflexivity.
Qed.

Lemma obj_set_wf (k : jstr) (v : json) (o : list (jstr * json)) :
  wf v = true -> wf (JObj o) = true -> wf (JObj (obj_set k v o)) = true.
Proof.
  intros Hv Ho. unfold obj_set. destruct (has_key k o) eqn:E.
  - apply wf_object in Ho as (Hnd & Hord & Hwf).
    cbn [wf]. rewrite replace_value_keys, Hord, (replace_value_wf k v o Hv Hwf).
    rewrite andb_true_r, andb_true_r. apply bool_decide_eq_true, Hnd.
  - apply insert_key_wf; [exact Hv | exact Ho |].
    intros Hin.
    assert (has_key k o = true) as Ht; [| congruence].
    unfold has_key. apply existsb_exists. apply in_map_iff in Hin as ([k' v'] & Ek & Hin).
    exists (k', v'). split; [exact Hin |]. cbn [fst] in *. subst k'. apply eqb_refl.
Qed.

Lemma obj_of_members_wf (ms : list (jstr * json)) :
  forallb (fun kv => wf (snd kv)) ms = true -> wf (JObj (obj_of_members ms)) = true.
Proof.
  unfold obj_of_members.
  assert (forall acc, wf (JObj acc) = true ->
            forallb (fun kv => wf (snd kv)) ms = true ->
            wf (JObj (fold_left (fun o kv => obj_set (fst kv) (snd kv) o) ms acc)) = true)
    as H.
  { induction ms as [| [k v] ms IH]; intros acc Hacc Hms; cbn [fold_left]; [exact Hacc |].
    cbn [forallb snd] in Hms. apply andb_prop in Hms as [Hv Hms].
    apply IH; [apply obj_set_wf; assumption | exact Hms]. }
  apply H. reflexivity.
Qed.

Lemma cons_fst_forallb {A B} (P : A -> bool) (a : A) (r : option (list A * B))
    (l : list A) (b : B) :
  cons_fst a r = Some (l, b) -> P a = true ->
  (forall l', r = Some (l', b) -> forallb P l' = true) ->
  forallb P l = true.
Proof.
  destruct r as [[l' b'] |]; cbn [cons_fst]; intros H Ha Hr; inversion H; subst.
  cbn [forallb]. rewrite Ha, (Hr l' eq_refl). reflexivity.
Qed.

Lemma parse_number_wf (s : jstr) (v : json) (r : jstr) :
  parse_number s = Some (v, r) -> wf v = true.
Proof.
  unfold parse_number.
  destruct (match s with
            | c :: t => if c =? 45 then (true, t) else (false, s)
            | [] => (false, s)
            end) as [neg s1].
  destruct (read_int s1) as [[i s2] |]; [| discriminate].
  destruct (read_frac s2) as [[f s3] |]; [| discriminate].
  destruct (read_exp s3) as [[x s4] |]; [| discriminate].
  intros H. inversion H. reflexivity.
Qed.

Lemma expect_wf (p : jstr) (v0 : json) (s : jstr) (v : json) (r : jstr) :
  wf v0 = true -> expect p v0 s = Some (v, r) -> wf v = true.
Proof.
  unfold expect. destruct (starts_with p s); [| discriminate].
  intros H0 H. inversion H; subst. exact H0.
Qed.

(** Whatever the text, the value parsed has distinct keys in every object. *)
Lemma parse_wf (fuel : nat) :
  (forall s v r, parse_value fuel s = Some (v, r) -> wf v = true) /\
  (forall s xs r, parse_elems fuel s = Some (xs, r) -> forallb wf xs = true) /\
  (forall s ms r, parse_members fuel s = Some (ms, r) ->
                  forallb (fun kv => wf (snd kv)) ms = true).
Proof.
  induction fuel as [| f (IHv & IHe & IHm)]; [repeat split; discriminate |].
  split; [| split].
  - intros s v r. rewrite parse_value_unfold.
    destruct (skip_jws s) as [| c t]; [discriminate |].
    destruct (c =? 110); [apply expect_wf; reflexivity |].
    destruct (c =? 116); [apply expect_wf; reflexivity |].
    destruct (c =? 102); [apply expect_wf; reflexivity |].
    destruct (c =? 34).
    { destruct (parse_chars t) as [[str r'] |]; [| discriminate].
      intros H. inversion H. reflexivity. }
    destruct (c =? 91).
    { destruct (skip_jws t) as [| c' r']; [discriminate |].
      destruct (c' =? 93); [intros H; inversion H; reflexivity |].
      destruct (parse_elems f t) as [[xs r''] |] eqn:E; [| discriminate].
      intros H. inversion H; subst. cbn [wf]. apply (IHe _ _ _ E). }
    destruct (c =? 123).
    { destruct (skip_jws t) as [| c' r']; [discriminate |].
      destruct (c' =? 125); [intros H; inversion H; reflexivity |].
      destruct (parse_members f t) as [[ms r''] |] eqn:E; [| discriminate].
      intros H. inversion H; subst. apply obj_of_members_wf, (IHm _ _ _ E). }
    destruct ((c =? 45) || is_digit c); [apply parse_number_wf | discriminate].
  - intros s xs r. rewrite parse_elems_unfold.
    destruct (parse_value f s) as [[x r1] |] eqn:E; [| discriminate].
    destruct (skip_jws r1) as [| c r2]; [discriminate |].
    destruct (c =? 44).
    { intros H. apply (cons_fst_forallb wf x _ _ _ H (IHv _ _ _ E)).
      intros l' Hl'. apply (IHe _ _ _ Hl'). }
    destruct (c =? 93); [| discriminate].
    intros H. inversion H; subst. cbn [forallb]. rewrite (IHv _ _ _ E). reflexivity.
  - intros s ms r. rewrite parse_members_unfold.
    destruct (skip_jws s) as [| q t]; [discriminate |].
    destruct (q =? 34); [| discriminate].
    destruct (parse_chars t) as [[k r0] |]; [| discriminate].
    destruct (skip_jws r0) as [| c r1]; [discriminate |].
    destruct (c =? 58); [| discriminate].
    destruct (parse_value f r1) as [[x r2] |] eqn:E; [| discriminate].
    destruct (skip_jws r2) as [| c' r3]; [discriminate |].
    destruct (c' =? 44).
    { intros H.
      apply (cons_fst_forallb (fun kv => wf (snd kv)) (k, x) _ _ _ H (IHv _ _ _ E)).
      intros l' Hl'. apply (IHm _ _ _ Hl'). }
    destruct (c' =? 125); [| discriminate].
    intros H. inversion H; subst. cbn [forallb snd]. rewrite (IHv _ _ _ E). reflexivity.
Qed.

Lemma JSON_parse_wf (s : jstr) (v : json) : JSON_parse s = Some v -> wf v = true.
Proof.
  unfold JSON_parse.
  destruct (parse_value (S (length s)) s) as [[v' r] |] eqn:E; [| discriminate].
  destruct (is_nil (skip_jws r)); [| discriminate].
  intros H. inversion H; subst. apply (proj1 (parse_wf _) _ _ _ E).
Qed.

End JsonRoundTrip.

(* ===================================================================== *)
(** ** The round trip of tool calls through the prompt *)
(* ===================================================================== *)

Section RoundTrip.
Import ToolProtocol OpenaiToCli Inputs.
Local Open Scope js_scope.

(** *** Trimming *)

Lemma skip_ws_head (c : N) (s : jstr) : is_space c = false -> skip_ws (c :: s) = c :: s.
Proof. intros H. cbn [skip_ws]. rewrite H. reflexivity. Qed.

Lemma skip_ws_spaces (ws s : jstr) :
  Forall (fun c => is_space c = true) ws -> skip_ws (ws ++ s) = skip_ws s.
Proof.
  induction 1 as [| c ws Hc _ IH]; [reflexivity |].
  cbn [app skip_ws]. rewrite Hc. exact IH.
Qed.

(** Skipping the white space in front of [a ++ c :: s], where [c] is not
    white space, leaves a suffix of [a] and all of [c :: s]. *)
Lemma skip_ws_stop (a : jstr) (c : N) :
  is_space c = false ->
  exists d a', a = d ++ a' /\ forall s, skip_ws (a ++ c :: s) = a' ++ c :: s.
Proof.
  intros Hc. induction a as [| x a IH]; cbn [app].
  - exists [], []. split; [reflexivity | intros s; apply skip_ws_head, Hc].
  - cbn [skip_ws]. destruct (is_space x) eqn:Ex.
    + destruct IH as (d & a' & -> & E). exists (x :: d), a'. split; [reflexivity | exact E].
    + exists [], (x :: a). split; reflexivity.
Qed.

(** White space in front of a text that does not end it. *)
Lemma skip_ws_nil_app (r s : jstr) : skip_ws r = [] -> skip_ws (r ++ s) = skip_ws s.
Proof.
  induction r as [| x r IH]; [reflexivity |]. cbn [skip_ws app].
  destruct (is_space x); [exact IH | discriminate].
Qed.

Lemma skip_ws_cons_app (r s : jstr) (x : N) (r' : jstr) :
  skip_ws r = x :: r' -> skip_ws (r ++ s) = x :: r' ++ s.
Proof.
  induction r as [| y r IH]; [discriminate |]. cbn [skip_ws app].
  destruct (is_space y); [exact IH |]. intros [= <- <-]. reflexivity.
Qed.

(** A text that ends with a character that is not white space, followed by
    a line feed, loses the line feed and nothing else at its end. *)
Lemma trim_end_nl (s : jstr) (c : N) :
  is_space c = false ->
  rev (skip_ws (rev (s ++ [c; 10]))) = s ++ [c].
Proof.
  intros Hc. rewrite rev_app_distr. cbn [rev app skip_ws].
  change (is_space 10) with true. cbv iota. rewrite Hc.
  change (c :: rev s) with (rev [c] ++ rev s).
  rewrite <- rev_app_distr, rev_involutive. reflexivity.
Qed.

(** *** Occurrences of a tag *)

(** A match of [p] that starts in [a] ends before a character that [p]
    does not contain. *)
Lemma starts_with_before (p a s : jstr) (x : N) :
  ~ In x p -> starts_with p (a ++ x :: s) = true -> starts_with p a = true.
Proof.
  revert a. induction p as [| y p IH]; intros a Hnot H; [reflexivity |].
  destruct a as [| z a]; cbn [app starts_with] in *.
  - apply andb_prop in H as [H _]. apply N.eqb_eq in H. subst y.
    exfalso. apply Hnot. left. reflexivity.
  - apply andb_prop in H as [Hyz H]. rewrite Hyz. cbn [andb].
    apply IH; [| exact H]. intros Hc. apply Hnot. right. exact Hc.
Qed.

Lemma starts_with_app_r (p a b : jstr) :
  starts_with p a = true -> starts_with p (a ++ b) = true.
Proof.
  revert a. induction p as [| y p IH]; intros a H; [reflexivity |].
  destruct a as [| z a]; [discriminate |]. cbn [app starts_with] in *.
  apply andb_prop in H as [Hyz H]. rewrite Hyz. cbn [andb]. apply IH, H.
Qed.

Lemma includes_cons (p : jstr) (c : N) (s : jstr) :
  includes p (c :: s) = false ->
  starts_with p (c :: s) = false /\ includes p s = false.
Proof. cbn [includes]. apply orb_false_elim. Qed.

Lemma includes_suffix (p a b : jstr) :
  includes p (a ++ b) = false -> includes p b = false.
Proof.
  induction a as [| c a IH]; [auto |]. cbn [app]. intros H.
  apply includes_cons in H as [_ H]. apply IH, H.
Qed.

Lemma includes_start (p s : jstr) : starts_with p s = true -> includes p s = true.
Proof. intros H. destruct s; cbn [includes]; rewrite H; reflexivity. Qed.

Lemma includes_prefix (p a b : jstr) :
  includes p (a ++ b) = false -> includes p a = false.
Proof.
  induction a as [| c a IH]; cbn [app]; intros H.
  - destruct p as [| x p]; [destruct b; discriminate H | reflexivity].
  - apply includes_cons in H as [H1 H2]. cbn [includes].
    rewrite (IH H2), orb_false_r.
    destruct (starts_with p (c :: a)) eqn:E; [| reflexivity].
    apply (starts_with_app_r p (c :: a) b) in E. cbn [app] in E. congruence.
Qed.

(** *** The scan over a text without opening tag *)

Lemma OPEN_TAG_no_nl : ~ In 10 OPEN_TAG.
Proof. intros H. repeat (destruct H as [H | H]; [discriminate |]). exact H. Qed.

Lemma CLOSE_TAG_no_brace : ~ In 125 CLOSE_TAG.
Proof. intros H. repeat (destruct H as [H | H]; [discriminate |]). exact H. Qed.

Lemma match_call_none (s : jstr) : starts_with OPEN_TAG s = false -> match_call s = None.
Proof. intros H. unfold match_call. rewrite H. reflexivity. Qed.

Lemma exec_skip (c : N) (s : jstr) :
  starts_with OPEN_TAG (c :: s) = false -> exec (c :: s) = exec s.
Proof. intros H. cbn [exec]. rewrite (match_call_none _ H). reflexivity. Qed.

(** A text without opening tag, up to and including the line feed after
    it, is passed over. *)
Lemma exec_skip_line (a s : jstr) :
  includes OPEN_TAG a = false -> exec (a ++ 10 :: s) = exec s.
Proof.
  induction a as [| c a IH]; intros H; cbn [app].
  - apply exec_skip. reflexivity.
  - apply includes_cons in H as [H1 H2].
    rewrite exec_skip; [apply IH, H2 |].
    destruct (starts_with OPEN_TAG (c :: a ++ 10 :: s)) eqn:E; [| reflexivity].
    apply (starts_with_before OPEN_TAG (c :: a) s 10 OPEN_TAG_no_nl) in E.
    congruence.
Qed.

(** A text without a place where the call pattern starts, up to and
    including the line feed after it, is passed over when an opening angle
    bracket follows. *)
Lemma exec_skip_text (t s : jstr) :
  Spec.opens_call t = false -> exec (t ++ 10 :: 60 :: s) = exec (60 :: s).
Proof.
  induction t as [| c t IH]; intros H; cbn [app].
  - apply exec_skip. reflexivity.
  - cbn [Spec.opens_call] in H. apply orb_false_elim in H as [H1 H2].
    transitivity (exec (t ++ 10 :: 60 :: s)); [| apply IH, H2].
    cbn [exec].
    assert (match_call (c :: t ++ 10 :: 60 :: s) = None) as ->; [| reflexivity].
    unfold match_call.
    destruct (starts_with OPEN_TAG (c :: t ++ 10 :: 60 :: s)) eqn:E; [| reflexivity].
    apply (starts_with_before OPEN_TAG (c :: t) (60 :: s) 10 OPEN_TAG_no_nl) in E.
    rewrite E in H1. cbn [andb] in H1.
    apply starts_with_prefix in E.
    change (c :: t ++ 10 :: 60 :: s) with ((c :: t) ++ 10 :: 60 :: s).
    rewrite E at 1. rewrite <- app_assoc, drop_app_length.
    destruct (skip_ws (drop (length OPEN_TAG) (c :: t))) as [| x r'] eqn:Er.
    + rewrite (skip_ws_nil_app _ _ Er). reflexivity.
    + rewrite (skip_ws_cons_app _ _ _ _ Er), H1. reflexivity.
Qed.

Lemma opens_call_suffix (d a : jstr) :
  Spec.opens_call (d ++ a) = false -> Spec.opens_call a = false.
Proof.
  induction d as [| x d IH]; [auto |]. cbn [app Spec.opens_call]. intros H.
  apply orb_false_elim in H as [_ H]. apply IH, H.
Qed.

(** *** The match of one lowered block *)

(** In a body none of whose closing braces is followed by the closing tag,
    the lazy match runs to the last brace. *)
Lemma find_close_last (u rest : jstr) :
  Spec.closes_early (u ++ [125]) = false ->
  find_close (u ++ 125 :: 10 :: CLOSE_TAG ++ rest) = Some (u ++ [125], rest).
Proof.
  induction u as [| c u IH]; intros H; cbn [app find_close].
  - change (125 =? 125) with true.
    change (skip_ws (10 :: CLOSE_TAG ++ rest)) with (CLOSE_TAG ++ rest).
    rewrite starts_with_app, drop_app_length. reflexivity.
  - cbn [app Spec.closes_early] in H. apply orb_false_elim in H as [H1 H].
    assert ((c =? 125) && starts_with CLOSE_TAG
              (skip_ws (u ++ 125 :: 10 :: CLOSE_TAG ++ rest)) = false) as ->.
    { apply andb_false_iff. apply andb_false_iff in H1 as [H1 | H1]; [left; exact H1 |].
      right.
      destruct (skip_ws_stop u 125 eq_refl) as (d & a' & _ & Hskip).
      rewrite Hskip. rewrite (Hskip []) in H1.
      destruct (starts_with CLOSE_TAG (a' ++ 125 :: 10 :: CLOSE_TAG ++ rest)) eqn:E;
        [| reflexivity].
      apply (starts_with_before CLOSE_TAG a' _ 125 CLOSE_TAG_no_brace) in E.
      apply (starts_with_app_r CLOSE_TAG a' [125]) in E. congruence. }
    rewrite (IH H). reflexivity.
Qed.

(** The block written for a value whose text is [{ u }]. *)
Lemma match_call_block (u rest : jstr) :
  Spec.closes_early (u ++ [125]) = false ->
  match_call (OPEN_TAG ++ 10 :: 123 :: u ++ 125 :: 10 :: CLOSE_TAG ++ 10 :: rest)
  = Some (123 :: u ++ [125], 10 :: rest).
Proof.
  intros H. unfold match_call. rewrite starts_with_app, drop_app_length.
  change (skip_ws (10 :: 123 :: u ++ 125 :: 10 :: CLOSE_TAG ++ 10 :: rest))
    with (123 :: u ++ 125 :: 10 :: CLOSE_TAG ++ 10 :: rest).
  change (123 =? 123) with true. cbv iota.
  rewrite (find_close_last u (10 :: rest) H). reflexivity.
Qed.

Lemma exec_block (u rest : jstr) :
  Spec.closes_early (u ++ [125]) = false ->
  exec (OPEN_TAG ++ 10 :: 123 :: u ++ 125 :: 10 :: CLOSE_TAG ++ 10 :: rest)
  = Some (123 :: u ++ [125], 10 :: rest).
Proof.
  intros H. pose proof (match_call_block u rest H) as E.
  destruct (OPEN_TAG ++ 10 :: 123 :: u ++ 125 :: 10 :: CLOSE_TAG ++ 10 :: rest) eqn:Es;
    cbn [exec]; rewrite E; reflexivity.
Qed.

(** The text of a non-empty object, written with a gap, is [{ u }]. *)
Lemma stringify2_object (kv : jstr * json) (kvs : list (jstr * json)) :
  exists u, stringify2 (JObj (kv :: kvs)) = 123 :: u ++ [125].
Proof.
  unfold stringify2. cbn [ser map]. unfold wrap. cbn [is_nil]. cbn zeta.
  eexists. rewrite !app_assoc. reflexivity.
Qed.

(** *** The matches of the lowered blocks *)

Lemma all_matches_exec (s s' : jstr) (l : list jstr) :
  exec s = exec s' -> Spec.all_matches s' l -> Spec.all_matches s l.
Proof.
  intros E H. inversion H; subst.
  - constructor. congruence.
  - econstructor; [rewrite E; eassumption | assumption].
Qed.

Lemma survives_body (c : Spec.given_call) :
  Spec.survives c ->
  exists u, stringify2 (Spec.lowered c) = 123 :: u ++ [125] /\
            Spec.closes_early (u ++ [125]) = false.
Proof.
  intros (_ & _ & _ & H). unfold Spec.lowered in *.
  destruct (stringify2_object (lit "id", JStr (Spec.given_id c))
              [(lit "name", JStr (Spec.given_name c));
               (lit "arguments", JObj (Spec.given_object c))]) as [u E].
  exists u. split; [exact E |]. rewrite E in H.
  cbn [Spec.closes_early] in H. apply orb_false_elim in H as [_ H]. exact H.
Qed.

Lemma all_matches_blocks (cs : list Spec.given_call) (tail : jstr) :
  Forall Spec.survives cs -> exec tail = None ->
  Spec.all_matches (concat (map Spec.block cs) ++ tail)
                   (map (fun c => stringify2 (Spec.lowered c)) cs).
Proof.
  intros Hall Htail. induction Hall as [| c cs Hc _ IH]; cbn [map concat app].
  - constructor. exact Htail.
  - destruct (survives_body c Hc) as (u & E & Hu).
    apply Spec.matches_cons with (rest := 10 :: concat (map Spec.block cs) ++ tail).
    + unfold Spec.block. rewrite E.
      change (lit "<tool_call>") with OPEN_TAG.
      change (lit "</tool_call>") with CLOSE_TAG.
      unfold nl. rewrite <- !app_assoc. cbn [app]. rewrite <- !app_assoc. cbn [app].
      apply exec_block, Hu.
    + apply (all_matches_exec _ (concat (map Spec.block cs) ++ tail));
        [apply exec_skip; reflexivity | exact IH].
Qed.

(** *** The call read from a lowered block *)

Lemma wf_lowered (c : Spec.given_call) :
  wf (JObj (Spec.given_object c)) = true -> wf (Spec.lowered c) = true.
Proof.
  intros H. unfold Spec.lowered.
  change (wf (JObj [(lit "id", JStr (Spec.given_id c));
                    (lit "name", JStr (Spec.given_name c));
                    (lit "arguments", JObj (Spec.given_object c))]))
    with (bool_decide (NoDup [lit "id"; lit "name"; lit "arguments"])
          && ordered [lit "id"; lit "name"; lit "arguments"]
          && (true && (true && (wf (JObj (Spec.given_object c)) && true)))).
  rewrite H. reflexivity.
Qed.

Lemma printable_lowered (c : Spec.given_call) :
  printable (JObj (Spec.given_object c)) = true -> printable (Spec.lowered c) = true.
Proof.
  intros H. unfold Spec.lowered.
  change (printable (JObj [(lit "id", JStr (Spec.given_id c));
                           (lit "name", JStr (Spec.given_name c));
                           (lit "arguments", JObj (Spec.given_object c))]))
    with (true && (true && (printable (JObj (Spec.given_object c)) && true))).
  rewrite H. reflexivity.
Qed.

Lemma call_of_lowered (O : oracle) (w : world) (c : Spec.given_call) :
  Spec.survives c ->
  call_of_body O w (stringify2 (Spec.lowered c)) = (Some (Spec.returned_call c), w).
Proof.
  intros (Hid & Hparse & Hpr & _). pose proof (JSON_parse_wf _ _ Hparse) as Hwf.
  unfold call_of_body.
  rewrite (JSON_parse_stringify2 _ (wf_lowered c Hwf) (printable_lowered c Hpr)).
  unfold Spec.lowered.
  change (get (Some (JObj [(lit "id", JStr (Spec.given_id c));
                           (lit "name", JStr (Spec.given_name c));
                           (lit "arguments", JObj (Spec.given_object c))])) "id")
    with (Ok (Some (JStr (Spec.given_id c)))).
  change (get (Some (JObj [(lit "id", JStr (Spec.given_id c));
                           (lit "name", JStr (Spec.given_name c));
                           (lit "arguments", JObj (Spec.given_object c))])) "name")
    with (Ok (Some (JStr (Spec.given_name c)))).
  change (get (Some (JObj [(lit "id", JStr (Spec.given_id c));
                           (lit "name", JStr (Spec.given_name c));
                           (lit "arguments", JObj (Spec.given_object c))])) "arguments")
    with (Ok (Some (JObj (Spec.given_object c)))).
  cbn [truthy]. unfold Spec.returned_call.
  destruct (Spec.given_id c) as [| x id]; [congruence |]. reflexivity.
Qed.

Lemma calls_of_lowered (O : oracle) (w : world) (cs : list Spec.given_call) :
  Forall Spec.survives cs ->
  Spec.calls_of_bodies O w (map (fun c => stringify2 (Spec.lowered c)) cs)
  = (map Spec.returned_call cs, w).
Proof.
  induction 1 as [| c cs Hc _ IH]; cbn [map Spec.calls_of_bodies]; [reflexivity |].
  rewrite (call_of_lowered O w c Hc), IH. reflexivity.
Qed.

(** *** Lowering *)

Lemma lowerToolCall_request (c : Spec.given_call) :
  JSON_parse (Spec.given_arguments c) = Some (JObj (Spec.given_object c)) ->
  lowerToolCall (Spec.request_call c) = Ok (Spec.block c).
Proof.
  intros H. unfold lowerToolCall, Spec.request_call.
  change (get (Some (JObj [(lit "id", JStr (Spec.given_id c));
                           (lit "type", JStr (lit "function"));
                           (lit "function",
                            JObj [(lit "name", JStr (Spec.given_name c));
                                  (lit "arguments", JStr (Spec.given_arguments c))])])) "id")
    with (Ok (Some (JStr (Spec.given_id c)))).
  change (get (Some (JObj [(lit "id", JStr (Spec.given_id c));
                           (lit "type", JStr (lit "function"));
                           (lit "function",
                            JObj [(lit "name", JStr (Spec.given_name c));
                                  (lit "arguments", JStr (Spec.given_arguments c))])]))
              "function")
    with (Ok (Some (JObj [(lit "name", JStr (Spec.given_name c));
                          (lit "arguments", JStr (Spec.given_arguments c))]))).
  cbn [Js.bind].
  change (get (Some (JObj [(lit "name", JStr (Spec.given_name c));
                           (lit "arguments", JStr (Spec.given_arguments c))])) "name")
    with (Ok (Some (JStr (Spec.given_name c)))).
  change (get (Some (JObj [(lit "name", JStr (Spec.given_name c));
                           (lit "arguments", JStr (Spec.given_arguments c))])) "arguments")
    with (Ok (Some (JStr (Spec.given_arguments c)))).
  cbn [Js.bind]. unfold JSON_parse_val. cbn [to_string_val to_string].
  rewrite H. reflexivity.
Qed.

Lemma lower_all (cs : list Spec.given_call) (leading : jstr) :
  Forall Spec.survives cs ->
  foldM (fun acc tc => let* block := lowerToolCall tc in Ok (acc ++ block))
        (map Spec.request_call cs) leading
  = Ok (leading ++ concat (map Spec.block cs)).
Proof.
  intros H. revert leading. induction H as [| c cs Hc _ IH]; intros leading;
    cbn [map foldM concat].
  - rewrite app_nil_r. reflexivity.
  - destruct Hc as (_ & Hparse & _).
    rewrite (lowerToolCall_request c Hparse). cbn [Js.bind].
    rewrite IH, <- app_assoc. reflexivity.
Qed.

Lemma blocks_head (c : Spec.given_call) (cs : list Spec.given_call) :
  exists B1, concat (map Spec.block (c :: cs)) = 60 :: B1.
Proof.
  cbn [map concat]. unfold Spec.block at 1.
  change (lit "<tool_call>") with (60 :: lit "tool_call>").
  cbn [app]. eexists. reflexivity.
Qed.

Lemma blocks_end (cs : list Spec.given_call) :
  forall c, exists B0, concat (map Spec.block (c :: cs)) = B0 ++ [62; 10].
Proof.
  induction cs as [| c' cs IH]; intros c.
  - cbn [map concat]. rewrite app_nil_r. unfold Spec.block.
    change (lit "</tool_call>" ++ nl) with (lit "</tool_call" ++ [62; 10]).
    eexists. rewrite !app_assoc. reflexivity.
  - destruct (IH c') as [B0 E]. change (map Spec.block (c :: c' :: cs))
      with (Spec.block c :: map Spec.block (c' :: cs)).
    cbn [concat]. cbn [concat] in E. rewrite E. eexists. rewrite app_assoc. reflexivity.
Qed.

Lemma lowerAssistant_turn (content : option jstr) (c : Spec.given_call)
    (cs : list Spec.given_call) :
  Forall Spec.survives (c :: cs) ->
  lowerAssistant (Spec.assistant_turn content (c :: cs))
  = Ok (lit "<previous_response>" ++ nl
        ++ trim (Spec.leading content ++ concat (map Spec.block (c :: cs)))
        ++ nl ++ lit "</previous_response>" ++ nl).
Proof.
  intros H. unfold lowerAssistant, Spec.assistant_turn.
  change (get (Some (JObj [(lit "role", JStr (lit "assistant"));
                           (lit "content", match content with
                                           | Some text => JStr text
                                           | None => JNull
                                           end);
                           (lit "tool_calls", JArr (map Spec.request_call (c :: cs)))]))
              "tool_calls")
    with (Ok (Some (JArr (map Spec.request_call (c :: cs))))).
  change (get (Some (JObj [(lit "role", JStr (lit "assistant"));
                           (lit "content", match content with
                                           | Some text => JStr text
                                           | None => JNull
                                           end);
                           (lit "tool_calls", JArr (map Spec.request_call (c :: cs)))]))
              "content")
    with (Ok (Some (match content with Some text => JStr text | None => JNull end))).
  cbn [Js.bind]. cbn [map nonempty_array].
  assert ((if truthy (Some (match content with Some text => JStr text | None => JNull end))
           then let* text := extractText
                               (Some (match content with
                                      | Some text => JStr text
                                      | None => JNull
                                      end)) in Ok (text ++ nl)
           else Ok []) = Ok (Spec.leading content)) as ->.
  { destruct content as [[| x t] |]; reflexivity. }
  cbn [Js.bind].
  change (Spec.request_call c :: map Spec.request_call cs)
    with (map Spec.request_call (c :: cs)).
  rewrite (lower_all (c :: cs) _ H). reflexivity.
Qed.

(** What is left of the leading text once the turn is trimmed: nothing, or
    the end of the content and its line feed. *)
Lemma leading_suffix (content : option jstr) (d a : jstr) :
  Spec.plain content -> Spec.leading content = d ++ a ->
  a = [] \/ exists t, a = t ++ [10] /\ Spec.opens_call t = false.
Proof.
  intros Hplain E. destruct a as [| y a0] using rev_ind; [left; reflexivity |].
  right. clear IHa0. destruct content as [[| x t] |]; cbn [Spec.leading] in E.
  - symmetry in E. apply app_eq_nil in E as [_ E].
    apply app_eq_nil in E as [_ E]. discriminate E.
  - unfold nl in E. rewrite app_assoc in E. apply app_inj_tail in E as [E ->].
    exists a0. split; [reflexivity |]. cbn [Spec.plain] in Hplain.
    rewrite E in Hplain. apply opens_call_suffix in Hplain. exact Hplain.
  - symmetry in E. apply app_eq_nil in E as [_ E].
    apply app_eq_nil in E as [_ E]. discriminate E.
Qed.

(** The prompt of an assistant turn with tool calls: the opening line, what
    is left of the leading text, the blocks, the closing line. *)
Lemma prompt_of_turn (content : option jstr) (c : Spec.given_call)
    (cs : list Spec.given_call) :
  Spec.plain content -> Forall Spec.survives (c :: cs) ->
  exists a,
    messagesToPrompt [Spec.assistant_turn content (c :: cs)] None
    = Ok (lit "<previous_response>" ++ 10 :: a ++ concat (map Spec.block (c :: cs))
          ++ lit "</previous_response>") /\
    (a = [] \/ exists t, a = t ++ [10] /\ Spec.opens_call t = false).
Proof.
  intros Hplain Hall.
  destruct (blocks_head c cs) as [B1 Ehead].
  destruct (blocks_end cs c) as [B0 Eend].
  destruct (skip_ws_stop (Spec.leading content) 60 eq_refl) as (d & a & Ed & Eskip).
  specialize (Eskip B1).
  exists a. split; [| apply (leading_suffix content d a Hplain Ed)].
  unfold messagesToPrompt. cbn [Js.bind length flatten].
  change (get (Some (Spec.assistant_turn content (c :: cs))) "role")
    with (Ok (Some (JStr (lit "assistant")))).
  cbn [Js.bind].
  change (is_str (Some (JStr (lit "assistant"))) "system") with false.
  change (is_str (Some (JStr (lit "assistant"))) "user") with false.
  change (is_str (Some (JStr (lit "assistant"))) "assistant") with true.
  cbv iota.
  rewrite (lowerAssistant_turn content c cs Hall). cbn [Js.bind app join].
  f_equal.
  assert (trim (Spec.leading content ++ concat (map Spec.block (c :: cs)))
          = a ++ B0 ++ [62]) as ->.
  { unfold trim. rewrite Ehead, Eskip, <- Ehead, Eend.
    rewrite app_assoc. rewrite (trim_end_nl (a ++ B0) 62 eq_refl).
    rewrite <- app_assoc. reflexivity. }
  unfold trim.
  change (lit "<previous_response>") with (60 :: lit "previous_response>").
  cbn [app]. rewrite skip_ws_head by reflexivity.
  change (lit "</previous_response>" ++ nl) with (lit "</previous_response" ++ [62; 10]).
  change (lit "</previous_response>") with (lit "</previous_response" ++ [62]).
  rewrite Eend.
  match goal with
  | |- rev (skip_ws (rev ?s)) = ?r =>
      assert (s = (60 :: lit "previous_response>" ++ nl ++ (a ++ B0 ++ [62]) ++ nl
                      ++ lit "</previous_response") ++ [62; 10]) as ->
        by (cbn [app]; rewrite <- !app_assoc; reflexivity)
  end.
  rewrite (trim_end_nl _ 62 eq_refl). unfold nl.
  repeat (cbn [app]; rewrite <- ?app_assoc). reflexivity.
Qed.

(** C1, as stated, fails: an argument string that contains a closing brace
    followed by the closing tag ends the lazy match early; the captured
    body is not JSON and the call is lost. *)
Lemma round_trip_closing_tag_in_argument :
  JSON_parse (Spec.given_arguments closing_tag_argument)
    = Some (JObj (Spec.given_object closing_tag_argument)) /\
  (exists p, messagesToPrompt [Spec.assistant_turn None [closing_tag_argument]] None
             = Ok p /\
             toolCalls (fst (parseToolCalls counting world0 p)) = []) /\
  ~ Spec.round_trip counting world0 None [closing_tag_argument].
Proof.
  split; [vm_compute; reflexivity |]. split.
  - eexists. split; [vm_compute; reflexivity |]. vm_compute. reflexivity.
  - intros (p & Hp & Hcalls & _). vm_compute in Hp.
    inversion Hp; subst p. vm_compute in Hcalls. discriminate.
Qed.

Lemma all_matches_prompt (a : jstr) (c0 : Spec.given_call) (cs0 : list Spec.given_call) :
  let cs := c0 :: cs0 in
  a = [] \/ (exists t, a = t ++ [10] /\ Spec.opens_call t = false) ->
  Forall Spec.survives cs ->
  Spec.all_matches
    (lit "<previous_response>" ++ 10 :: a ++ concat (map Spec.block cs)
     ++ lit "</previous_response>")
    (map (fun c => stringify2 (Spec.lowered c)) cs).
Proof.
  intros cs Ha Hall.
  apply (all_matches_exec _ (a ++ concat (map Spec.block cs) ++ lit "</previous_response>"));
    [apply exec_skip_line; reflexivity |].
  assert (Spec.all_matches (concat (map Spec.block cs) ++ lit "</previous_response>")
            (map (fun c => stringify2 (Spec.lowered c)) cs)) as Hblocks
    by (apply all_matches_blocks; [exact Hall | vm_compute; reflexivity]).
  destruct Ha as [-> | (t & -> & Ht)]; [exact Hblocks |].
  rewrite <- app_assoc. cbn [app].
  destruct (blocks_head c0 cs0) as [B1 Ehead]. fold cs in Ehead.
  rewrite Ehead in Hblocks |- *. cbn [app] in Hblocks |- *.
  apply (all_matches_exec _ _ _ (exec_skip_text t _ Ht)). exact Hblocks.
Qed.

(** C1, amended.  For every assistant message carrying N >= 1 tool calls
    with non-empty ids, whose stringified arguments parse to the argument
    objects, whose argument objects hold no infinite number (no literal
    that overflows a double), in whose lowered JSON texts no closing brace
    is followed by white space and [</tool_call>], and in whose leading
    text, if any, no [<tool_call>] is followed by white space and an
    opening brace: lowering the message with [messagesToPrompt] (without
    tools) and parsing the prompt with [parseToolCalls] yields exactly the
    N tool calls, with the same ids and names and with argument strings
    that parse back to the argument objects, and no id is minted. *)
Theorem tool_calls_round_trip (O : oracle) (w : world) (content : option jstr)
    (c : Spec.given_call) (cs : list Spec.given_call) :
  Spec.plain content ->
  Forall Spec.survives (c :: cs) ->
  exists p,
    messagesToPrompt [Spec.assistant_turn content (c :: cs)] None = Ok p /\
    toolCalls (fst (parseToolCalls O w p)) = map Spec.returned_call (c :: cs) /\
    snd (parseToolCalls O w p) = w /\
    Forall (fun c => JSON_parse (stringify (JObj (Spec.given_object c)))
                     = Some (JObj (Spec.given_object c))) (c :: cs).
Proof.
  intros Hplain Hall.
  destruct (prompt_of_turn content c cs Hplain Hall) as (a & Hp & Ha).
  pose (p := lit "<previous_response>" ++ 10 :: a ++ concat (map Spec.block (c :: cs))
               ++ lit "</previous_response>").
  exists p. split; [exact Hp |].
  assert (parseToolCalls O w p
          = ({| toolCalls := map Spec.returned_call (c :: cs);
                textContent := textContent (fst (parseToolCalls O w p)) |}, w)) as E.
  { subst p. pose proof (all_matches_prompt a c cs Ha Hall) as Hm. cbv zeta in Hm.
    unfold parseToolCalls.
    rewrite (scan_calls_spec O _ _ Hm) by lia.
    rewrite (calls_of_lowered O w (c :: cs) Hall). reflexivity. }
  split; [rewrite E; reflexivity |]. split; [rewrite E; reflexivity |].
  apply Forall_forall. intros x Hx. rewrite Forall_forall in Hall.
  destruct (Hall x Hx) as (_ & Hparse & Hpr & _).
  apply JSON_parse_stringify; [apply (JSON_parse_wf _ _ Hparse) | exact Hpr].
Qed.

(** The turn "Let me check." with one call of [get_weather] for Paris. *)
Lemma tool_calls_round_trip_witness :
  exists p,
    messagesToPrompt [Spec.assistant_turn (Some (lit "Let me check.")) [weather_call]] None
      = Ok p /\
    toolCalls (fst (parseToolCalls counting world0 p)) = [Spec.returned_call weather_call].
Proof.
  destruct (tool_calls_round_trip counting world0 (Some (lit "Let me check."))
              weather_call []) as (p & Hp & Hcalls & _ & _).
  - vm_compute. reflexivity.
  - constructor; [| constructor]. unfold Spec.survives.
    split; [discriminate |]. repeat split; vm_compute; reflexivity.
  - exists p. split; [exact Hp |]. rewrite Hcalls. reflexivity.
Defined.

End RoundTrip.
(* ===================================================================== *)
(** ** More on [parseToolCalls]: plain answers, ids, arguments, text *)
(* ===================================================================== *)

Section ParseMore.
Import ToolProtocol.

(** *** [trim] *)

Lemma skip_ws_nonspace (s : jstr) (c : N) (t : jstr) :
  skip_ws s = c :: t -> is_space c = false.
Proof.
  induction s as [| x s IH]; cbn [skip_ws]; [discriminate |].
  destruct (is_space x) eqn:E; [exact IH |].
  intros H. inversion H; subst. exact E.
Qed.

Lemma skip_ws_suffix (s : jstr) : exists d, s = d ++ skip_ws s.
Proof.
  induction s as [| x s [d IH]]; [exists []; reflexivity |].
  cbn [skip_ws]. destruct (is_space x).
  - exists (x :: d). cbn [app]. f_equal. exact IH.
  - exists []. reflexivity.
Qed.

(** The first character of a trimmed text is not white space. *)
Lemma trim_first (s : jstr) (c : N) (t : jstr) :
  trim s = c :: t -> is_space c = false.
Proof.
  unfold trim. intros H.
  destruct (skip_ws_suffix (rev (skip_ws s))) as [d Hd].
  apply (f_equal (@rev N)) in Hd. rewrite rev_involutive, rev_app_distr, H in Hd.
  cbn [app] in Hd. apply (skip_ws_nonspace s c _ Hd).
Qed.

(** Neither is the last one. *)
Lemma trim_last (s t : jstr) (c : N) :
  trim s = t ++ [c] -> is_space c = false.
Proof.
  unfold trim. intros H.
  apply (f_equal (@rev N)) in H. rewrite rev_involutive, rev_app_distr in H.
  cbn [rev app] in H. apply (skip_ws_nonspace _ _ _ H).
Qed.

(** *** The two scans over a text without opening tag *)

Lemma exec_no_tag (s : jstr) : includes OPEN_TAG s = false -> exec s = None.
Proof.
  induction s as [| c s IH]; intros H; [reflexivity |].
  apply includes_cons in H as [H1 H2].
  rewrite (exec_skip _ _ H1). apply IH, H2.
Qed.

Lemma strip_blocks_no_tag (fuel : nat) (s : jstr) :
  includes OPEN_TAG s = false -> strip_blocks fuel s = s.
Proof.
  revert s. induction fuel as [| f IH]; intros s H; [reflexivity |].
  destruct s as [| c s]; [reflexivity |].
  apply includes_cons in H as [H1 H2].
  cbn [strip_blocks]. unfold match_block. rewrite H1, (IH s H2). reflexivity.
Qed.

(** X1.  An answer that does not contain the opening tag [<tool_call>] is
    returned as text: [parseToolCalls] finds no tool call, mints no id, and
    its [textContent] is the trimmed answer, or null when the answer is
    empty or white space only. *)
Theorem parseToolCalls_plain_text (O : oracle) (w : world) (text : jstr) :
  includes OPEN_TAG text = false ->
  parseToolCalls O w text
  = ({| toolCalls := [];
        textContent := if is_nil (trim text) then None else Some (trim text) |}, w).
Proof.
  intros H. unfold parseToolCalls. cbn [scan_calls].
  rewrite (exec_no_tag text H), (strip_blocks_no_tag _ text H). reflexivity.
Qed.

Lemma parseToolCalls_plain_text_witness :
  parseToolCalls Inputs.counting world0 (lit "  It is sunny in Paris. ")
  = ({| toolCalls := []; textContent := Some (lit "It is sunny in Paris.") |}, world0).
Proof.
  rewrite (parseToolCalls_plain_text Inputs.counting world0
             (lit "  It is sunny in Paris. ")); [| vm_compute; reflexivity].
  vm_compute. reflexivity.
Defined.

(** X2.  The text returned beside the tool calls is null or a non-empty
    string that neither starts nor ends with white space, whatever the
    answer. *)
Theorem parseToolCalls_textContent_trimmed (O : oracle) (w : world) (text s : jstr) :
  textContent (fst (parseToolCalls O w text)) = Some s ->
  s <> [] /\
  (forall c t, s = c :: t -> is_space c = false) /\
  (forall t c, s = t ++ [c] -> is_space c = false).
Proof.
  unfold parseToolCalls.
  destruct (scan_calls (S (length text)) O text w []) as [calls w'].
  cbn [fst textContent]. unfold or_null.
  set (out := strip_blocks (S (length text)) text).
  destruct (trim out) as [| c0 t0] eqn:E; cbn [is_nil]; [discriminate |].
  intros H. inversion H; subst s. split; [discriminate |]. split.
  - intros c t Hs. inversion Hs; subst. apply (trim_first out c t E).
  - intros t c Hs. rewrite Hs in E. apply (trim_last out t c E).
Qed.

Lemma parseToolCalls_textContent_trimmed_witness :
  textContent (fst (parseToolCalls Inputs.counting world0 Inputs.malformed_block))
    = Some (lit "real text") /\
  lit "real text" <> [] /\
  (forall c t, lit "real text" = c :: t -> is_space c = false) /\
  (forall t c, lit "real text" = t ++ [c] -> is_space c = false).
Proof.
  split; [vm_compute; reflexivity |].
  apply (parseToolCalls_textContent_trimmed Inputs.counting world0
           Inputs.malformed_block (lit "real text")).
  vm_compute. reflexivity.
Defined.

(** *** The calls *)

Lemma call_of_body_id (O : oracle) (w w' : world) (body : jstr) (c : tool_call) :
  call_of_body O w body = (Some c, w') -> truthy (Some (tc_id c)) = true.
Proof.
  unfold call_of_body.
  destruct (JSON_parse body) as [parsed |]; [| discriminate].
  destruct (get (Some parsed) "id") as [id | e]; [| discriminate].
  assert (forall u : jstr, truthy (Some (JStr (lit "call_" ++ u))) = true) as Hminted
    by (intros u; reflexivity).
  destruct id as [x |].
  - destruct (truthy (Some x)) eqn:Ex.
    + destruct (get (Some parsed) "name"), (get (Some parsed) "arguments");
        intros H; inversion H; subst; try exact Ex.
    + destruct (short_id O w) as [u w1].
      destruct (get (Some parsed) "name"), (get (Some parsed) "arguments");
        intros H; inversion H; subst; apply Hminted.
  - destruct (short_id O w) as [u w1].
    destruct (get (Some parsed) "name"), (get (Some parsed) "arguments");
      intros H; inversion H; subst; apply Hminted.
Qed.

Lemma calls_of_bodies_ids (O : oracle) (bodies : list jstr) (w : world) :
  Forall (fun c => truthy (Some (tc_id c)) = true)
         (fst (Spec.calls_of_bodies O w bodies)).
Proof.
  revert w. induction bodies as [| body rest IH]; intros w; cbn [Spec.calls_of_bodies];
    [constructor |].
  destruct (call_of_body O w body) as [c w1] eqn:E.
  specialize (IH w1). destruct (Spec.calls_of_bodies O w1 rest) as [cs w2].
  cbn [fst] in *. destruct c as [c |]; [| exact IH].
  constructor; [apply (call_of_body_id O w w1 body c E) | exact IH].
Qed.

(** A captured body opens with a brace, so when it parses it is an
    object. *)
Lemma find_close_some (s body rest : jstr) (c : N) :
  cons_fst c (find_close s) = Some (body, rest) -> exists t, body = c :: t.
Proof.
  destruct (find_close s) as [[l r] |]; cbn [cons_fst]; [| discriminate].
  intros [= <- _]. eauto.
Qed.

Lemma match_call_brace (s body rest : jstr) :
  match_call s = Some (body, rest) -> exists t, body = 123 :: t.
Proof.
  unfold match_call. destruct (starts_with OPEN_TAG s); [| discriminate].
  destruct (skip_ws _) as [| c t]; [discriminate |].
  destruct (c =? 123) eqn:E; [| discriminate]. apply N.eqb_eq in E. subst c.
  apply find_close_some.
Qed.

Lemma exec_brace (s body rest : jstr) :
  exec s = Some (body, rest) -> exists t, body = 123 :: t.
Proof.
  induction s as [| c s IH]; cbn [exec].
  - destruct (match_call []) as [[b r] |] eqn:E; [| discriminate].
    intros [= <- _]. apply (match_call_brace _ _ _ E).
  - destruct (match_call (c :: s)) as [[b r] |] eqn:E; [| exact IH].
    intros [= <- _]. apply (match_call_brace _ _ _ E).
Qed.

Lemma JSON_parse_brace (t : jstr) (v : json) :
  JSON_parse (123 :: t) = Some v -> exists kvs, v = JObj kvs.
Proof.
  unfold JSON_parse.
  destruct (parse_value (S (length (123 :: t))) (123 :: t)) as [[v' r] |] eqn:E;
    [| discriminate].
  destruct (is_nil (skip_jws r)); [| discriminate]. intros [= <-].
  rewrite parse_value_unfold in E. rewrite skip_jws_head in E by reflexivity.
  change (123 =? 110) with false in E. change (123 =? 116) with false in E.
  change (123 =? 102) with false in E. change (123 =? 34) with false in E.
  change (123 =? 91) with false in E. change (123 =? 123) with true in E.
  cbv iota in E.
  destruct (skip_jws t) as [| c' r']; [discriminate |].
  destruct (c' =? 125); [inversion E; eauto |].
  destruct (parse_members _ t) as [[ms r''] |]; [| discriminate].
  inversion E. eauto.
Qed.

(** On the text of an object, the [try] block builds the call the protocol
    words. *)
Lemma call_of_body_object (O : oracle) (w : world) (body : jstr)
    (kvs : list (jstr * json)) :
  JSON_parse body = Some (JObj kvs) ->
  call_of_body O w body
  = (Some (fst (Spec.call_of_object O w kvs)), snd (Spec.call_of_object O w kvs)).
Proof.
  intros H. unfold call_of_body, Spec.call_of_object. rewrite H. cbn [get].
  destruct (assoc (lit "id") kvs) as [x |].
  - destruct (truthy (Some x)); [reflexivity |].
    destruct (short_id O w); reflexivity.
  - destruct (short_id O w); reflexivity.
Qed.

Lemma calls_of_bodies_expected (O : oracle) (bodies : list jstr) (w : world) :
  Forall (fun b => exists t, b = 123 :: t) bodies ->
  Spec.calls_of_bodies O w bodies = Spec.expected_calls O w bodies.
Proof.
  intros Hall. revert w.
  induction Hall as [| body rest [t ->] _ IH]; intros w; [reflexivity |].
  cbn [Spec.calls_of_bodies Spec.expected_calls].
  destruct (JSON_parse (123 :: t)) as [v |] eqn:E.
  - destruct (JSON_parse_brace t v E) as [kvs ->].
    rewrite (call_of_body_object O w _ kvs E).
    destruct (Spec.call_of_object O w kvs) as [c w1]. cbn [fst snd].
    rewrite IH. reflexivity.
  - rewrite (call_of_body_malformed O w _ E). rewrite IH.
    destruct (Spec.expected_calls O w rest); reflexivity.
Qed.

Lemma all_matches_braces (s : jstr) (bodies : list jstr) :
  Spec.all_matches s bodies -> Forall (fun b => exists t, b = 123 :: t) bodies.
Proof.
  induction 1 as [| s body rest bodies E _ IH]; constructor; [| exact IH].
  apply (exec_brace _ _ _ E).
Qed.

(** X3.  The tool calls of a text are those of the successive matches of
    the call pattern, in order: every captured body that is the JSON text
    of an object gives one call, a body that is not JSON gives none.  The
    call keeps the id of the object when that id is truthy; when the id is
    missing or falsy (null, false, zero, the empty string) it is replaced
    by a minted one, ["call_"] followed by the first 24 characters of a new
    uuid without its hyphens, and one uuid is drawn for it.  So every call
    returned has a truthy id. *)
Theorem parseToolCalls_ids (O : oracle) (w : world) (text : jstr) :
  exists bodies,
    Spec.all_matches text bodies /\
    toolCalls (fst (parseToolCalls O w text)) = fst (Spec.expected_calls O w bodies) /\
    snd (parseToolCalls O w text) = snd (Spec.expected_calls O w bodies) /\
    Forall (fun c => truthy (Some (tc_id c)) = true)
           (toolCalls (fst (parseToolCalls O w text))).
Proof.
  destruct (all_matches_exists text) as [bodies Hb].
  exists bodies. split; [exact Hb |].
  unfold parseToolCalls.
  rewrite (scan_calls_spec O text bodies Hb) by lia.
  cbn [fst snd toolCalls app].
  rewrite <- (calls_of_bodies_expected O bodies w (all_matches_braces _ _ Hb)).
  split; [reflexivity |]. split; [reflexivity |]. apply calls_of_bodies_ids.
Qed.

Lemma wf_member (kvs : list (jstr * json)) (k : jstr) (x : json) :
  wf (JObj kvs) = true -> assoc k kvs = Some x -> wf x = true.
Proof.
  intros H. apply wf_object in H as (_ & _ & H).
  induction kvs as [| [k' v'] kvs IH]; cbn [assoc]; [discriminate |].
  cbn [forallb snd] in H. apply andb_prop in H as [Hv H].
  destruct (Str.eqb k' k); [intros E; inversion E; subst; exact Hv | apply IH, H].
Qed.

(** X4.  When the body of a block parses to an object whose [arguments]
    field is a JSON value other than a string, the tool call built from it
    carries [JSON.stringify(arguments)].  That string parses back to the
    same value when no number of the value is infinite; a literal that
    overflows a double is Infinity, which [JSON.stringify] writes as
    [null]: the arguments [{"x":1e400}] leave as [{"x":null}]. *)
Theorem call_arguments_parse_back (O : oracle) (w : world) (body : jstr)
    (kvs : list (jstr * json)) (x : json) :
  JSON_parse body = Some (JObj kvs) ->
  assoc (lit "arguments") kvs = Some x ->
  (forall s, x <> JStr s) ->
  (exists c w',
     call_of_body O w body = (Some c, w') /\
     tc_arguments c = Some (stringify x) /\
     (printable x = true -> JSON_parse (stringify x) = Some x)) /\
  map tc_arguments
      (toolCalls (fst (parseToolCalls O w
         (lit "<tool_call>{" ++ q "name" ++ lit ":" ++ q "f" ++ lit ","
          ++ q "arguments" ++ lit ":{" ++ q "x" ++ lit ":1e400}}</tool_call>"))))
  = [Some (lit "{" ++ q "x" ++ lit ":null}")].
Proof.
  intros Hbody Hx Hstr. split; [| vm_compute; reflexivity].
  unfold call_of_body. rewrite Hbody.
  cbn [get]. rewrite Hx.
  assert (printable x = true -> JSON_parse (stringify x) = Some x) as Hback.
  { apply JSON_parse_stringify.
    apply (wf_member kvs (lit "arguments") x); [| exact Hx].
    apply (JSON_parse_wf body), Hbody. }
  destruct (match assoc (lit "id") kvs with
            | Some x0 =>
                if truthy (assoc (lit "id") kvs) then (x0, w)
                else let '(u, w1) := short_id O w in (JStr (lit "call_" ++ u), w1)
            | None => let '(u, w1) := short_id O w in (JStr (lit "call_" ++ u), w1)
            end) as [id' w'] eqn:E.
  eexists _, w'. split; [reflexivity |]. cbn [tc_arguments].
  split; [| exact Hback].
  destruct x; try reflexivity. exfalso. apply (Hstr s). reflexivity.
Qed.

Lemma call_arguments_parse_back_witness :
  let body := lit "{" ++ q "name" ++ lit ":" ++ q "f" ++ lit "," ++ q "arguments"
              ++ lit ":{" ++ q "n" ++ lit ":0.5}}" in
  exists c w',
    call_of_body Inputs.counting world0 body = (Some c, w') /\
    tc_arguments c = Some (lit "{" ++ q "n" ++ lit ":0.5}") /\
    JSON_parse (lit "{" ++ q "n" ++ lit ":0.5}")
    = Some (JObj [(lit "n", JNum (Num.Finite 1 (-1)))]).
Proof.
  destruct (call_arguments_parse_back Inputs.counting world0
              (lit "{" ++ q "name" ++ lit ":" ++ q "f" ++ lit "," ++ q "arguments"
               ++ lit ":{" ++ q "n" ++ lit ":0.5}}")
              [(lit "name", JStr (lit "f"));
               (lit "arguments", JObj [(lit "n", JNum (Num.Finite 1 (-1)))])]
              (JObj [(lit "n", JNum (Num.Finite 1 (-1)))]))
    as [(c & w' & Hc & Hargs & Hback) _].
  - vm_compute. reflexivity.
  - vm_compute. reflexivity.
  - intros s. discriminate.
  - exists c, w'. split; [exact Hc |]. split.
    + rewrite Hargs. vm_compute. reflexivity.
    + apply Hback. vm_compute. reflexivity.
Defined.

End ParseMore.
(* ===================================================================== *)
(** ** The responses built from a CLI result (cli-to-openai.js) *)
(* ===================================================================== *)

Section Responses.
Import ToolProtocol CliToOpenai.
Local Open Scope js_scope.

(** *** Model names *)

(** X5.  [normalizeModelName] is idempotent: a normalized name normalizes
    to itself, so a name may pass through it any number of times (the done
    chunk normalizes the model of the last assistant message, which the
    caller may have normalized already). *)
Theorem normalizeModelName_idempotent (model : jstr) :
  normalizeModelName (normalizeModelName model) = normalizeModelName model.
Proof.
  unfold normalizeModelName at 2 3.
  destruct (includes (lit "opus") model) eqn:E1; [vm_compute; reflexivity |].
  destruct (includes (lit "sonnet") model) eqn:E2; [vm_compute; reflexivity |].
  destruct (includes (lit "haiku") model) eqn:E3; [vm_compute; reflexivity |].
  unfold normalizeModelName. rewrite E1, E2, E3. reflexivity.
Qed.

(** *** [cliResultToOpenai] *)

(** X6.  [cliResultToOpenai] returns exactly when [modelUsage] is absent or
    has a key.  It then answers with the result text unchanged, the finish
    reason "stop" and a total that is the sum of the two token counts; on
    an empty [modelUsage] object the first key is undefined and the
    function throws a TypeError. *)
Theorem cliResultToOpenai_returns (O : oracle) (w : world) (r : ClaudeCliResult)
    (requestId : jstr) :
  match cr_modelUsage r with
  | Some [] => cliResultToOpenai O w r requestId = Throw (TypeError (lit "includes"))
  | _ =>
      exists c w',
        cliResultToOpenai O w r requestId = Ok (c, w') /\
        m_content (c_message c) = Some (cr_result r) /\
        m_tool_calls (c_message c) = None /\
        c_finish_reason c = lit "stop" /\
        (let '(p, k, total) := c_usage c in total = (p + k)%Z)
  end.
Proof.
  unfold cliResultToOpenai, normalizedModelOf, modelNameOf, usageOf.
  destruct (now_seconds O w) as [t w'].
  destruct (cr_modelUsage r) as [[| key keys] |]; cbn [head bind]; [reflexivity | |];
    (eexists _, _; split; [reflexivity |]; cbn;
     repeat split; destruct (cr_usage r) as [[i o] |]; reflexivity).
Qed.

(** X7.  When [cliResultToOpenaiWithTools] returns, its finish reason is
    "tool_calls" exactly when [parseToolCalls] extracted a call from
    [result.result]; the message then carries those calls and the text left
    outside the blocks.  Otherwise the finish reason is "stop", there is no
    [tool_calls] field, and the content is [result.result] as it came,
    blocks that failed to parse included. *)
Theorem cliResultToOpenaiWithTools_finish_reason (O : oracle) (w w' : world)
    (r : ClaudeCliResult) (requestId : jstr) (c : completion) :
  cliResultToOpenaiWithTools O w r requestId = Ok (c, w') ->
  let p := fst (parseToolCalls O w (cr_result r)) in
  match toolCalls p with
  | _ :: _ =>
      c_finish_reason c = lit "tool_calls" /\
      m_tool_calls (c_message c) = Some (toolCalls p) /\
      m_content (c_message c) = textContent p
  | [] =>
      c_finish_reason c = lit "stop" /\
      m_tool_calls (c_message c) = None /\
      m_content (c_message c) = Some (cr_result r)
  end.
Proof.
  unfold cliResultToOpenaiWithTools.
  destruct (parseToolCalls O w (cr_result r)) as [p w1]. cbn [fst].
  destruct (toolCalls p) as [| tc tcs].
  - unfold cliResultToOpenai. destruct (now_seconds O w1) as [t w2].
    destruct (normalizedModelOf r) as [m | e]; cbn [bind]; [| discriminate].
    intros H. inversion H; subst. repeat split.
  - destruct (now_seconds O w1) as [t w2].
    destruct (normalizedModelOf r) as [m | e]; cbn [bind]; [| discriminate].
    intros H. inversion H; subst. repeat split.
Qed.

Lemma cliResultToOpenaiWithTools_finish_reason_witness :
  exists c w',
    cliResultToOpenaiWithTools Inputs.counting world0 Inputs.hello (lit "r") = Ok (c, w') /\
    c_finish_reason c = lit "stop" /\
    m_tool_calls (c_message c) = None /\
    m_content (c_message c) = Some (lit "hello").
Proof.
  eexists _, _. split; [vm_compute; reflexivity |].
  apply (cliResultToOpenaiWithTools_finish_reason Inputs.counting world0
           {| uuid_calls := 0; now_calls := 1 |} Inputs.hello (lit "r")).
  vm_compute. reflexivity.
Defined.

(** *** [buildToolCallChunks] *)

Lemma toolCallChunks_length (requestId model : jstr) (t : Z) (text : option jstr)
    (calls : list tool_call) (i0 : nat) :
  length (toolCallChunks requestId model t text i0 calls) = length calls.
Proof.
  revert i0. induction calls as [| tc rest IH]; intros i0; cbn; [| rewrite IH]; reflexivity.
Qed.

Lemma toolCallChunks_finish (requestId model : jstr) (t : Z) (text : option jstr)
    (calls : list tool_call) (i0 : nat) :
  Forall (fun k => k_finish_reason k = None /\ k_id k = chatcmpl requestId /\
                   k_created k = t /\ k_model k = model)
         (toolCallChunks requestId model t text i0 calls).
Proof.
  revert i0. induction calls as [| tc rest IH]; intros i0; cbn [toolCallChunks];
    constructor; [repeat split | apply IH].
Qed.

Lemma toolCallChunks_calls (requestId model : jstr) (t : Z) (text : option jstr)
    (calls : list tool_call) (i0 : nat) :
  flat_map (fun k => match d_tool_calls (k_delta k) with Some l => l | None => [] end)
           (toolCallChunks requestId model t text i0 calls)
  = combine (seq i0 (length calls)) calls.
Proof.
  revert i0. induction calls as [| tc rest IH]; intros i0; [reflexivity |].
  cbn [toolCallChunks flat_map k_delta d_tool_calls length seq combine app].
  rewrite IH. reflexivity.
Qed.

Lemma toolCallChunks_no_role (requestId model : jstr) (t : Z) (text : option jstr)
    (calls : list tool_call) (i0 : nat) :
  i0 <> 0%nat \/ has_text text = true ->
  map (fun k => d_role (k_delta k)) (toolCallChunks requestId model t text i0 calls)
  = repeat None (length calls).
Proof.
  revert i0. induction calls as [| tc rest IH]; intros i0 H; [reflexivity |].
  cbn [toolCallChunks map k_delta d_role length repeat].
  rewrite IH by (left; discriminate). f_equal.
  destruct i0 as [| i]; [| reflexivity].
  destruct H as [H | H]; [congruence | rewrite H; reflexivity].
Qed.

Lemma toolCallChunks_no_content (requestId model : jstr) (t : Z) (text : option jstr)
    (calls : list tool_call) (i0 : nat) :
  map (fun k => d_content (k_delta k)) (toolCallChunks requestId model t text i0 calls)
  = repeat None (length calls).
Proof.
  revert i0. induction calls as [| tc rest IH]; intros i0; [reflexivity |].
  cbn [toolCallChunks map k_delta d_content length repeat]. rewrite IH. reflexivity.
Qed.

(** X8.  The chunks of a tool-call answer: one chunk for the text when the
    text is truthy (a non-empty string; null and the empty string give no
    text chunk), one per tool call, and a final chunk.  The final chunk has
    an empty delta and is the only one with a finish reason, which is
    "tool_calls"; every chunk carries the same id, creation time and
    normalized model, and the clock is read once. *)
Theorem buildToolCallChunks_shape (O : oracle) (w : world) (calls : list tool_call)
    (text : option jstr) (requestId model : jstr) :
  exists body final,
    fst (buildToolCallChunks O w calls text requestId model) = body ++ [final] /\
    length body = ((if has_text text then 1 else 0) + length calls)%nat /\
    Forall (fun k => k_finish_reason k = None) body /\
    k_finish_reason final = Some (lit "tool_calls") /\
    k_delta final = empty_delta /\
    Forall (fun k => k_id k = chatcmpl requestId /\
                     k_created k = fst (now_seconds O w) /\
                     k_model k = normalizeModelName model) (body ++ [final]) /\
    snd (buildToolCallChunks O w calls text requestId model) = snd (now_seconds O w).
Proof.
  unfold buildToolCallChunks. destruct (now_seconds O w) as [t w']. cbn [fst snd].
  pose proof (toolCallChunks_finish requestId (normalizeModelName model) t text calls 0)
    as Hall.
  eexists (_ ++ toolCallChunks requestId (normalizeModelName model) t text 0 calls), _.
  split; [rewrite <- app_assoc; reflexivity |].
  split; [rewrite length_app, toolCallChunks_length; destruct (has_text text); reflexivity |].
  split.
  { apply Forall_app. split.
    - destruct (has_text text); repeat constructor.
    - eapply Forall_impl; [exact Hall |]. cbn. intros k Hk. apply Hk. }
  split; [reflexivity |]. split; [reflexivity |]. split; [| reflexivity].
  apply Forall_app. split; [| repeat constructor].
  apply Forall_app. split.
  - destruct (has_text text); repeat constructor.
  - eapply Forall_impl; [exact Hall |]. cbn. intros k Hk. apply Hk.
Qed.

(** X9.  The role "assistant" is announced once, by the first chunk: the
    text chunk when the text is truthy (a non-empty string), the chunk of
    the first tool call otherwise (text null or empty); no later chunk has
    a role.  The text chunk carries the text as its content and no other
    chunk has content.  The tool calls leave in their order, the i-th one
    with index i (from 0). *)
Theorem buildToolCallChunks_roles_and_indices (O : oracle) (w : world)
    (calls : list tool_call) (text : option jstr) (requestId model : jstr) :
  let chunks := fst (buildToolCallChunks O w calls text requestId model) in
  map (fun k => d_role (k_delta k)) chunks
  = match has_text text, calls with
    | false, [] => [None]
    | _, _ => Some (lit "assistant") :: repeat None (length chunks - 1)
    end /\
  map (fun k => d_content (k_delta k)) chunks
  = (if has_text text then [text] else []) ++ repeat None (length calls + 1) /\
  flat_map (fun k => match d_tool_calls (k_delta k) with Some l => l | None => [] end)
           chunks
  = combine (seq 0 (length calls)) calls.
Proof.
  unfold buildToolCallChunks. destruct (now_seconds O w) as [t w']. cbn [fst].
  split; [| split].
  - destruct (has_text text) eqn:Ht.
    + cbn [app map k_delta d_role length Nat.sub]. rewrite Nat.sub_0_r. f_equal.
      rewrite map_app, toolCallChunks_no_role by (right; exact Ht).
      rewrite length_app, toolCallChunks_length. cbn [length map k_delta].
      rewrite repeat_app. reflexivity.
    + destruct calls as [| tc rest]; [reflexivity |].
      cbn [app toolCallChunks map k_delta d_role length Nat.sub]. rewrite Ht, Nat.sub_0_r.
      f_equal.
      rewrite map_app, toolCallChunks_no_role by (left; discriminate).
      rewrite length_app, toolCallChunks_length. cbn [length map k_delta].
      rewrite repeat_app. reflexivity.
  - rewrite !map_app, toolCallChunks_no_content, repeat_app.
    destruct (has_text text); reflexivity.
  - rewrite !flat_map_app, toolCallChunks_calls.
    destruct (has_text text); cbn [flat_map k_delta d_tool_calls empty_delta app];
      rewrite app_nil_r; reflexivity.
Qed.

End Responses.
(* ===================================================================== *)
(** ** The structure of the prompt ([messagesToPrompt], [extractText]) *)
(* ===================================================================== *)

Section PromptStructure.
Import ToolProtocol OpenaiToCli Prompt.
Local Open Scope js_scope.

Local Arguments Js.get : simpl never.
Local Arguments Js.is_str : simpl never.
Local Arguments lowerAssistant : simpl never.
Local Arguments extractText : simpl never.
Local Arguments formatToolResults : simpl never.
Local Arguments buildToolInstructions : simpl never.

(** *** The loop *)

Lemma flatten_nil (fuel : nat) (parts : list jstr) : flatten fuel [] parts = Ok parts.
Proof. destruct fuel; reflexivity. Qed.

Lemma flatten_step (f : nat) (msg : json) (rest : list json) (parts : list jstr) :
  flatten (S f) (msg :: rest) parts
  = let* role := get (Some msg) "role" in
    if is_str role "system" then
      let* content := get (Some msg) "content" in
      let* text := extractText content in
      flatten f rest
        (parts ++ [lit "<system>" ++ nl ++ text ++ nl ++ lit "</system>" ++ nl])
    else if is_str role "user" then
      let* content := get (Some msg) "content" in
      let* text := extractText content in
      flatten f rest (parts ++ [text])
    else if is_str role "assistant" then
      let* block := lowerAssistant msg in
      flatten f rest (parts ++ [block])
    else if is_str role "tool" then
      let* r := takeTools rest in
      let* block := formatToolResults (msg :: fst r) in
      flatten f (snd r) (parts ++ [block])
    else flatten f rest parts.
Proof. reflexivity. Qed.

Lemma takeTools_shorter (ms : list json) (r : list json * list json) :
  takeTools ms = Ok r -> (length (snd r) <= length ms)%nat.
Proof.
  destruct r as [run rest]. intros H.
  destruct (takeTools_split ms run rest H) as [-> _].
  rewrite length_app. cbn [snd]. lia.
Qed.

(** Case analysis on one turn of the loop, for two computations that take
    the same turn and continue alike. *)
Ltac same_turn :=
  repeat match goal with
  | |- bind ?r _ = bind ?r _ => destruct r; cbn [bind]; [| reflexivity]
  | |- (if ?b then _ else _) = (if ?b then _ else _) => destruct b
  | |- bind ?r _ = bind (bind ?r _) _ => destruct r; cbn [bind]; [| reflexivity]
  | |- (if ?b then _ else _) = bind (if ?b then _ else _) _ => destruct b
  end.

(** The loop needs no more fuel than there are messages. *)
Lemma flatten_fuel (f1 : nat) :
  forall (f2 : nat) (ms : list json) (parts : list jstr),
    (length ms <= f1)%nat -> (length ms <= f2)%nat ->
    flatten f1 ms parts = flatten f2 ms parts.
Proof.
  induction f1 as [| f1 IH]; intros f2 ms parts H1 H2.
  - destruct ms; [| cbn [length] in H1; lia]. rewrite !flatten_nil. reflexivity.
  - destruct ms as [| m rest]; [rewrite !flatten_nil; reflexivity |].
    destruct f2 as [| f2]; [cbn [length] in H2; lia |].
    cbn [length] in H1, H2. rewrite !flatten_step.
    destruct (get (Some m) "role") as [role | e]; cbn [bind]; [| reflexivity].
    destruct (is_str role "system").
    { same_turn. apply IH; lia. }
    destruct (is_str role "user").
    { same_turn. apply IH; lia. }
    destruct (is_str role "assistant").
    { same_turn. apply IH; lia. }
    destruct (is_str role "tool"); [| apply IH; lia].
    destruct (takeTools rest) as [r | e] eqn:E; cbn [bind]; [| reflexivity].
    apply takeTools_shorter in E.
    destruct (formatToolResults (m :: fst r)); cbn [bind]; [| reflexivity].
    apply IH; lia.
Qed.

(** What the loop has collected before it starts stays in front. *)
Lemma flatten_acc (f : nat) :
  forall (ms : list json) (p0 parts : list jstr),
    flatten f ms (p0 ++ parts)
    = let* ps := flatten f ms parts in Ok (p0 ++ ps).
Proof.
  induction f as [| f IH]; intros ms p0 parts; [reflexivity |].
  destruct ms as [| m rest]; [reflexivity |].
  rewrite !flatten_step.
  destruct (get (Some m) "role") as [role | e]; cbn [bind]; [| reflexivity].
  destruct (is_str role "system").
  { same_turn. rewrite <- app_assoc. apply IH. }
  destruct (is_str role "user").
  { same_turn. rewrite <- app_assoc. apply IH. }
  destruct (is_str role "assistant").
  { same_turn. rewrite <- app_assoc. apply IH. }
  destruct (is_str role "tool"); [| apply IH].
  destruct (takeTools rest) as [r | e]; cbn [bind]; [| reflexivity].
  destruct (formatToolResults (m :: fst r)); cbn [bind]; [| reflexivity].
  rewrite <- app_assoc. apply IH.
Qed.

(** A run of tool messages ends in front of messages that start fresh. *)
Lemma takeTools_app (a b : list json) :
  starts_fresh b ->
  takeTools (a ++ b) = let* r := takeTools a in Ok (fst r, snd r ++ b).
Proof.
  intros Hb. induction a as [| m a IH]; cbn [app].
  - destruct b as [| m b]; [reflexivity |].
    destruct Hb as (role & Hr & Ht). cbn [takeTools]. rewrite Hr. cbn [bind].
    rewrite Ht. reflexivity.
  - cbn [takeTools].
    destruct (get (Some m) "role") as [role | e]; cbn [bind]; [| reflexivity].
    destruct (is_str role "tool"); [| reflexivity].
    rewrite IH. destruct (takeTools a) as [[run rest] | e]; reflexivity.
Qed.

Lemma flatten_app (f : nat) :
  forall (a b : list json) (parts : list jstr),
    starts_fresh b -> (length a <= f)%nat ->
    flatten (f + length b) (a ++ b) parts
    = let* pa := flatten f a parts in flatten (length b) b pa.
Proof.
  induction f as [| f IH]; intros a b parts Hb Hlen.
  - destruct a; [| cbn [length] in Hlen; lia]. reflexivity.
  - destruct a as [| m rest].
    + cbn [app]. rewrite flatten_nil. cbn [bind]. apply flatten_fuel; lia.
    + cbn [length] in Hlen. cbn [app Nat.add]. rewrite !flatten_step.
      destruct (get (Some m) "role") as [role | e]; cbn [bind]; [| reflexivity].
      destruct (is_str role "system").
      { same_turn. apply IH; [exact Hb | lia]. }
      destruct (is_str role "user").
      { same_turn. apply IH; [exact Hb | lia]. }
      destruct (is_str role "assistant").
      { same_turn. apply IH; [exact Hb | lia]. }
      destruct (is_str role "tool"); [| apply IH; [exact Hb | lia]].
      rewrite (takeTools_app rest b Hb).
      destruct (takeTools rest) as [r | e] eqn:E; cbn [bind fst snd]; [| reflexivity].
      apply takeTools_shorter in E.
      destruct (formatToolResults (m :: fst r)); cbn [bind]; [| reflexivity].
      apply IH; [exact Hb | lia].
Qed.

Lemma messagesToPrompt_parts (messages : list json) (tools : option (list json)) :
  messagesToPrompt messages tools
  = let* parts := partsOf messages tools in Ok (trim (join nl parts)).
Proof.
  unfold messagesToPrompt, partsOf.
  destruct (match tools with
            | Some (t :: ts) => let* i := buildToolInstructions (t :: ts) in Ok [i]
            | _ => Ok []
            end); reflexivity.
Qed.

(** X10.  The prompt is built part by part: [messagesToPrompt] joins and
    trims the array [parts], and when a conversation is cut in two in front
    of a message that is not a tool message, the parts of the whole are the
    parts of the first half (the tool manifest first, if any) followed by
    the parts of the second half alone.  An exception thrown by either half
    is the one the whole throws. *)
Theorem partsOf_app (a b : list json) (tools : option (list json)) :
  starts_fresh b ->
  messagesToPrompt (a ++ b) tools
  = (let* parts := partsOf (a ++ b) tools in Ok (trim (join nl parts))) /\
  partsOf (a ++ b) tools
  = let* pa := partsOf a tools in
    let* pb := partsOf b None in
    Ok (pa ++ pb).
Proof.
  intros Hb. split; [apply messagesToPrompt_parts |].
  unfold partsOf.
  destruct (match tools with
            | Some (t :: ts) => let* i := buildToolInstructions (t :: ts) in Ok [i]
            | _ => Ok []
            end) as [p0 | e]; cbn [bind]; [| reflexivity].
  rewrite length_app, (flatten_app (length a) a b p0 Hb (le_n _)).
  destruct (flatten (length a) a p0) as [pa | e]; cbn [bind]; [| reflexivity].
  rewrite <- (app_nil_r pa) at 1. apply flatten_acc.
Qed.

Lemma partsOf_app_witness :
  partsOf ([Examples.user_message "hi"] ++ [Examples.user_message "there"]) None
  = Ok [lit "hi"; lit "there"].
Proof.
  rewrite (proj2 (partsOf_app [Examples.user_message "hi"]
                    [Examples.user_message "there"] None
                    (ex_intro _ (Some (Inputs.str "user")) (conj eq_refl eq_refl)))).
  vm_compute. reflexivity.
Defined.

(** *** Runs of tool messages *)

Lemma takeTools_run (ts : list json) :
  Forall (has_role "tool") ts -> takeTools ts = Ok (ts, []).
Proof.
  induction 1 as [| m ts Hm _ IH]; [reflexivity |].
  cbn [takeTools]. rewrite Hm. cbn [bind].
  change (is_str (Some (JStr (lit "tool"))) "tool") with true. cbv iota.
  rewrite IH. reflexivity.
Qed.

Lemma flatten_run (m : json) (ts : list json) (f : nat) (parts : list jstr) :
  Forall (has_role "tool") (m :: ts) ->
  flatten (S f) (m :: ts) parts
  = let* block := formatToolResults (m :: ts) in Ok (parts ++ [block]).
Proof.
  intros H. inversion H as [| ? ? Hm Hts]; subst.
  rewrite flatten_step, Hm. cbn [bind].
  change (is_str (Some (JStr (lit "tool"))) "system") with false.
  change (is_str (Some (JStr (lit "tool"))) "user") with false.
  change (is_str (Some (JStr (lit "tool"))) "assistant") with false.
  change (is_str (Some (JStr (lit "tool"))) "tool") with true. cbv iota.
  rewrite (takeTools_run ts Hts). cbn [bind fst snd].
  destruct (formatToolResults (m :: ts)); cbn [bind]; [apply flatten_nil | reflexivity].
Qed.

(** X11.  Consecutive tool messages make one part: a run of one or more
    messages of role "tool", followed by nothing or by a message of another
    role, contributes the single [<tool_results>] block of
    [formatToolResults] on the whole run, and the messages after the run
    contribute what they contribute alone. *)
Theorem tool_messages_grouped (m : json) (ts rest : list json) :
  Forall (has_role "tool") (m :: ts) -> starts_fresh rest ->
  partsOf ((m :: ts) ++ rest) None
  = let* block := formatToolResults (m :: ts) in
    let* pr := partsOf rest None in
    Ok (block :: pr).
Proof.
  intros Hrun Hrest. unfold partsOf. cbn [bind].
  rewrite length_app, (flatten_app (length (m :: ts)) (m :: ts) rest [] Hrest (le_n _)).
  cbn [length]. rewrite (flatten_run m ts (length ts) [] Hrun).
  destruct (formatToolResults (m :: ts)) as [block | e]; cbn [bind app]; [| reflexivity].
  apply (flatten_acc (length rest) rest [block] []).
Qed.

Lemma tool_messages_grouped_witness :
  partsOf ([Examples.tool_message "a" "12"; Examples.tool_message "b" "34"] ++ []) None
  = Ok [join nl [lit "<tool_results>";
                 lit "<tool_result>"; lit "<tool_call_id>a</tool_call_id>";
                 lit "<output>12</output>"; lit "</tool_result>";
                 lit "<tool_result>"; lit "<tool_call_id>b</tool_call_id>";
                 lit "<output>34</output>"; lit "</tool_result>";
                 lit "</tool_results>"]].
Proof.
  rewrite (tool_messages_grouped (Examples.tool_message "a" "12")
             [Examples.tool_message "b" "34"] []
             ltac:(repeat constructor) I).
  vm_compute. reflexivity.
Defined.

(** *** Content arrays *)




End PromptStructure.
(* ===================================================================== *)
(** ** The output of the process, line by line ([processBuffer]) *)
(* ===================================================================== *)

Section OutputLines.
Import Stdout.
Local Open Scope js_scope.

(** *** [split] *)

Lemma split_lines_cons (s : jstr) : exists l ls, split_lines s = l :: ls.
Proof.
  induction s as [| c t (l & ls & IH)]; cbn [split_lines]; [eauto |].
  destruct (c =? 10); [eauto |]. rewrite IH. eauto.
Qed.

(** A text without line feed is one line. *)
Lemma split_lines_one (s : jstr) : ~ In 10 s -> split_lines s = [s].
Proof.
  induction s as [| c t IH]; intros H; cbn [split_lines]; [reflexivity |].
  destruct (c =? 10) eqn:E.
  - apply N.eqb_eq in E. subst c. exfalso. apply H. left. reflexivity.
  - rewrite IH; [reflexivity |]. intros Hin. apply H. right. exact Hin.
Qed.

(** The lines of [x ++ y]: the last line of [x] continues with the first
    line of [y]. *)
Lemma split_lines_app (x y : jstr) :
  split_lines (x ++ y)
  = removelast (split_lines x)
    ++ (List.last (split_lines x) [] ++ hd [] (split_lines y)) :: tl (split_lines y).
Proof.
  induction x as [| c t IH]; cbn [app split_lines].
  - destruct (split_lines_cons y) as (l & ls & ->). reflexivity.
  - destruct (split_lines_cons t) as (l0 & ls0 & E0).
    destruct (c =? 10).
    + rewrite IH, E0. reflexivity.
    + rewrite IH, E0. destruct ls0 as [| l1 ls1]; reflexivity.
Qed.

(** No line contains a line feed. *)
Lemma split_lines_no_nl (s : jstr) : Forall (fun l => ~ In 10 l) (split_lines s).
Proof.
  induction s as [| c t IH]; cbn [split_lines].
  - constructor; [intros [] | constructor].
  - destruct (c =? 10) eqn:E.
    + constructor; [intros [] | exact IH].
    + destruct (split_lines t) as [| l ls]; [repeat constructor; intros [H | []] |].
      * apply N.eqb_neq in E. congruence.
      * inversion IH as [| ? ? Hl Hls]; subst. constructor; [| exact Hls].
        intros [H | H]; [apply N.eqb_neq in E; congruence | exact (Hl H)].
Qed.

Lemma last_no_nl (s : jstr) : ~ In 10 (List.last (split_lines s) []).
Proof.
  pose proof (split_lines_no_nl s) as H.
  destruct (split_lines_cons s) as (l & ls & E). rewrite E in *.
  assert (In (List.last (l :: ls) []) (l :: ls)) as Hin.
  { clear. revert l. induction ls as [| x ls IH]; intros l; [left; reflexivity |].
    right. apply IH. }
  rewrite Forall_forall in H. apply H, list_elem_of_In, Hin.
Qed.

(** *** Chunks *)

Lemma processBuffer_no_nl (buffer : jstr) :
  ~ In 10 buffer -> processBuffer buffer = ([], buffer).
Proof.
  intros H. unfold processBuffer. rewrite (split_lines_one buffer H). reflexivity.
Qed.

Lemma removelast_app_cons {A} (a : list A) (x : A) (b : list A) :
  removelast (a ++ x :: b) = a ++ removelast (x :: b).
Proof. induction a as [| y a IH]; [reflexivity |]. cbn [app]. destruct a; cbn in *; f_equal; exact IH. Qed.

Lemma last_app_cons {A} (a : list A) (x : A) (b : list A) (d : A) :
  List.last (a ++ x :: b) d = List.last (x :: b) d.
Proof. induction a as [| y a IH]; [reflexivity |]. cbn [app]. destruct a; cbn in *; exact IH. Qed.

(** Two chunks in a row are read as their concatenation. *)
Lemma on_data_twice (buffer a b : jstr) :
  let '(e1, b1) := on_data buffer a in
  let '(e2, b2) := on_data b1 b in
  (e1 ++ e2, b2) = on_data buffer (a ++ b).
Proof.
  unfold on_data, processBuffer. rewrite app_assoc.
  rewrite (split_lines_app (buffer ++ a) b).
  set (L1 := split_lines (buffer ++ a)).
  rewrite (split_lines_app (List.last L1 []) b).
  pose proof (split_lines_one _ (last_no_nl (buffer ++ a))) as Hone.
  fold L1 in Hone. rewrite Hone.
  cbn [removelast List.last app].
  rewrite removelast_app_cons, last_app_cons, flat_map_app. reflexivity.
Qed.

Lemma on_all_data_concat (chunks : list jstr) (buffer : jstr) :
  ~ In 10 buffer ->
  on_all_data buffer chunks = processBuffer (buffer ++ concat chunks).
Proof.
  revert buffer. induction chunks as [| data rest IH]; intros buffer H.
  - cbn [on_all_data concat]. rewrite app_nil_r, (processBuffer_no_nl buffer H).
    reflexivity.
  - cbn [on_all_data concat].
    pose proof (on_data_twice buffer data (concat rest)) as Htwice.
    destruct (on_data buffer data) as [e1 b1] eqn:E1.
    assert (~ In 10 b1) as Hb1.
    { unfold on_data, processBuffer in E1. inversion E1. apply last_no_nl. }
    rewrite (IH b1 Hb1).
    change (processBuffer (b1 ++ concat rest)) with (on_data b1 (concat rest)).
    destruct (on_data b1 (concat rest)) as [e2 b2]. exact Htwice.
Qed.

(** *** Decoding the chunks *)

Lemma decode_bytes_app (st : option partial) (a b : list N) :
  decode_bytes st (a ++ b)
  = (fst (decode_bytes (fst (decode_bytes st a)) b),
     snd (decode_bytes st a) ++ snd (decode_bytes (fst (decode_bytes st a)) b)).
Proof.
  revert st. induction a as [| x a IH]; intros st; cbn [app decode_bytes fst snd].
  - destruct (decode_bytes st b); reflexivity.
  - destruct (decode_byte st x) as [st1 out1]. rewrite IH.
    destruct (decode_bytes st1 a) as [st2 out2]. cbn [fst snd].
    destruct (decode_bytes st2 b) as [st3 out3]. cbn [fst snd].
    rewrite app_assoc. reflexivity.
Qed.

(** A Buffer that ends between two characters is decoded the same way on
    its own and in front of what follows. *)
Lemma toString_app (a b : list N) :
  ends_between_characters a -> toString (a ++ b) = toString a ++ toString b.
Proof.
  unfold ends_between_characters, toString. intros Ha. rewrite decode_bytes_app.
  destruct (decode_bytes None a) as [st out]. cbn [fst snd] in *. subst st.
  destruct (decode_bytes None b) as [st' out']. cbn [fst snd].
  rewrite app_nil_r, app_assoc. reflexivity.
Qed.

Lemma ends_between_characters_app (a b : list N) :
  ends_between_characters a -> ends_between_characters b ->
  ends_between_characters (a ++ b).
Proof.
  unfold ends_between_characters. intros Ha Hb. rewrite decode_bytes_app.
  cbn [fst]. rewrite Ha. exact Hb.
Qed.

Lemma toString_concat (chunks : list (list N)) :
  Forall ends_between_characters chunks ->
  ends_between_characters (concat chunks) /\
  toString (concat chunks) = concat (map toString chunks).
Proof.
  induction 1 as [| a rest Ha _ [IHe IHs]]; [split; reflexivity |].
  cbn [concat map]. split.
  - apply ends_between_characters_app; assumption.
  - rewrite (toString_app _ _ Ha), IHs. reflexivity.
Qed.

(** X13.  The data listener decodes every chunk of stdout on its own
    ([chunk.toString()]).  When no chunk ends inside a UTF-8 sequence, the
    events emitted, in order, and the buffer left are those of a single
    [processBuffer] on the decoded output of the process: the way the
    output is cut between characters does not matter.  A cut inside a
    sequence does: the line ["é"] (bytes 22 C3 A9 22 0A) is the message "é"
    when it arrives whole, and a message of two U+FFFD when the chunk ends
    between C3 and A9. *)
Theorem on_chunks_between_characters (chunks : list (list N)) :
  (Forall ends_between_characters chunks ->
   on_chunks [] chunks = processBuffer (toString (concat chunks))) /\
  on_chunks [] [[0x22; 0xC3; 0xA9; 0x22; 0x0A]] = ([message (JStr [0xE9])], []) /\
  on_chunks [] [[0x22; 0xC3]; [0xA9; 0x22; 0x0A]]
  = ([message (JStr [REPLACEMENT; REPLACEMENT])], []).
Proof.
  split; [| split; vm_compute; reflexivity].
  intros Hall. unfold on_chunks.
  rewrite (on_all_data_concat _ []) by (intros []). cbn [app].
  destruct (toString_concat chunks Hall) as [_ ->]. reflexivity.
Qed.

(** A three-byte character and a line cut between two characters. *)
Lemma on_chunks_between_characters_witness :
  let chunks := [[0x22; 0xE2; 0x82; 0xAC]; [0x22; 0x0A; 0x31]] in
  Forall ends_between_characters chunks /\
  on_chunks [] chunks = ([message (JStr [0x20AC])], lit "1").
Proof.
  assert (Forall ends_between_characters
            [[0x22; 0xE2; 0x82; 0xAC]; [0x22; 0x0A; 0x31]]) as Hall
    by (repeat constructor).
  split; [exact Hall |].
  rewrite (proj1 (on_chunks_between_characters _) Hall). vm_compute. reflexivity.
Defined.

(** X14.  What follows the last line feed of the output is never parsed:
    it stays in the buffer while the chunks arrive, and the
    [processBuffer] call of the ["close"] listener emits nothing and leaves
    it there.  An output without any line feed emits nothing at all. *)
Theorem last_line_never_flushed (chunks : list jstr) :
  let '(events, buffer) := on_all_data [] chunks in
  buffer = List.last (split_lines (concat chunks)) [] /\
  flush_at_close buffer = ([], buffer) /\
  (~ In 10 (concat chunks) -> events = [] /\ buffer = concat chunks).
Proof.
  rewrite (on_all_data_concat chunks []) by (intros []). cbn [app].
  unfold processBuffer at 1.
  split; [reflexivity |]. split.
  - unfold flush_at_close. rewrite (processBuffer_no_nl _ (last_no_nl _)).
    destruct (is_nil _); reflexivity.
  - intros H. rewrite (split_lines_one _ H). split; reflexivity.
Qed.

Lemma last_line_never_flushed_witness :
  on_all_data [] [lit "{}"] = ([], lit "{}") /\
  flush_at_close (lit "{}") = ([], lit "{}").
Proof.
  pose proof (last_line_never_flushed [lit "{}"]) as H.
  destruct (on_all_data [] [lit "{}"]) as [events buffer].
  destruct H as (_ & Hflush & Hnone).
  destruct Hnone as [-> ->]; [vm_compute; intuition discriminate |].
  split; [reflexivity | exact Hflush].
Defined.

(** *** One line *)

Lemma JSON_parse_nonempty (s : jstr) (m : json) : JSON_parse s = Some m -> is_nil s = false.
Proof. destruct s; [discriminate | reflexivity]. Qed.

(** X15.  A line that is JSON is emitted as ["message"] first, then as
    ["content_delta"], ["assistant"] or ["result"] by its [type].  It is
    emitted as ["raw"] as well, after ["message"], exactly when a type
    guard throws on it: when the line is [null], or an object of type
    "stream_event" whose [event] is missing or null.  A line that is not
    JSON is emitted as ["raw"] only, a blank line not at all. *)
Theorem emit_line_raw (line : jstr) :
  (is_nil (trim line) = true -> emit_line line = []) /\
  (is_nil (trim line) = false -> JSON_parse (trim line) = None ->
     emit_line line = [raw (trim line)]) /\
  (forall m, JSON_parse (trim line) = Some m ->
     exists rest,
       emit_line line = message m :: rest /\
       (rest = [] \/ rest = [content_delta m] \/ rest = [assistant m] \/
        rest = [result_message m] \/ rest = [raw (trim line)]) /\
       (rest = [raw (trim line)] <->
        m = JNull \/
        exists kvs, m = JObj kvs /\
                    assoc (lit "type") kvs = Some (JStr (lit "stream_event")) /\
                    (assoc (lit "event") kvs = None \/
                     assoc (lit "event") kvs = Some JNull))).
Proof.
  unfold emit_line. split; [intros ->; reflexivity |].
  split; [intros -> ->; reflexivity |].
  intros m Hm. rewrite (JSON_parse_nonempty _ _ Hm), Hm.
  eexists. split; [reflexivity |].
  destruct m as [| b | z | s | xs | kvs]; cbn.
  - split; [auto 6 |]. split; auto.
  - split; [auto |]. split; [discriminate |].
    intros [H | (kvs & H & _)]; discriminate.
  - split; [auto |]. split; [discriminate |].
    intros [H | (kvs & H & _)]; discriminate.
  - split; [auto |]. split; [discriminate |].
    intros [H | (kvs & H & _)]; discriminate.
  - split; [auto |]. split; [discriminate |].
    intros [H | (kvs & H & _)]; discriminate.
  - unfold is_str. destruct (assoc (lit "type") kvs) as [[| | | ty | |] |] eqn:Et; cbn;
      try (split; [auto |]; split; [discriminate |];
           intros [H | (kvs' & H & Ht & _)]; [discriminate | inversion H; subst; congruence]).
    destruct (Str.eqb ty (lit "stream_event")) eqn:Ese.
    + apply eqb_eq in Ese. subst ty.
      destruct (assoc (lit "event") kvs) as [[| b | z | s | xs | ev] |] eqn:Ev; cbn.
      * split; [auto 6 |]. split; [| reflexivity].
        intros _. right. exists kvs. auto.
      * split; [auto |]. split; [discriminate |].
        intros [H | (kvs' & H & _ & [H' | H'])]; [discriminate | |];
          inversion H; subst; congruence.
      * split; [auto |]. split; [discriminate |].
        intros [H | (kvs' & H & _ & [H' | H'])]; [discriminate | |];
          inversion H; subst; congruence.
      * split; [auto |]. split; [discriminate |].
        intros [H | (kvs' & H & _ & [H' | H'])]; [discriminate | |];
          inversion H; subst; congruence.
      * split; [auto |]. split; [discriminate |].
        intros [H | (kvs' & H & _ & [H' | H'])]; [discriminate | |];
          inversion H; subst; congruence.
      * destruct (match assoc (lit "type") ev with
                  | Some (JStr x) => Str.eqb x (lit "content_block_delta")
                  | _ => false
                  end).
        -- split; [auto |]. split; [discriminate |].
           intros [H | (kvs' & H & _ & [H' | H'])]; [discriminate | |];
             inversion H; subst; congruence.
        -- split; [auto |]. split; [discriminate |].
           intros [H | (kvs' & H & _ & [H' | H'])]; [discriminate | |];
             inversion H; subst; congruence.
      * split; [auto 6 |]. split; [| reflexivity].
        intros _. right. exists kvs. auto.
    + assert (forall rest : list emission,
                rest <> [raw (trim line)] ->
                (rest = [raw (trim line)] <->
                 JObj kvs = JNull \/
                 exists kvs', JObj kvs = JObj kvs' /\
                   assoc (lit "type") kvs' = Some (JStr (lit "stream_event")) /\
                   (assoc (lit "event") kvs' = None \/
                    assoc (lit "event") kvs' = Some JNull))) as Hno.
      { intros rest Hrest. split; [intros H; contradiction |].
        intros [H | (kvs' & H & Ht & _)]; [discriminate |].
        inversion H; subst kvs'. rewrite Et in Ht. inversion Ht; subst ty.
        rewrite eqb_refl in Ese. discriminate. }
      destruct (Str.eqb ty (lit "assistant")); [split; [auto |]; apply Hno; discriminate |].
      destruct (Str.eqb ty (lit "result")); split; auto; apply Hno; discriminate.
Qed.

Lemma emit_line_raw_witness :
  emit_line (lit "null") = [message JNull; raw (lit "null")].
Proof.
  destruct (proj2 (proj2 (emit_line_raw (lit "null"))) JNull) as (rest & -> & _ & Hraw);
    [vm_compute; reflexivity |].
  rewrite (proj2 Hraw (or_introl eq_refl)). vm_compute. reflexivity.
Defined.

End OutputLines.
(* ===================================================================== *)
(** ** The life cycle of the driver, the exit of the process included *)
(* ===================================================================== *)

Section LifeCycle.
Import Subprocess Lifecycle.

Lemma run_invariant (P : driver -> Prop) :
  (forall d o, P d -> P (step d o)) ->
  forall ops d, P d -> P (run d ops).
Proof.
  intros Hstep ops. unfold run.
  induction ops as [| o ops IH]; intros d Hd; [exact Hd |].
  cbn [fold_left]. apply IH, Hstep, Hd.
Qed.

(** At most one signal, and none before the driver is marked killed. *)
Lemma step_signals (d : driver) (o : op) :
  (length (signals d) <= 1)%nat /\ (isKilled d = false -> signals d = []) ->
  (length (signals (step d o)) <= 1)%nat /\
  (isKilled (step d o) = false -> signals (step d o) = []).
Proof.
  intros [Hlen Hnone]. destruct o as [sig | | code]; cbn [step].
  - unfold kill. destruct (negb (isKilled d) && process d) eqn:E; [| split; assumption].
    apply andb_prop in E as [Ek _]. apply negb_true_iff in Ek.
    unfold send, clearTimeout, set_killed; cbn. rewrite (Hnone Ek).
    destruct (timeoutId d); cbn; split; try lia; discriminate.
  - unfold expire. destruct (timerArmed d); [| split; assumption].
    unfold disarm; cbn. destruct (negb (isKilled d)) eqn:Ek; cbn.
    + apply negb_true_iff in Ek. rewrite (Hnone Ek).
      destruct (process d); cbn; split; try lia; discriminate.
    + split; assumption.
  - unfold on_close, emit, clearTimeout. destruct (timeoutId d); cbn; split; assumption.
Qed.

(** Once the timer is off it stays off, and no timeout error follows. *)
Lemma step_disarmed (E : list Z) (d : driver) (o : op) :
  timerArmed d = false /\ errors d = E ->
  timerArmed (step d o) = false /\ errors (step d o) = E.
Proof.
  intros [Hoff He]. destruct o as [sig | | code]; cbn [step].
  - unfold kill. destruct (negb (isKilled d) && process d); [| auto].
    unfold send, clearTimeout, set_killed; cbn. destruct (timeoutId d); cbn; auto.
  - unfold expire. rewrite Hoff. auto.
  - unfold on_close, emit, clearTimeout, errors in *.
    destruct (timeoutId d); cbn; rewrite flat_map_app; cbn; rewrite app_nil_r; auto.
Qed.

Lemma step_closed_with (d : driver) (o : op) :
  closed_with (step d o) = closed_with d ++ exit_codes [o].
Proof.
  unfold closed_with, exit_codes.
  destruct o as [sig | | code]; cbn [step flat_map app]; rewrite ?app_nil_r.
  - unfold kill. destruct (negb (isKilled d) && process d); [| reflexivity].
    unfold send, clearTimeout, set_killed; cbn. destruct (timeoutId d); reflexivity.
  - unfold expire. destruct (timerArmed d); [| reflexivity].
    unfold disarm; cbn. destruct (isKilled d); cbn; [reflexivity |].
    destruct (process d); cbn; rewrite flat_map_app; cbn; rewrite app_nil_r; reflexivity.
  - unfold on_close, emit, clearTimeout.
    destruct (timeoutId d); cbn; rewrite flat_map_app; reflexivity.
Qed.

Lemma run_closed_with (ops : list op) (d : driver) :
  closed_with (run d ops) = closed_with d ++ exit_codes ops.
Proof.
  revert d. unfold run. induction ops as [| o ops IH]; intros d; cbn [fold_left].
  - unfold exit_codes. cbn. rewrite app_nil_r. reflexivity.
  - rewrite IH, step_closed_with. unfold exit_codes. cbn [flat_map].
    rewrite app_nil_r, app_assoc. reflexivity.
Qed.

(** X16.  After [start], whatever the order in which [kill()] calls, the
    expiry of the timer and the exit of the process arrive: at most one
    signal is sent; the timeout error is emitted exactly when the timer
    fires first, before any [kill()] and before the process exits, and then
    only once; and every exit of the process is reported by one ["close"],
    in order. *)
Theorem run_reports_once (opt_timeout : option Z) (ops : list op) :
  let d := run (start new opt_timeout) ops in
  (length (signals d) <= 1)%nat /\
  errors d = match ops with
             | op_expire :: _ => [timeout (start new opt_timeout)]
             | _ => []
             end /\
  closed_with d = exit_codes ops.
Proof.
  cbn zeta. split; [| split].
  - apply (run_invariant
             (fun d => (length (signals d) <= 1)%nat /\
                       (isKilled d = false -> signals d = []))).
    + intros d o. apply step_signals.
    + cbn. split; [lia | reflexivity].
  - destruct ops as [| o ops]; [reflexivity |].
    change (run (start new opt_timeout) (o :: ops))
      with (run (step (start new opt_timeout) o) ops).
    apply (run_invariant (fun d => timerArmed d = false /\ errors d = _)).
    + intros d o'. apply step_disarmed.
    + destruct o as [sig | | code]; cbn; split; reflexivity.
  - rewrite run_closed_with. reflexivity.
Qed.

End LifeCycle.
(* ===================================================================== *)
(** ** The session manager: deletion, expiry, isolation *)
(* ===================================================================== *)

Section SessionStoreFacts.
Import Session SessionStore.

(** X17.  [delete(id)] returns true exactly when the conversation had a
    session; afterwards [get(id)] is undefined, the other conversations
    keep their entries, the size went down by one if a session was deleted,
    and the next [getOrCreate(id)] does not find the old session: it
    returns a newly minted id. *)
Theorem delete_forgets (O : oracle) (w : world) (mgr : SessionManager) (id : jstr)
    (m : option jstr) :
  let '(deleted, mgr') := delete mgr id in
  (deleted = true <-> exists s, Session.get mgr id = Some s) /\
  Session.get mgr' id = None /\
  (forall id', id' <> id -> Session.get mgr' id' = Session.get mgr id') /\
  size mgr = (size mgr' + if deleted then 1 else 0)%nat /\
  fst (fst (getOrCreate O w mgr' id m)) = uuidv4 O (uuid_calls w).
Proof.
  unfold delete, Session.get, size.
  destruct (sessions mgr !! id) as [s |] eqn:E; cbn [sessions].
  - split; [split; eauto |].
    split; [apply lookup_delete_eq |].
    split; [intros id' Hne; apply lookup_delete_ne; congruence |].
    split.
    + rewrite map_size_delete_Some by eauto.
      assert (base.size (sessions mgr) <> 0%nat)
        by (apply map_size_ne_0_lookup_2 with (i := id); eauto).
      lia.
    + unfold getOrCreate. cbn [sessions]. rewrite lookup_delete_eq. reflexivity.
  - split; [split; [discriminate | intros [s Hs]; discriminate] |].
    split; [exact E |]. split; [reflexivity |]. split; [lia |].
    unfold getOrCreate. rewrite E. reflexivity.
Qed.

(** *** [cleanup] *)

Lemma sweep_invariant (cutoff : Z) (M0 : gmap jstr SessionMapping) :
  forall m : gmap jstr SessionMapping,
    m ⊆ M0 ->
    let r := map_fold (sweep cutoff) (M0, 0%nat) m in
    (forall k, fst r !! k
               = match m !! k with
                 | Some s => if expired cutoff s then None else M0 !! k
                 | None => M0 !! k
                 end) /\
    (base.size (fst r) + snd r = base.size M0)%nat.
Proof.
  apply (map_fold_weak_ind
           (fun r m => m ⊆ M0 ->
              (forall k, fst r !! k
                         = match m !! k with
                           | Some s => if expired cutoff s then None else M0 !! k
                           | None => M0 !! k
                           end) /\
              (base.size (fst r) + snd r = base.size M0)%nat)).
  - intros _. cbn [fst snd]. split; [intros k; rewrite lookup_empty; reflexivity | lia].
  - intros i x m r Hi IH Hsub.
    assert (M0 !! i = Some x) as H0
      by (apply (lookup_weaken _ _ _ _ (lookup_insert_eq m i x) Hsub)).
    assert (m ⊆ M0) as Hm
      by (transitivity (<[i:=x]> m); [apply insert_subseteq, Hi | exact Hsub]).
    destruct (IH Hm) as [Hlook Hsize].
    assert (fst r !! i = Some x) as Hri by (rewrite Hlook, Hi; exact H0).
    unfold sweep. destruct (expired cutoff x) eqn:Ex; cbn [fst snd].
    + split.
      * intros k. destruct (decide (k = i)) as [-> | Hne].
        -- rewrite lookup_delete_eq, lookup_insert_eq, Ex. reflexivity.
        -- rewrite lookup_delete_ne, lookup_insert_ne by congruence. apply Hlook.
      * rewrite map_size_delete_Some by eauto.
        assert (base.size (fst r) <> 0%nat)
          by (apply map_size_ne_0_lookup_2 with (i := i); eauto).
        lia.
    + split; [| exact Hsize].
      intros k. destruct (decide (k = i)) as [-> | Hne].
      * rewrite lookup_insert_eq, Ex. rewrite Hri, H0. reflexivity.
      * rewrite lookup_insert_ne by congruence. apply Hlook.
Qed.

(** X18.  [cleanup()] removes exactly the sessions last used more than 24
    hours before the time it reads, and returns their number: a
    conversation keeps its entry, unchanged, when the entry was used at or
    after the cutoff; the other entries are gone; the size went down by the
    number returned; and a [save()] is started only when something was
    removed. *)
Theorem cleanup_removes_expired (O : oracle) (w : world) (mgr : SessionManager) :
  let '(removed, mgr', w') := cleanup O w mgr in
  let cutoff := (now O (now_calls w) - 86400000)%Z in
  (forall id,
     Session.get mgr' id
     = match Session.get mgr id with
       | Some s => if (lastUsedAt s <? cutoff)%Z then None else Some s
       | None => None
       end) /\
  size mgr = (size mgr' + removed)%nat /\
  saves mgr' = (saves mgr + if (removed =? 0)%nat then 0 else 1)%nat /\
  w' = snd (Date_now O w).
Proof.
  unfold cleanup. cbn [Date_now].
  pose proof (sweep_invariant (now O (now_calls w) - SESSION_TTL_MS) (sessions mgr)
                (sessions mgr) (reflexivity _)) as [Hlook Hsize].
  destruct (map_fold _ _ _) as [kept removed]. cbn [fst snd] in *.
  unfold Session.get, size. cbn [sessions saves].
  split; [| split; [lia | split; [destruct removed; cbn; lia | reflexivity]]].
  intros id. rewrite Hlook. unfold expired.
  change SESSION_TTL_MS with 86400000%Z.
  destruct (sessions mgr !! id) as [s |] eqn:E; [| reflexivity].
  destruct (lastUsedAt s <? _)%Z; reflexivity.
Qed.

(** *** What every sequence of calls preserves *)

Lemma entry_ok_later (O : oracle) (w w' : world) (id : jstr) (s : SessionMapping) :
  (uuid_calls w <= uuid_calls w')%nat -> (now_calls w <= now_calls w')%nat ->
  entry_ok O w id s -> entry_ok O w' id s.
Proof.
  intros Hu Hn (Hid & (i & Hi & Hsid) & (j & k & Hjk & Hk & Hc & Hl)).
  split; [exact Hid |]. split.
  - exists i. split; [lia | exact Hsid].
  - exists j, k. repeat split; try assumption. lia.
Qed.

(** Fewer entries, later: still consistent. *)
Lemma consistent_fewer (O : oracle) (mgr mgr' : SessionManager) (w w' : world) :
  (forall k s, sessions mgr' !! k = Some s -> sessions mgr !! k = Some s) ->
  (uuid_calls w <= uuid_calls w')%nat -> (now_calls w <= now_calls w')%nat ->
  consistent O (mgr, w) -> consistent O (mgr', w').
Proof.
  intros Hsub Hu Hn [Hok Hiso]. cbn [fst snd] in *. split; cbn [fst snd].
  - intros id s Hs. apply (entry_ok_later O w w' id s Hu Hn), Hok, Hsub, Hs.
  - intros id id' s s' Hs Hs' E. apply (Hiso id id' s s'); auto.
Qed.

Lemma getOrCreate_consistent (O : oracle) (w : world) (mgr : SessionManager)
    (id : jstr) (m : option jstr) :
  fresh_uuids O -> consistent O (mgr, w) ->
  consistent O (snd (fst (getOrCreate O w mgr id m)), snd (getOrCreate O w mgr id m)).
Proof.
  intros Hfresh [Hok Hiso]. cbn [fst snd] in *. unfold getOrCreate.
  destruct (sessions mgr !! id) as [s0 |] eqn:E0; cbn [Date_now next_uuid fst snd].
  - destruct (Hok id s0 E0) as (Hid & (i & Hi & Hsid) & (j & k & Hjk & Hk & Hc & Hl)).
    split; cbn [fst snd sessions].
    + intros id1 s1 H1. destruct (decide (id1 = id)) as [-> | Hne].
      * rewrite lookup_insert_eq in H1. inversion H1; subst s1; clear H1.
        split; [exact Hid |]. split; [exists i; split; [exact Hi | exact Hsid] |].
        exists j, (now_calls w). cbn. repeat split; try assumption; lia.
      * rewrite lookup_insert_ne in H1 by congruence.
        apply (entry_ok_later O w); cbn; [lia | lia | apply Hok, H1].
    + intros id1 id2 s1 s2 H1 H2 Heq. cbn [sessions] in H1, H2.
      destruct (decide (id1 = id)) as [-> | Hne1];
        destruct (decide (id2 = id)) as [-> | Hne2]; [reflexivity | | |].
      * rewrite lookup_insert_eq in H1. rewrite lookup_insert_ne in H2 by congruence.
        inversion H1; subst s1. cbn in Heq. apply (Hiso id id2 s0 s2); assumption.
      * rewrite lookup_insert_eq in H2. rewrite lookup_insert_ne in H1 by congruence.
        inversion H2; subst s2. cbn in Heq. apply (Hiso id1 id s1 s0); assumption.
      * rewrite lookup_insert_ne in H1, H2 by congruence.
        apply (Hiso id1 id2 s1 s2); assumption.
  - split; cbn [fst snd sessions].
    + intros id1 s1 H1. destruct (decide (id1 = id)) as [-> | Hne].
      * rewrite lookup_insert_eq in H1. inversion H1; subst s1; clear H1.
        split; [reflexivity |]. split; [exists (uuid_calls w); cbn; split; [lia | reflexivity] |].
        exists (now_calls w), (S (now_calls w)). cbn. repeat split; lia.
      * rewrite lookup_insert_ne in H1 by congruence.
        apply (entry_ok_later O w); cbn; [lia | lia | apply Hok, H1].
    + assert (forall id' s', sessions mgr !! id' = Some s' ->
                             claudeSessionId s' <> uuidv4 O (uuid_calls w)) as Hnew.
      { intros id' s' Hs' Heq.
        destruct (Hok id' s' Hs') as (_ & (i & Hi & Hsid) & _).
        rewrite Hsid in Heq. apply Hfresh in Heq. lia. }
      intros id1 id2 s1 s2 H1 H2 Heq. cbn [sessions] in H1, H2.
      destruct (decide (id1 = id)) as [-> | Hne1];
        destruct (decide (id2 = id)) as [-> | Hne2]; [reflexivity | | |].
      * rewrite lookup_insert_eq in H1. rewrite lookup_insert_ne in H2 by congruence.
        inversion H1; subst s1. cbn in Heq. symmetry in Heq.
        destruct (Hnew id2 s2 H2 Heq).
      * rewrite lookup_insert_eq in H2. rewrite lookup_insert_ne in H1 by congruence.
        inversion H2; subst s2. cbn in Heq. destruct (Hnew id1 s1 H1 Heq).
      * rewrite lookup_insert_ne in H1, H2 by congruence.
        apply (Hiso id1 id2 s1 s2); assumption.
Qed.

Lemma do_call_consistent (O : oracle) (st : SessionManager * world) (c : call) :
  fresh_uuids O -> consistent O st -> consistent O (do_call O st c).
Proof.
  intros Hfresh H. destruct st as [mgr w]. destruct c as [id m | id |]; cbn [do_call].
  - pose proof (getOrCreate_consistent O w mgr id m Hfresh H) as H'.
    destruct (getOrCreate O w mgr id m) as [[sid mgr'] w']. exact H'.
  - apply (consistent_fewer O mgr _ w w); [| lia | lia | exact H].
    intros k s. unfold delete. destruct (sessions mgr !! id); cbn [snd sessions]; [| auto].
    intros Hk. apply lookup_delete_Some in Hk. apply Hk.
  - pose proof (cleanup_removes_expired O w mgr) as Hc.
    destruct (cleanup O w mgr) as [[removed mgr'] w']. cbn zeta in Hc.
    destruct Hc as (Hlook & _ & _ & ->).
    apply (consistent_fewer O mgr mgr' w); cbn; [| lia | lia | exact H].
    intros k s Hk. specialize (Hlook k). unfold Session.get in Hlook.
    rewrite Hk in Hlook. destruct (sessions mgr !! k) as [s0 |]; [| discriminate].
    destruct (lastUsedAt s0 <? _)%Z; congruence.
Qed.

Lemma after_consistent (O : oracle) (calls : list call) :
  fresh_uuids O -> consistent O (after O calls).
Proof.
  intros Hfresh. unfold after.
  assert (consistent O (Session.empty, world0)) as H0.
  { split; [intros id s H | intros id id' s s' H];
      change ((∅ : gmap jstr SessionMapping) !! id = Some s) in H;
      rewrite lookup_empty in H; discriminate. }
  revert H0. generalize (Session.empty, world0).
  induction calls as [| c calls IH]; intros st Hst; [exact Hst |].
  cbn [fold_left]. apply IH, do_call_consistent; assumption.
Qed.

(** X19.  In a manager that was not loaded from a file, after any sequence
    of [getOrCreate], [delete] and [cleanup] calls: every entry is filed
    under its own conversation id, was created no later than it was last
    used (the clock never going back), and no two conversations share a
    CLI session id (as long as [uuidv4()] does not repeat itself). *)
Theorem sessions_isolated (O : oracle) (calls : list call) :
  fresh_uuids O -> monotone_clock O ->
  let mgr := fst (after O calls) in
  (forall id s, Session.get mgr id = Some s ->
                clawdbotId s = id /\ (createdAt s <= lastUsedAt s)%Z) /\
  isolated mgr.
Proof.
  intros Hfresh Hmono. destruct (after_consistent O calls Hfresh) as [Hok Hiso].
  split; [| exact Hiso].
  intros id s Hs. destruct (Hok id s Hs) as (Hid & _ & (j & k & Hjk & _ & -> & ->)).
  split; [exact Hid | apply Hmono, Hjk].
Qed.

Lemma sessions_isolated_witness :
  fresh_uuids Examples.unary /\ monotone_clock Examples.unary /\
  isolated (fst (after Examples.unary
                   [call_getOrCreate (lit "a") None; call_getOrCreate (lit "b") None;
                    call_delete (lit "a"); call_getOrCreate (lit "a") None])).
Proof.
  assert (fresh_uuids Examples.unary) as Hfresh.
  { intros i j H. apply (f_equal (@length N)) in H. cbn in H.
    rewrite !repeat_length in H. exact H. }
  assert (monotone_clock Examples.unary) as Hmono by (intros i j H; cbn; lia).
  split; [exact Hfresh |]. split; [exact Hmono |].
  apply (sessions_isolated Examples.unary _ Hfresh Hmono).
Defined.

End SessionStoreFacts.
(* ===================================================================== *)
(** ** The event stream of [handleStreamingResponse] *)
(* ===================================================================== *)

Section StreamingFacts.
Import CliToOpenai Routes Streaming.

Lemma writableEnded_app (a b : list res_call) :
  writableEnded (a ++ b) = writableEnded a || writableEnded b.
Proof. apply existsb_app. Qed.

(** Once the response is ended, no listener touches it. *)
Lemma listener_ended (O : oracle) (requestId : jstr) (ev : event) (s : state) :
  writableEnded (res s) = true ->
  res (listener O requestId ev s) = res s /\
  (isComplete s = true ->
   isComplete (listener O requestId ev s) = true /\
   kills (listener O requestId ev s) = kills s).
Proof.
  intros H. destruct ev as [[[| c t] |] | m | r | msg | code |]; cbn [listener];
    rewrite ?H;
    (split; [try (destruct (isComplete s)); reflexivity
            | intros Hc; rewrite ?Hc; cbn; split; auto]).
Qed.

Lemma run_ended (O : oracle) (requestId : jstr) (evs : list event) (s : state) :
  writableEnded (res s) = true ->
  res (run O requestId s evs) = res s /\
  (isComplete s = true -> kills (run O requestId s evs) = kills s).
Proof.
  revert s. unfold run. induction evs as [| ev evs IH]; intros s H; cbn [fold_left];
    [split; reflexivity |].
  destruct (listener_ended O requestId ev s H) as [Hres Hkeep].
  destruct (IH (listener O requestId ev s)) as [IH1 IH2]; [rewrite Hres; exact H |].
  split; [rewrite IH1; exact Hres |].
  intros Hc. destruct (Hkeep Hc) as [Hc' Hk]. rewrite (IH2 Hc'). exact Hk.
Qed.

(** *** The discipline of the writes *)

Lemma disciplined_end (l fs : list res_call) :
  writableEnded l = false -> dones l = [] -> bodies l = [] ->
  writableEnded fs = false -> (length (dones fs) <= 1)%nat -> bodies fs = [] ->
  disciplined (l ++ fs ++ [call_end]).
Proof.
  intros H1 H2 H3 H4 H5 H6. right. exists (l ++ fs).
  split; [rewrite app_assoc; reflexivity |].
  split; [rewrite writableEnded_app, H1, H4; reflexivity |].
  unfold dones, bodies in *.
  split; [rewrite List.filter_app, length_app, H2; cbn; lia |].
  rewrite flat_map_app, H3, H6. reflexivity.
Qed.

Lemma listener_disciplined (O : oracle) (requestId : jstr) (ev : event) (s : state) :
  disciplined (res s) -> disciplined (res (listener O requestId ev s)).
Proof.
  intros H. destruct (writableEnded (res s)) eqn:E.
  { rewrite (proj1 (listener_ended O requestId ev s E)). exact H. }
  destruct H as [(_ & Hd & Hb) | (pre & Hpre & _)].
  2:{ rewrite Hpre, writableEnded_app in E. cbn in E. rewrite orb_true_r in E.
      discriminate. }
  destruct ev as [[[| c t] |] | m | r | msg | code |]; cbn [listener]; rewrite ?E;
    try (left; repeat split; assumption).
  - destruct (now_seconds O (world_ s)) as [created w]. cbn [res]. left.
    unfold dones, bodies in *.
    rewrite writableEnded_app, List.filter_app, flat_map_app, E, Hd, Hb. repeat split.
  - destruct (createDoneChunk O (world_ s) requestId (lastModel s)) as [k w]. cbn [res].
    apply (disciplined_end (res s) [call_write (frame_chunk k); call_write frame_done]);
      auto.
  - cbn [write res].
    apply (disciplined_end (res s) [call_write (frame_error (server_error (Text msg)))]);
      auto.
  - cbn [write res].
    replace ((if nonzero code && negb (isComplete s)
              then [call_write (frame_error (exited code))] else [])
             ++ [call_write frame_done; call_end])
      with (((if nonzero code && negb (isComplete s)
              then [call_write (frame_error (exited code))] else [])
             ++ [call_write frame_done]) ++ [call_end])
      by (rewrite <- app_assoc; reflexivity).
    apply disciplined_end; auto; destruct (nonzero code && negb (isComplete s)); cbn; auto.
  - destruct (isComplete s); cbn [res]; left; repeat split; assumption.
Qed.

Lemma run_disciplined (O : oracle) (requestId : jstr) (evs : list event) (s : state) :
  disciplined (res s) -> disciplined (res (run O requestId s evs)).
Proof.
  revert s. unfold run. induction evs as [| ev evs IH]; intros s H; [exact H |].
  cbn [fold_left]. apply IH, listener_disciplined, H.
Qed.

(** X20.  Whatever events arrive, in whatever order, the listeners of
    [handleStreamingResponse] end the response at most once and call
    nothing on it afterwards; they write at most one [DONE] frame; and
    they never send a JSON body. *)
Theorem streaming_ends_once (O : oracle) (requestId : jstr) (w : world)
    (evs : list event) :
  let l := res (run O requestId (init requestId w) evs) in
  (forall pre post, l = pre ++ call_end :: post -> post = []) /\
  (length (dones l) <= 1)%nat /\
  bodies l = [].
Proof.
  cbn zeta.
  assert (disciplined (res (run O requestId (init requestId w) evs))) as H.
  { apply run_disciplined. left. repeat split. }
  destruct H as [(He & Hd & Hb) | (p & -> & He & Hd & Hb)].
  - split; [| rewrite Hd, Hb; cbn; split; [lia | reflexivity]].
    intros pre post E. rewrite E, writableEnded_app in He. cbn in He.
    rewrite orb_true_r in He. discriminate.
  - split.
    + intros pre post E. destruct post as [| x post _] using rev_ind; [reflexivity |].
      change (pre ++ call_end :: post ++ [x]) with (pre ++ (call_end :: post) ++ [x]) in E.
      rewrite app_assoc in E. apply app_inj_tail in E as [E _].
      rewrite E, writableEnded_app in He. cbn in He. rewrite orb_true_r in He.
      discriminate.
    + unfold dones, bodies in *. rewrite List.filter_app, flat_map_app, length_app, Hb.
      cbn. split; [lia | reflexivity].
Qed.

(** *** The chunks of an answer *)

Lemma chunks_written_writes (ks : list chunk) :
  chunks_written (map (fun k => call_write (frame_chunk k)) ks) = ks.
Proof. induction ks as [| k ks IH]; [reflexivity |]. cbn. f_equal. exact IH. Qed.

(** While the answer is under way, each content delta that is not empty
    adds one chunk, and nothing else changes the response. *)
Lemma run_under_way (O : oracle) (requestId : jstr) (evs : list event) :
  Forall under_way evs ->
  forall s : state,
    writableEnded (res s) = false ->
    exists new,
      res (run O requestId s evs)
      = res s ++ map (fun k => call_write (frame_chunk k)) new /\
      map (fun k => d_content (k_delta k)) new = map Some (texts_of evs) /\
      map (fun k => d_role (k_delta k)) new = roles (isFirst s) (length new) /\
      Forall (fun k => k_finish_reason k = None) new /\
      isComplete (run O requestId s evs) = isComplete s /\
      kills (run O requestId s evs) = kills s.
Proof.
  induction 1 as [| ev evs Hev _ IH]; intros s Hopen.
  - exists []. cbn. rewrite app_nil_r. repeat split. constructor.
  - change (run O requestId s (ev :: evs))
      with (run O requestId (listener O requestId ev s) evs).
    destruct ev as [[[| c t] |] | m | r | msg | code |]; try destruct Hev;
      cbn [listener texts_of flat_map app]; try (apply IH, Hopen).
    + rewrite Hopen. destruct (now_seconds O (world_ s)) as [created w'].
      match goal with |- context [run O requestId ?s1 evs] => set (s1' := s1) end.
      destruct (IH s1') as (new & Hres & Hc & Hr & Hf & Hcomp & Hk).
      { subst s1'. cbn [res]. rewrite writableEnded_app, Hopen. reflexivity. }
      eexists (_ :: new). rewrite Hres. subst s1'. cbn [res isFirst isComplete kills] in *.
      split; [rewrite <- app_assoc; reflexivity |].
      cbn [map k_delta d_content d_role length roles].
      split; [f_equal; exact Hc |].
      split; [f_equal; rewrite Hr; destruct new; reflexivity |].
      split; [constructor; [reflexivity | exact Hf] |].
      split; assumption.
    + destruct (IH {| isFirst := isFirst s; lastModel := m; isComplete := isComplete s;
                      res := res s; kills := kills s; world_ := world_ s |} Hopen)
        as (new & Hres & Hc & Hr & Hf & Hcomp & Hk).
      exists new. repeat split; assumption.
Qed.

Lemma run_app (O : oracle) (requestId : jstr) (a b : list event) (s : state) :
  run O requestId s (a ++ b) = run O requestId (run O requestId s a) b.
Proof. apply fold_left_app. Qed.

Lemma no_chunk_finish (new : list chunk) :
  Forall (fun k => k_finish_reason k = None) new ->
  flat_map (fun k => match k_finish_reason k with Some f => [f] | None => [] end) new = [].
Proof.
  induction 1 as [| k new Hk _ IH]; [reflexivity |]. cbn [flat_map]. rewrite Hk, IH.
  reflexivity.
Qed.

Lemma completions_writes (ks : list chunk) :
  completions (map (fun k => call_write (frame_chunk k)) ks) = [].
Proof. induction ks as [| k ks IH]; [reflexivity | exact IH]. Qed.

Lemma dones_writes (ks : list chunk) :
  dones (map (fun k => call_write (frame_chunk k)) ks) = [].
Proof. induction ks as [| k ks IH]; [reflexivity | exact IH]. Qed.

(** X21.  The stream of a complete answer.  When content deltas and
    assistant messages are followed by the result event, the chunks
    written are one per content delta that is not empty, in order, with
    the role "assistant" on the first of them only, and then the done
    chunk, whose delta is empty and which alone has a finish reason,
    "stop"; the response ends with the [DONE] frame.  Whatever comes after
    the result (the exit of the process, a late error, the close of the
    response) changes nothing of the response and kills nothing. *)
Theorem streaming_complete_answer (O : oracle) (requestId : jstr) (w : world)
    (evs more : list event) (r : ClaudeCliResult) :
  Forall under_way evs ->
  let s := run O requestId (init requestId w) (evs ++ result_event r :: more) in
  map (fun k => d_content (k_delta k)) (chunks_written (res s))
    = map Some (texts_of evs) ++ [None] /\
  map (fun k => d_role (k_delta k)) (chunks_written (res s))
    = roles true (length (texts_of evs)) ++ [None] /\
  finish_reasons (res s) = [lit "stop"] /\
  (exists pre k, res s = pre ++ [call_write (frame_chunk k); call_write frame_done;
                                 call_end]) /\
  kills s = 0%nat.
Proof.
  intros Hevs. cbn zeta. rewrite run_app.
  destruct (run_under_way O requestId evs Hevs (init requestId w) eq_refl)
    as (new & Hres & Hc & Hr & Hf & Hcomp & Hk).
  set (s1 := run O requestId (init requestId w) evs) in *.
  change (run O requestId s1 (result_event r :: more))
    with (run O requestId (listener O requestId (result_event r) s1) more).
  assert (writableEnded (res s1) = false) as Hopen.
  { rewrite Hres, writableEnded_app. cbn.
    clear. induction new as [| k new IH]; [reflexivity | exact IH]. }
  cbn [listener]. rewrite Hopen. unfold createDoneChunk.
  destruct (now_seconds O (world_ s1)) as [t w'].
  match goal with |- context [run O requestId ?s2' more] => set (s2 := s2') end.
  destruct (run_ended O requestId more s2) as [Hsame Hkills].
  { subst s2. cbn [res]. rewrite writableEnded_app. cbn. apply orb_true_r. }
  rewrite Hsame, (Hkills eq_refl). subst s2. cbn [res kills]. rewrite Hres, Hk.
  assert (length new = length (texts_of evs)) as Hlen
    by (rewrite <- (length_map (fun k => d_content (k_delta k)) new), Hc, length_map;
        reflexivity).
  assert (forall a b, chunks_written (a ++ b) = chunks_written a ++ chunks_written b)
    as Happ by (intros a b; apply flat_map_app).
  assert (forall a b, completions (a ++ b) = completions a ++ completions b)
    as Happ' by (intros a b; apply flat_map_app).
  unfold finish_reasons.
  rewrite !Happ, !Happ', chunks_written_writes, completions_writes.
  cbn [init res chunks_written completions flat_map app].
  rewrite !map_app, Hc, Hr, Hlen, flat_map_app, (no_chunk_finish new Hf). cbn.
  repeat split.
  eexists (_ :: _ :: _ :: _ :: _ :: _ :: map (fun k => call_write (frame_chunk k)) new), _.
  reflexivity.
Qed.

Lemma streaming_complete_answer_witness :
  map (fun k => d_content (k_delta k))
      (chunks_written
         (res (run Inputs.counting (lit "r") (init (lit "r") world0)
                 ([content_delta (Some (lit "Hel")); content_delta (Some []);
                   content_delta (Some (lit "lo")); assistant (lit "claude-sonnet-4-5")]
                  ++ result_event Inputs.hello :: [close (Some 0%Z)]))))
  = [Some (lit "Hel"); Some (lit "lo"); None].
Proof.
  apply (streaming_complete_answer Inputs.counting (lit "r") world0
           [content_delta (Some (lit "Hel")); content_delta (Some []);
            content_delta (Some (lit "lo")); assistant (lit "claude-sonnet-4-5")]
           [close (Some 0%Z)] Inputs.hello).
  repeat constructor.
Defined.

(** X22.  The stream of an answer that does not complete.  When the
    process exits before any result event, the response is closed with the
    [DONE] frame, preceded by an error frame that cites the exit code
    unless the code is 0; when an error event comes first, the error frame
    is written and the response ended without [DONE] frame.  In both cases
    no chunk with a finish reason is written, and later events add
    nothing. *)
Theorem streaming_without_result (O : oracle) (requestId : jstr) (w : world)
    (evs more : list event) :
  Forall under_way evs ->
  let s1 := run O requestId (init requestId w) evs in
  (forall code,
     let l := res (run O requestId (init requestId w) (evs ++ close code :: more)) in
     l = res s1
         ++ (if nonzero code then [call_write (frame_error (exited code))] else [])
         ++ [call_write frame_done; call_end] /\
     finish_reasons l = []) /\
  (forall msg,
     let l := res (run O requestId (init requestId w) (evs ++ error msg :: more)) in
     l = res s1 ++ [call_write (frame_error (server_error (Text msg))); call_end] /\
     finish_reasons l = []).
Proof.
  intros Hevs. cbn zeta.
  destruct (run_under_way O requestId evs Hevs (init requestId w) eq_refl)
    as (new & Hres & _ & _ & Hf & Hcomp & _).
  set (s1 := run O requestId (init requestId w) evs) in *.
  assert (writableEnded (res s1) = false) as Hopen.
  { rewrite Hres, writableEnded_app. cbn.
    clear. induction new as [| k new IH]; [reflexivity | exact IH]. }
  assert (forall a b, chunks_written (a ++ b) = chunks_written a ++ chunks_written b)
    as Happ by (intros a b; apply flat_map_app).
  assert (forall a b, completions (a ++ b) = completions a ++ completions b)
    as Happ' by (intros a b; apply flat_map_app).
  assert (finish_reasons (res s1) = []) as Hnone.
  { unfold finish_reasons.
    rewrite Hres, Happ, Happ', chunks_written_writes, completions_writes.
    cbn [init res chunks_written completions flat_map app].
    rewrite (no_chunk_finish new Hf). reflexivity. }
  assert (forall tail,
            chunks_written tail = [] -> completions tail = [] ->
            finish_reasons (res s1 ++ tail) = []) as Htail.
  { intros tail H1 H2. unfold finish_reasons in *.
    rewrite Happ, Happ', H1, H2, !app_nil_r. exact Hnone. }
  split.
  - intros code. rewrite run_app. fold s1.
    change (run O requestId s1 (close code :: more))
      with (run O requestId (listener O requestId (close code) s1) more).
    cbn [listener]. rewrite Hopen, Hcomp. cbn [init isComplete negb].
    rewrite andb_true_r.
    match goal with |- context [run O requestId ?s2' more] => set (s2 := s2') end.
    destruct (run_ended O requestId more s2) as [Hsame _].
    { subst s2. cbn [write res]. rewrite !writableEnded_app. cbn.
      rewrite !orb_true_r. reflexivity. }
    rewrite Hsame. subst s2. cbn [write res].
    split; [reflexivity |]. apply Htail; destruct (nonzero code); reflexivity.
  - intros msg. rewrite run_app. fold s1.
    change (run O requestId s1 (error msg :: more))
      with (run O requestId (listener O requestId (error msg) s1) more).
    cbn [listener]. rewrite Hopen.
    match goal with |- context [run O requestId ?s2' more] => set (s2 := s2') end.
    destruct (run_ended O requestId more s2) as [Hsame _].
    { subst s2. cbn [write res]. rewrite !writableEnded_app. cbn.
      rewrite !orb_true_r. reflexivity. }
    rewrite Hsame. subst s2. cbn [write res].
    split; [reflexivity |]. apply Htail; reflexivity.
Qed.

Lemma streaming_without_result_witness :
  res (run Inputs.counting (lit "r") (init (lit "r") world0)
         ([assistant (lit "claude-sonnet-4-5")] ++ close (Some 0%Z) :: [res_close]))
  = res (init (lit "r") world0) ++ [call_write frame_done; call_end].
Proof.
  apply (proj1 (streaming_without_result Inputs.counting (lit "r") world0
                  [assistant (lit "claude-sonnet-4-5")] [res_close]
                  ltac:(repeat constructor)) (Some 0%Z)).
Defined.

End StreamingFacts.
(* ===================================================================== *)
(** ** The buffered replay and the JSON answer, event by event *)
(* ===================================================================== *)

Section ReplayFacts.
Import ToolProtocol CliToOpenai Routes Replay.

(** *** The number of calls does not depend on the ids minted *)

Lemma call_of_body_found (O : oracle) (w w' : world) (body : jstr) :
  (fst (call_of_body O w body) = None) <-> (fst (call_of_body O w' body) = None).
Proof.
  unfold call_of_body.
  destruct (JSON_parse body) as [parsed |]; [| tauto].
  destruct (get (Some parsed) "id") as [id | e]; [| tauto].
  destruct (get (Some parsed) "name") as [name | e1],
           (get (Some parsed) "arguments") as [args | e2];
    destruct id as [x |]; try destruct (truthy (Some x));
    try destruct (short_id O w); try destruct (short_id O w'); cbn;
    split; intros H; try discriminate H; reflexivity.
Qed.

Lemma calls_of_bodies_length (O : oracle) (bodies : list jstr) (w w' : world) :
  length (fst (Spec.calls_of_bodies O w bodies))
  = length (fst (Spec.calls_of_bodies O w' bodies)).
Proof.
  revert w w'. induction bodies as [| body rest IH]; intros w w'; [reflexivity |].
  cbn [Spec.calls_of_bodies].
  pose proof (call_of_body_found O w w' body) as Hsame.
  destruct (call_of_body O w body) as [c w1].
  destruct (call_of_body O w' body) as [c' w1'].
  specialize (IH w1 w1').
  destruct (Spec.calls_of_bodies O w1 rest) as [cs w2].
  destruct (Spec.calls_of_bodies O w1' rest) as [cs' w2'].
  cbn [fst] in *.
  destruct c, c'; cbn [length]; try (rewrite IH; reflexivity).
  - destruct Hsame as [_ H]. discriminate (H eq_refl).
  - destruct Hsame as [H _]. discriminate (H eq_refl).
Qed.

Lemma finish_for_world (O : oracle) (w w' : world) (text : jstr) :
  finish_for (fst (parseToolCalls O w text)) = finish_for (fst (parseToolCalls O w' text)).
Proof.
  destruct (all_matches_exists text) as [bodies Hb].
  unfold parseToolCalls.
  rewrite !(scan_calls_spec O text bodies Hb) by lia.
  pose proof (calls_of_bodies_length O bodies w w') as Hlen.
  unfold finish_for. cbn [fst toolCalls app].
  destruct (fst (Spec.calls_of_bodies O w bodies)),
           (fst (Spec.calls_of_bodies O w' bodies)); cbn in Hlen; congruence.
Qed.

(** *** Writing the chunks *)

Lemma write_all_open (ks : list chunk) (h : handler) :
  writableEnded (res h) = false ->
  exists h',
    write_all ks h = (h', Ok tt) /\
    res h' = res h ++ map (fun k => call_write (frame_chunk k)) ks /\
    world_ h' = world_ h /\ isComplete h' = isComplete h.
Proof.
  revert h. induction ks as [| k ks IH]; intros h Hopen.
  - exists h. cbn. rewrite app_nil_r. repeat split.
  - cbn [write_all]. unfold bindL, write_if_open, bindL, gets. rewrite Hopen.
    cbn [negb when res_write modify].
    destruct (IH (push (call_write (frame_chunk k)) h)) as (h' & Hw & Hres & Hworld & Hc).
    { cbn [push res]. unfold writableEnded in *. rewrite existsb_app, Hopen. reflexivity. }
    exists h'. rewrite Hw. split; [reflexivity |].
    rewrite Hres. cbn [push res world_ isComplete] in *. rewrite <- app_assoc.
    repeat split; assumption.
Qed.

Lemma buildToolCallChunks_finish (O : oracle) (w : world) (calls : list tool_call)
    (text : option jstr) (requestId model : jstr) :
  flat_map (fun k => match k_finish_reason k with Some f => [f] | None => [] end)
           (fst (buildToolCallChunks O w calls text requestId model))
  = [lit "tool_calls"].
Proof.
  unfold buildToolCallChunks. destruct (now_seconds O w) as [t w']. cbn [fst].
  rewrite !flat_map_app.
  rewrite (no_chunk_finish (toolCallChunks _ _ _ _ _ _)).
  - destruct (has_text text); reflexivity.
  - eapply Forall_impl; [apply toolCallChunks_finish |]. cbn. intros k Hk. apply Hk.
Qed.

Lemma cliResultToOpenaiWithTools_ok (O : oracle) (w : world) (r : ClaudeCliResult)
    (requestId : jstr) :
  cr_modelUsage r <> Some [] ->
  exists c w',
    cliResultToOpenaiWithTools O w r requestId = Ok (c, w') /\
    c_finish_reason c = finish_for (fst (parseToolCalls O w (cr_result r))).
Proof.
  intros Hm. unfold cliResultToOpenaiWithTools, cliResultToOpenai, finish_for.
  destruct (parseToolCalls O w (cr_result r)) as [p w1]. cbn [fst].
  assert (exists m, normalizedModelOf r = Ok m) as [m Hnorm].
  { unfold normalizedModelOf, modelNameOf.
    destruct (cr_modelUsage r) as [[| key keys] |]; cbn; eauto. congruence. }
  destruct (toolCalls p) as [| tc tcs].
  - destruct (now_seconds O w1) as [t w2]. rewrite Hnorm. cbn. eauto.
  - destruct (now_seconds O w1) as [t w2]. rewrite Hnorm. cbn. eauto.
Qed.

Local Arguments parseToolCalls : simpl never.
Local Arguments buildToolCallChunks : simpl never.
Local Arguments now_seconds : simpl never.
Local Arguments cliResultToOpenaiWithTools : simpl never.
Local Arguments cliResultToOpenai : simpl never.

(** The replay as an event stream, on a response nothing was sent on. *)
Lemma replayStream_fresh (O : oracle) (requestId : jstr) (p : parsed_calls)
    (text : jstr) (h : handler) :
  res h = [] ->
  exists h',
    replayStream O requestId p text h = (h', Ok tt) /\
    finish_reasons (res h') = [finish_for p] /\
    writableEnded (res h') = true /\
    isComplete h' = isComplete h.
Proof.
  intros Hres. destruct h as [buf last final complete r0 ks w].
  cbn [res] in Hres. subst r0. unfold replayStream, finish_for.
  unfold bindL at 1 2 3 4 5 6 7. cbn [res_setHeader res_flushHeaders res_write modify
    push headersSent existsb sends res app orb gets lastModel].
  destruct (toolCalls p) as [| tc tcs] eqn:Ecalls.
  - unfold bindL, effect, write_if_open, bindL, gets, createDoneChunk. cbn.
    destruct (now_seconds O w) as [t w1]. cbn.
    destruct (now_seconds O w1) as [t2 w2]. cbn.
    eexists. split; [reflexivity |]. cbn. repeat split.
  - unfold bindL at 1 2. unfold effect. cbn [world_ push].
    pose proof (buildToolCallChunks_finish O w (tc :: tcs) (textContent p) requestId last)
      as Hfinish.
    destruct (buildToolCallChunks O w (tc :: tcs) (textContent p) requestId last)
      as [chunks w1]. cbn [fst] in Hfinish.
    match goal with
    | |- context [write_all chunks ?h0] =>
        destruct (write_all_open chunks h0 eq_refl) as (h1 & Hw & Hr & _ & Hc)
    end.
    rewrite Hw. cbn [set_world push res isComplete app] in Hr, Hc.
    assert (writableEnded (res h1) = false) as Hopen.
    { rewrite Hr. cbn. clear. induction chunks as [| k chunks IH]; [reflexivity | exact IH]. }
    unfold bindL, gets. rewrite Hopen. cbn [negb when res_write res_end modify].
    eexists. split; [reflexivity |]. cbn [push res isComplete]. rewrite Hr.
    split; [| split; [| exact Hc]].
    + unfold finish_reasons, chunks_written, completions.
      rewrite <- !app_assoc. cbn [app flat_map].
      rewrite !flat_map_app.
      change (flat_map _ (map (fun k => call_write (frame_chunk k)) chunks))
        with (chunks_written (map (fun k => call_write (frame_chunk k)) chunks)) at 1.
      rewrite chunks_written_writes. cbn [flat_map app]. rewrite app_nil_r, Hfinish.
      change (flat_map _ (map (fun k => call_write (frame_chunk k)) chunks))
        with (completions (map (fun k => call_write (frame_chunk k)) chunks)).
      rewrite completions_writes. reflexivity.
    + unfold writableEnded. rewrite !existsb_app. cbn. apply orb_true_r.
Qed.

(** The replay as a JSON body, on a response nothing was sent on. *)
Lemma replayJson_fresh (O : oracle) (requestId : jstr) (p : parsed_calls)
    (text : jstr) (h : handler) :
  res h = [] ->
  match finalResult h with
  | None => True
  | Some r =>
      cr_modelUsage r <> Some [] /\
      finish_for (fst (parseToolCalls O (world_ h) (cr_result r))) = finish_for p
  end ->
  exists h',
    replayJson O requestId p text h = (h', Ok tt) /\
    finish_reasons (res h') = [finish_for p] /\
    writableEnded (res h') = true /\
    isComplete h' = isComplete h.
Proof.
  intros Hres Hfinal. destruct h as [buf last final complete r0 ks w].
  cbn [res finalResult world_] in *. subst r0. unfold replayJson.
  unfold bindL at 1. cbn [gets finalResult].
  destruct final as [r |].
  - destruct Hfinal as [Hm Hsame].
    destruct (cliResultToOpenaiWithTools_ok O w r requestId Hm) as (c & w' & Hc & Hfin).
    unfold bindL, throwing. cbn [world_]. rewrite Hc. cbn.
    eexists. split; [reflexivity |]. cbn. rewrite Hfin, Hsame. repeat split.
  - unfold bindL, effect, gets. cbn [world_].
    destruct (now_seconds O w) as [t w']. cbn [set_world lastModel].
    unfold finish_for. destruct (toolCalls p); cbn;
      (eexists; split; [reflexivity |]; cbn; repeat split).
Qed.

(** X23.  The buffered replay, where it works.  When the process closes
    with a response text that is not empty and nothing was sent on the
    response, the ["close"] listener of [handleToolAwareResponse] returns,
    ends the response, and the finish reason it sends is "tool_calls" if
    [parseToolCalls] extracts a call from the chosen text and "stop" if
    not: as an event stream in every case, and as a JSON body when there
    was no result event or when the result event carries the chosen text
    (and names a model). *)
Theorem toolAware_finish_reason (O : oracle) (requestId : jstr) (stream : bool)
    (code : option Z) (h : handler) :
  res h = [] -> chosen h <> [] -> stream = true \/ convertible h ->
  exists h',
    toolAware O requestId stream (close code) h = (h', Ok tt) /\
    finish_reasons (res h')
    = [finish_for (fst (parseToolCalls O (world_ h) (chosen h)))] /\
    writableEnded (res h') = true /\
    isComplete h' = true.
Proof.
  intros Hres Htext Hpath. destruct h as [buf last final complete r0 ks w].
  cbn [res] in Hres. subst r0. unfold chosen, convertible in *.
  cbn [finalResult bufferedText world_] in *.
  cbn [toolAware]. unfold bindL, modify, gets, effect. cbn.
  destruct (responseTextOf final buf) as [| c0 t0] eqn:Etext; [congruence |].
  cbn. destruct (parseToolCalls O w (c0 :: t0)) as [p w0] eqn:Eparse. cbn [fst].
  destruct stream.
  - match goal with
    | |- context [replayStream O requestId p (c0 :: t0) ?h0] =>
        destruct (replayStream_fresh O requestId p (c0 :: t0) h0 eq_refl)
          as (h' & Hrun & Hfin & Hend & Hc)
    end.
    exists h'. repeat split; assumption.
  - destruct Hpath as [Hpath | Hpath]; [discriminate |].
    match goal with
    | |- context [replayJson O requestId p (c0 :: t0) ?h0] =>
        destruct (replayJson_fresh O requestId p (c0 :: t0) h0 eq_refl)
          as (h' & Hrun & Hfin & Hend & Hc)
    end.
    { cbn [set_world set_isComplete finalResult world_].
      destruct final as [r |]; [| exact I]. destruct Hpath as [Hne Hm].
      split; [exact Hm |].
      assert (cr_result r = c0 :: t0) as Hsame.
      { unfold responseTextOf in Etext. destruct (cr_result r); [congruence | exact Etext]. }
      rewrite Hsame, (finish_for_world O w0 w), Eparse. reflexivity. }
    exists h'. repeat split; assumption.
Qed.

Lemma toolAware_finish_reason_witness :
  exists h',
    toolAware Inputs.counting (lit "r") true (close (Some 0%Z))
      (set_bufferedText Inputs.one_call (init world0)) = (h', Ok tt) /\
    finish_reasons (res h') = [lit "tool_calls"].
Proof.
  destruct (toolAware_finish_reason Inputs.counting (lit "r") true (Some 0%Z)
              (set_bufferedText Inputs.one_call (init world0)))
    as (h' & Hrun & Hfin & _).
  - reflexivity.
  - vm_compute. discriminate.
  - left. reflexivity.
  - exists h'. split; [exact Hrun |]. rewrite Hfin. vm_compute. reflexivity.
Defined.

(** *** After an error *)

Lemma toolAware_error_sent (O : oracle) (requestId message : jstr) (stream : bool)
    (h : handler) :
  exists h1,
    toolAware O requestId stream (error message) h = (h1, Ok tt) /\
    headersSent (res h1) = true /\
    (headersSent (res h) = false ->
     res h1 = res h ++ [call_json 500 (server_error (Text message))]).
Proof.
  destruct h as [buf last final complete r0 ks w].
  cbn [toolAware]. unfold bindL, modify, gets, res_json, headersSent. cbn.
  destruct (existsb sends r0) eqn:E; cbn; rewrite ?E.
  - eexists. split; [reflexivity |]. cbn. split; [exact E | discriminate].
  - eexists. split; [reflexivity |]. cbn.
    rewrite existsb_app, E. split; reflexivity.
Qed.

Lemma replayStream_sent (O : oracle) (requestId : jstr) (p : parsed_calls)
    (text : jstr) (h : handler) :
  headersSent (res h) = true ->
  replayStream O requestId p text h = (h, Throw ERR_HTTP_HEADERS_SENT).
Proof.
  intros Hsent. unfold replayStream. unfold bindL at 1. unfold res_setHeader.
  rewrite Hsent. reflexivity.
Qed.

Lemma replayJson_sent (O : oracle) (requestId : jstr) (p : parsed_calls)
    (text : jstr) (h : handler) :
  headersSent (res h) = true ->
  exists e h', replayJson O requestId p text h = (h', Throw e) /\ res h' = res h.
Proof.
  intros Hsent. destruct h as [buf last final complete r0 ks w]. cbn [res] in Hsent.
  unfold replayJson, bindL, gets, throwing, effect, res_json.
  cbv beta iota delta [finalResult world_ set_world res lastModel].
  destruct final as [r |].
  - destruct (cliResultToOpenaiWithTools O w r requestId) as [[c w'] | e];
      cbv beta iota; rewrite ?Hsent; eauto.
  - destruct (now_seconds O w) as [t w']. cbv beta iota.
    destruct (toolCalls p); rewrite Hsent; eauto.
Qed.

Lemma toolAware_close_sent (O : oracle) (requestId : jstr) (stream : bool)
    (code : option Z) (h : handler) :
  headersSent (res h) = true ->
  exists e h2,
    toolAware O requestId stream (close code) h = (h2, Throw e) /\ res h2 = res h.
Proof.
  intros Hsent. cbn [toolAware]. unfold bindL, modify, gets, effect. cbv beta iota.
  assert (res (set_isComplete h) = res h) as Hres by (destruct h; reflexivity).
  rewrite Hres, Hsent, andb_false_r.
  destruct (parseToolCalls O (world_ (set_isComplete h)) _) as [p w0].
  assert (res (set_world w0 (set_isComplete h)) = res h) as Hres'
    by (destruct h; reflexivity).
  destruct stream.
  - rewrite replayStream_sent by (rewrite Hres'; exact Hsent). eauto.
  - destruct (replayJson_sent O requestId p
                (responseTextOf (finalResult (set_isComplete h))
                   (bufferedText (set_isComplete h)))
                (set_world w0 (set_isComplete h)))
      as (e & h' & Hrun & Hsame); [rewrite Hres'; exact Hsent |].
    exists e, h'. split; [exact Hrun | congruence].
Qed.

(** X24.  The buffered replay after an error.  The ["error"] listener of
    [handleToolAwareResponse] leaves the headers sent (it answers 500
    unless something was sent before).  The ["close"] event that follows,
    as it does after a timeout, then never returns normally: whatever was
    buffered, streaming or not, the listener goes on to set a header or
    to send a body on the response that was answered, and an exception
    leaves it; nothing more is written on the response. *)
Theorem toolAware_close_after_error (O : oracle) (requestId message : jstr)
    (stream : bool) (code : option Z) (h : handler) :
  exists h1 h2 e,
    toolAware O requestId stream (error message) h = (h1, Ok tt) /\
    (headersSent (res h) = false ->
     res h1 = res h ++ [call_json 500 (server_error (Text message))]) /\
    toolAware O requestId stream (close code) h1 = (h2, Throw e) /\
    res h2 = res h1.
Proof.
  destruct (toolAware_error_sent O requestId message stream h) as (h1 & H1 & Hsent & Hres).
  destruct (toolAware_close_sent O requestId stream code h1 Hsent) as (e & h2 & H2 & Hsame).
  exists h1, h2, e. repeat split; assumption.
Qed.


(** *** The JSON answer without tools *)

Lemma nonStreaming_ignores (O : oracle) (requestId : jstr) (evs : list event)
    (h : handler) :
  Forall Streaming.under_way evs ->
  fold_left (deliver (nonStreaming O requestId)) evs (h, None) = (h, None).
Proof.
  induction 1 as [| ev evs Hev _ IH]; [reflexivity |].
  cbn [fold_left]. destruct ev; try destruct Hev; exact IH.
Qed.

(** X25.  The JSON answer of [handleNonStreamingResponse].  Content deltas
    and assistant messages are ignored; when the result event and then the
    exit of the process follow, exactly one body is sent, with status 200,
    the result text as content and the finish reason "stop".  The exception
    is a result whose [modelUsage] is an empty object: the conversion
    throws inside the ["close"] listener and no body is sent at all. *)
Theorem nonStreaming_answer (O : oracle) (requestId : jstr) (w : world)
    (evs : list event) (r : ClaudeCliResult) (code : option Z) :
  Forall Streaming.under_way evs ->
  let '(h, uncaught) :=
    run (nonStreaming O requestId) (init w) (evs ++ [result_event r; close code]) in
  match cr_modelUsage r with
  | Some [] => uncaught = Some (TypeError (lit "includes")) /\ res h = []
  | _ =>
      uncaught = None /\
      exists c, res h = [call_json 200 (Completion c)] /\
                m_content (c_message c) = Some (cr_result r) /\
                m_tool_calls (c_message c) = None /\
                c_finish_reason c = lit "stop"
  end.
Proof.
  intros Hevs. unfold run. rewrite fold_left_app, (nonStreaming_ignores _ _ _ _ Hevs).
  cbn [fold_left deliver nonStreaming modify]. unfold bindL, gets, throwing.
  cbv beta iota delta [set_finalResult init finalResult world_].
  unfold cliResultToOpenai, normalizedModelOf, modelNameOf.
  destruct (now_seconds O w) as [t w'].
  destruct (cr_modelUsage r) as [[| key keys] |]; cbn; [split; reflexivity | |];
    (split; [reflexivity |]; eexists; repeat split).
Qed.

Lemma nonStreaming_answer_witness :
  exists h c,
    run (nonStreaming Inputs.counting (lit "r")) (init world0)
        ([content_delta (Some (lit "hel")); assistant (lit "claude-sonnet-4-5")]
         ++ [result_event Inputs.hello; close (Some 0%Z)]) = (h, None) /\
    res h = [call_json 200 (Completion c)] /\
    m_content (c_message c) = Some (lit "hello").
Proof.
  pose proof (nonStreaming_answer Inputs.counting (lit "r") world0
                [content_delta (Some (lit "hel")); assistant (lit "claude-sonnet-4-5")]
                Inputs.hello (Some 0%Z) ltac:(repeat constructor)) as H.
  destruct (run _ _ _) as [h uncaught]. cbn [Inputs.hello cr_modelUsage] in H.
  destruct H as (-> & c & Hres & Hcontent & _).
  exists h, c. repeat split; assumption.
Defined.

End ReplayFacts.
(* ===================================================================== *)
(** ** The tool manifest ([buildToolInstructions]) and the prompt *)
(* ===================================================================== *)

Section Manifest.
Import ToolProtocol OpenaiToCli Prompt.
Local Open Scope js_scope.





Lemma buildToolInstructions_starts (tools : list json) (s : jstr) :
  buildToolInstructions tools = Ok s -> starts_with MANIFEST s = true.
Proof.
  unfold buildToolInstructions. destruct (mapM toolDef tools) as [defs | e]; cbn [bind];
    [| discriminate].
  intros H.
  assert (s = join nl [lit "<tools_available>"; join nl defs; lit "</tools_available>";
                       []; TOOL_CALL_INSTRUCTIONS]) as -> by congruence.
  rewrite join_more. change (lit "<tools_available>") with MANIFEST.
  apply starts_with_app.
Qed.


(** *** The manifest opens the prompt *)

Lemma split_last {A} (x : A) (l : list A) : exists l' y, x :: l = l' ++ [y].
Proof.
  revert x. induction l as [| z l IH]; intros x; [exists [], x; reflexivity |].
  destruct (IH z) as (l' & y & E). exists (x :: l'), y. cbn. rewrite E. reflexivity.
Qed.

(** A prefix that neither starts nor ends with white space survives [trim]. *)
Lemma trim_keeps_prefix (a : N) (p' : jstr) (c : N) (t : jstr) :
  is_space a = false -> is_space c = false ->
  forall p, p = a :: p' -> (exists q, p = q ++ [c]) ->
  starts_with p (trim (p ++ t)) = true.
Proof.
  intros Ha Hc p Hp [q Hq]. unfold trim.
  assert (skip_ws (p ++ t) = p ++ t) as -> by (rewrite Hp; apply skip_ws_head, Ha).
  rewrite rev_app_distr, Hq, rev_app_distr. cbn [rev app].
  destruct (skip_ws_stop (rev t) c Hc) as (d & a' & _ & Hskip). rewrite Hskip.
  rewrite rev_app_distr. cbn [rev]. rewrite rev_involutive, <- app_assoc.
  rewrite app_assoc. apply starts_with_app.
Qed.

Lemma hasTools_true (request : jsval) :
  hasTools request = Ok true ->
  exists tools t ts, get request "tools" = Ok tools /\ nonempty_array tools = Some (t :: ts).
Proof.
  unfold hasTools. intros H. apply bind_ok in H as (tools & Ht & H).
  destruct (nonempty_array tools) as [ts |] eqn:E; [| discriminate].
  exists tools. unfold nonempty_array in E.
  destruct tools as [[| | | | [| t ts'] |] |]; try discriminate. inversion E; subst.
  exists t, ts'. split; [exact Ht | reflexivity].
Qed.

Lemma messagesToPrompt_manifest (messages : list json) (t : json) (ts : list json)
    (p : jstr) :
  messagesToPrompt messages (Some (t :: ts)) = Ok p -> starts_with MANIFEST p = true.
Proof.
  unfold messagesToPrompt. intros H. apply bind_ok in H as (parts0 & H0 & H).
  apply bind_ok in H0 as (i & Hi & H0). inversion H0; subst parts0; clear H0.
  apply bind_ok in H as (parts & Hparts & H). inversion H; subst p; clear H.
  change [i] with ([i] ++ []) in Hparts. rewrite flatten_acc in Hparts.
  apply bind_ok in Hparts as (ps & _ & Hparts). inversion Hparts; subst parts.
  destruct (join_head nl i ps) as [tl ->]. cbn [app].
  pose proof (buildToolInstructions_starts _ _ Hi) as Hstart.
  apply starts_with_prefix in Hstart. rewrite Hstart, <- app_assoc.
  apply (trim_keeps_prefix 60 (tail MANIFEST) 62); try reflexivity.
  exists (removelast MANIFEST). reflexivity.
Qed.

(** X27.  The tools flag and the prompt agree.  When [openaiToCli]
    returns, its [hasTools] flag, which sends the request to the buffered
    replay, is true exactly when [hasTools(request)] is, and the prompt
    then begins with the tool manifest [<tools_available>]: a request is
    never replayed in tools mode on a prompt that was not told about the
    tools. *)
Theorem openaiToCli_manifest (request : jsval) (c : CliInput) :
  openaiToCli request = Ok c ->
  (cli_hasTools c = true <-> hasTools request = Ok true) /\
  (cli_hasTools c = true -> starts_with MANIFEST (prompt c) = true).
Proof.
  unfold openaiToCli. intros H. apply bind_ok in H as (has & Hhas & H).
  apply bind_ok in H as (tools & Htools & H).
  apply bind_ok in H as (messages & _ & H).
  destruct messages as [[| | | | ms |] |]; try discriminate.
  apply bind_ok in H as (p & Hp & H). apply bind_ok in H as (m & _ & H).
  apply bind_ok in H as (a & _ & H). apply bind_ok in H as (user & _ & H).
  inversion H; subst c; clear H. cbn [cli_hasTools prompt].
  destruct has.
  - destruct (hasTools_true request Hhas) as (tl & t & ts & Ht & Hne).
    rewrite Ht in Htools. cbn [bind] in Htools. rewrite Hne in Htools.
    inversion Htools; subst tools.
    split; [split; [intros _; exact Hhas | reflexivity] |].
    intros _. apply (messagesToPrompt_manifest ms t ts p Hp).
  - inversion Htools; subst tools. rewrite Hhas.
    split; [split; intros H; [discriminate | inversion H] | discriminate].
Qed.

Lemma openaiToCli_manifest_witness :
  exists c,
    openaiToCli (Some (Inputs.weather_request "sonnet" "auto")) = Ok c /\
    cli_hasTools c = true /\ starts_with MANIFEST (prompt c) = true.
Proof.
  destruct (openaiToCli (Some (Inputs.weather_request "sonnet" "auto"))) as [c | e] eqn:E;
    [| vm_compute in E; discriminate].
  exists c. split; [reflexivity |].
  assert (cli_hasTools c = true) as Hflag.
  { apply (proj1 (openaiToCli_manifest _ c E)). vm_compute. reflexivity. }
  split; [exact Hflag | apply (proj2 (openaiToCli_manifest _ c E)), Hflag].
Defined.

End Manifest.
(* ===================================================================== *)
(** ** Starting and stopping the server *)
(* ===================================================================== *)

Section ServerFacts.
Import Server.

(** Once a start has failed, no call changes the instance or binds a port. *)
Lemma failed_stays (s : server) (calls : list call) :
  listening s = false ->
  fold_left do_call calls (Some s) = Some s /\
  Forall (fun c => listens (Some s) c = false) calls.
Proof.
  intros Hs. induction calls as [| c calls [IH1 IH2]]; [split; [reflexivity | constructor] |].
  cbn [fold_left].
  assert (do_call (Some s) c = Some s) as ->
    by (destruct c; cbn; rewrite ?Hs; reflexivity).
  split; [exact IH1 |]. constructor; [destruct c; reflexivity | exact IH2].
Qed.

(** X28.  The server module keeps one instance.  While there is an
    instance, [startServer] resolves with it without listening again,
    whatever port is asked for.  A start whose [listen] fails rejects but
    leaves its server as the instance; from then on every [startServer]
    resolves with that server, which does not listen, every [stopServer]
    rejects and leaves it in place, and no call binds a port again.  A
    [stopServer] on a listening instance clears it, and the next start
    makes a new server. *)
Theorem server_instance (p : Z) (h : option jstr) (env : listen_outcome) :
  (forall s, startServer (Some s) p h env = (Resolved (Some s), Some s, false)) /\
  (forall code calls,
     exists failed,
       snd (fst (startServer None p h (Fails code))) = Some failed /\
       listening failed = false /\
       fold_left do_call calls (Some failed) = Some failed /\
       Forall (fun c => listens (Some failed) c = false) calls /\
       (forall p' h' env', fst (fst (startServer (Some failed) p' h' env'))
                           = Resolved (Some failed)) /\
       fst (stopServer (Some failed)) = Rejected_not_running) /\
  (forall s, listening s = true ->
     stopServer (Some s) = (Resolved None, None) /\
     exists s', startServer (snd (stopServer (Some s))) p h Listens
                = (Resolved (Some s'), Some s', true) /\ port s' = p).
Proof.
  split; [reflexivity |]. split.
  - intros code calls. eexists. split; [reflexivity |]. split; [reflexivity |].
    split; [apply failed_stays; reflexivity |].
    split; [apply failed_stays; reflexivity |]. split; reflexivity.
  - intros s Hs. unfold stopServer. rewrite Hs. split; [reflexivity |].
    eexists. split; reflexivity.
Qed.

Lemma server_instance_witness :
  stopServer (Some {| port := 3456; host := lit "127.0.0.1"; listening := true |})
  = (Resolved None, None).
Proof.
  apply (proj2 (proj2 (server_instance 3456 None Listens))
           {| port := 3456; host := lit "127.0.0.1"; listening := true |}).
  reflexivity.
Defined.

End ServerFacts.
